(** * Verification model of the patcher crate (directory-level binary patches)

    Shallow embedding of [rolling_hash.rs], [binary_diff.rs],
    [binary_patch.rs], [patch_format.rs], the op pipeline of [create.rs]
    and the applier of [apply.rs].

    Conventions:
    - bytes are [Byte.byte]; their numeric value is [bval];
    - [u32]/[u64] values are [Z] with the wrap-around of release builds
      written out ([u32], [u64] below);
    - [usize] positions and lengths are [nat]; the [u64] fields of
      [DiffChunk] are [N];
    - BLAKE3 is an opaque function [blake3 : list byte -> list byte]
      (section variable); zstd + bincode decoding of a patch payload is an
      opaque [decode] function. *)

From Stdlib Require Import String Ascii ZArith Lia Bool Sorted Permutation List.
From Stdlib Require Import Strings.Byte NArith.
Import ListNotations.
Open Scope Z_scope.

(* ------------------------------------------------------------------ *)
(** ** Machine arithmetic *)

Definition u32 (x : Z) : Z := x mod 2 ^ 32.
Definition u64 (x : Z) : Z := x mod 2 ^ 64.

(** [byte as u32] / [byte as u64] *)
Definition bval (x : byte) : Z := Z.of_N (Byte.to_N x).

(* ------------------------------------------------------------------ *)
(** ** rolling_hash.rs *)

Definition MOD_ADLER : Z := 65521.

Record RollingHash := mkRollingHash {
  rh_a : Z;
  rh_b : Z;
  rh_window_size : Z
}.

(** [RollingHash::new] *)
Definition RollingHash_new : RollingHash := mkRollingHash 1 0 0.

(** One step of the [u64] accumulation loop of [init]:
    [a += byte as u64; b += a;] *)
Definition init_step (ab : Z * Z) (byte : byte) : Z * Z :=
  let '(a, b) := ab in
  let a' := u64 (a + bval byte) in
  (a', u64 (b + a')).

(** [RollingHash::init]: every field of [self] is overwritten, so the
    result depends on [data] only. *)
Definition RollingHash_init (data : list byte) : RollingHash :=
  let '(a, b) := fold_left init_step data (1, 0) in
  mkRollingHash (a mod MOD_ADLER) (b mod MOD_ADLER)
    (u32 (Z.of_nat (length data))).

(** [RollingHash::rotate], every [u32] operation wrapping. *)
Definition RollingHash_rotate (self : RollingHash) (old_byte new_byte : byte)
  : RollingHash :=
  let old := bval old_byte in
  let new := bval new_byte in
  let a := u32 (u32 (u32 (rh_a self + MOD_ADLER) - old) + new) mod MOD_ADLER in
  let b := u32 (u32 (u32 (u32 (rh_b self + MOD_ADLER) - 1) + a)
                - u32 (old * rh_window_size self) mod MOD_ADLER) mod MOD_ADLER in
  mkRollingHash a b (rh_window_size self).

(** [RollingHash::digest]: [(self.b << 16) | self.a] on [u32]. *)
Definition digest (self : RollingHash) : Z :=
  Z.land (Z.lor (Z.shiftl (rh_b self) 16) (rh_a self)) (2 ^ 32 - 1).

(* ------------------------------------------------------------------ *)
(** ** patch_format.rs *)

Inductive DiffChunk :=
| Copy (offset length : N)
| Insert (data : list byte).

(** Slicing [data[start..end_]] (callers only use in-range bounds). *)
Definition slice (data : list byte) (start end_ : nat) : list byte :=
  firstn (end_ - start) (skipn start data).

Definition bytes_eqb (x y : list byte) : bool :=
  if list_eq_dec Byte.byte_eq_dec x y then true else false.

(* ------------------------------------------------------------------ *)
(** ** binary_patch.rs *)

(** One iteration of the loop of [apply_diff]; [None] is the panic of an
    out-of-range slice [old[start..end]]. The capacity estimate of the
    source only sizes the allocation and is not modelled. *)
Definition apply_chunk (old : list byte) (acc : option (list byte))
  (chunk : DiffChunk) : option (list byte) :=
  match acc with
  | None => None
  | Some result =>
      match chunk with
      | Copy offset len =>
          let start := N.to_nat offset in
          let end_ := (start + N.to_nat len)%nat in
          if (end_ <=? length old)%nat
          then Some (result ++ slice old start end_)
          else None
      | Insert data => Some (result ++ data)
      end
  end.

Definition apply_diff (old : list byte) (chunks : list DiffChunk)
  : option (list byte) :=
  fold_left (apply_chunk old) chunks (Some []).

(* ------------------------------------------------------------------ *)
(** ** binary_diff.rs *)

Definition BLOCK_SIZE : nat := 4096.

Record BlockSignature := mkBlockSignature {
  rolling_hash : Z;
  strong_hash : list byte;
  sig_offset : N
}.

(** The [HashMap<u32, Vec<usize>>] of [build_hash_table], as an
    association list from digests to candidate indices. *)
Definition HashTable := list (Z * list nat).

(** [table.entry(k).or_default().push(v)] *)
Fixpoint table_push (t : HashTable) (k : Z) (v : nat) : HashTable :=
  match t with
  | [] => [(k, [v])]
  | (k', vs) :: t' =>
      if Z.eqb k k' then (k', vs ++ [v]) :: t' else (k', vs) :: table_push t' k v
  end.

(** [hash_table.get(&k)] *)
Fixpoint table_get (t : HashTable) (k : Z) : option (list nat) :=
  match t with
  | [] => None
  | (k', vs) :: t' => if Z.eqb k k' then Some vs else table_get t' k
  end.

Section Differ.

Variable blake3 : list byte -> list byte.

Definition build_signatures (data : list byte) : list BlockSignature :=
  let num_blocks := ((length data + BLOCK_SIZE - 1) / BLOCK_SIZE)%nat in
  map (fun i =>
         let start := (i * BLOCK_SIZE)%nat in
         let end_ := Nat.min (start + BLOCK_SIZE) (length data) in
         let block := slice data start end_ in
         mkBlockSignature (digest (RollingHash_init block)) (blake3 block)
           (N.of_nat start))
      (seq 0 num_blocks).

Definition build_hash_table (signatures : list BlockSignature) : HashTable :=
  fold_left (fun t '(idx, sig) => table_push t (rolling_hash sig) idx)
    (combine (seq 0 (length signatures)) signatures) [].

(** The [for &sig_idx in candidates] loop of [find_match]. Candidate
    indices come from [build_hash_table] and are in range; the
    (unreachable) out-of-range case is skipped. *)
Fixpoint find_candidate (old : list byte) (signatures : list BlockSignature)
  (new_strong : list byte) (candidates : list nat) : option (N * N) :=
  match candidates with
  | [] => None
  | sig_idx :: rest =>
      match nth_error signatures sig_idx with
      | Some sig =>
          if bytes_eqb (strong_hash sig) new_strong then
            let block_end :=
              Nat.min (N.to_nat (sig_offset sig) + BLOCK_SIZE) (length old) in
            let block_len := (block_end - N.to_nat (sig_offset sig))%nat in
            Some (sig_offset sig, N.of_nat block_len)
          else find_candidate old signatures new_strong rest
      | None => find_candidate old signatures new_strong rest
      end
  end.

Definition find_match (rolling_digest : Z) (new_block old : list byte)
  (hash_table : HashTable) (signatures : list BlockSignature)
  : option (N * N) :=
  match table_get hash_table rolling_digest with
  | None => None
  | Some candidates =>
      find_candidate old signatures (blake3 new_block) candidates
  end.

(** The [loop] of [match_blocks], on the state
    [(pos, rolling, insert_buf, chunks)]. [fuel] bounds the iterations;
    [length new + 1] suffices since [pos] grows in every iteration. *)
Fixpoint match_loop (old new : list byte) (hash_table : HashTable)
  (signatures : list BlockSignature) (fuel pos : nat) (rolling : RollingHash)
  (insert_buf : list byte) (chunks : list DiffChunk)
  : nat * list byte * list DiffChunk :=
  match fuel with
  | O => (pos, insert_buf, chunks)
  | S fuel' =>
      let window_end := (pos + BLOCK_SIZE)%nat in
      if (length new <? window_end)%nat then (pos, insert_buf, chunks) else
      let d := digest rolling in
      match find_match d (slice new pos window_end) old hash_table signatures with
      | Some (m_off, m_len) =>
          let chunks1 :=
            match insert_buf with
            | [] => chunks
            | _ => chunks ++ [Insert insert_buf]
            end in
          let chunks2 := chunks1 ++ [Copy m_off m_len] in
          let pos' := (pos + N.to_nat m_len)%nat in
          let rolling' :=
            if (pos' + BLOCK_SIZE <=? length new)%nat
            then RollingHash_init (slice new pos' (pos' + BLOCK_SIZE))
            else rolling in
          match_loop old new hash_table signatures fuel' pos' rolling' [] chunks2
      | None =>
          let insert_buf' := insert_buf ++ [nth pos new Byte.x00] in
          let pos' := S pos in
          let rolling' :=
            if (pos' + BLOCK_SIZE <=? length new)%nat
            then RollingHash_rotate rolling (nth (pos' - 1) new Byte.x00)
                   (nth (pos' + BLOCK_SIZE - 1) new Byte.x00)
            else rolling in
          match_loop old new hash_table signatures fuel' pos' rolling'
            insert_buf' chunks
      end
  end.

Definition match_blocks (old new : list byte) (hash_table : HashTable)
  (signatures : list BlockSignature) : list DiffChunk :=
  if (length new <? BLOCK_SIZE)%nat then [Insert new] else
  let rolling := RollingHash_init (slice new 0 BLOCK_SIZE) in
  let '(pos, insert_buf, chunks) :=
    match_loop old new hash_table signatures (S (length new)) 0 rolling [] [] in
  let insert_buf' :=
    if (pos <? length new)%nat then insert_buf ++ skipn pos new else insert_buf in
  match insert_buf' with
  | [] => chunks
  | _ => chunks ++ [Insert insert_buf']
  end.

Definition compute_diff (old new : list byte) : list DiffChunk :=
  match old with
  | [] => match new with [] => [] | _ => [Insert new] end
  | _ =>
      let signatures := build_signatures old in
      let hash_table := build_hash_table signatures in
      match_blocks old new hash_table signatures
  end.

End Differ.

Definition is_copy (c : DiffChunk) : bool :=
  match c with Copy _ _ => true | Insert _ => false end.

Definition count_copies (chunks : list DiffChunk) : nat :=
  length (filter is_copy chunks).

(* ------------------------------------------------------------------ *)
(** ** Strings and paths *)

(** [Ord for String]: byte-wise lexicographic order of the UTF-8
    encoding; an [ascii] is one byte. *)
Fixpoint str_leb (s1 s2 : string) : bool :=
  match s1, s2 with
  | EmptyString, _ => true
  | String _ _, EmptyString => false
  | String c1 r1, String c2 r2 =>
      let n1 := N_of_ascii c1 in
      let n2 := N_of_ascii c2 in
      (n1 <? n2)%N || ((n1 =? n2)%N && str_leb r1 r2)
  end.

(** [slice::sort] on [String]s: the sorted permutation (the sort is
    stable, and equal strings are identical, so any sorting algorithm
    gives this list). Insertion sort. *)
Fixpoint insert_sorted (s : string) (l : list string) : list string :=
  match l with
  | [] => [s]
  | x :: l' => if str_leb s x then s :: l else x :: insert_sorted s l'
  end.

Fixpoint sort_strings (l : list string) : list string :=
  match l with
  | [] => []
  | x :: l' => insert_sorted x (sort_strings l')
  end.

(** util.rs: [sort_dirs_parent_first] *)
Definition sort_dirs_parent_first (dirs : list string) : list string :=
  sort_strings dirs.

(** util.rs: [sort_dirs_deepest_first]: [dirs.sort(); dirs.reverse();] *)
Definition sort_dirs_deepest_first (dirs : list string) : list string :=
  rev (sort_strings dirs).

(** [s.split(c)] *)
Fixpoint split_on (c : ascii) (s : string) : list string :=
  match s with
  | EmptyString => [EmptyString]
  | String x r =>
      let parts := split_on c r in
      if Ascii.eqb x c then EmptyString :: parts
      else match parts with
           | p :: ps => String x p :: ps
           | [] => [String x EmptyString]
           end
  end.

Definition str_mem (s : string) (set : list string) : bool :=
  existsb (String.eqb s) set.

(* ------------------------------------------------------------------ *)
(** ** patch_format.rs (operations) *)

Definition MAGIC : list byte :=
  [Byte.x50; Byte.x41; Byte.x54; Byte.x43; Byte.x48; Byte.x56; Byte.x30; Byte.x31].

Definition FORMAT_VERSION : Z := 1.

Inductive PatchOp :=
| CreateDir (path : string)
| AddFile (path : string) (data : list byte) (blake3_hash : list byte)
| ModifyFile (path : string) (diff_chunks : list DiffChunk)
    (new_blake3_hash : list byte)
| DeleteFile (path : string)
| DeleteDir (path : string).

Record PatchManifest := mkPatchManifest {
  version : Z;
  operations : list PatchOp
}.

Record ApplySummary := mkApplySummary {
  dirs_created : nat;
  files_added : nat;
  files_modified : nat;
  files_deleted : nat;
  dirs_deleted : nat
}.

(* ------------------------------------------------------------------ *)
(** ** util.rs: directory entries *)

Inductive EntryKind := File | Dir.

Definition EntryKind_eqb (k1 k2 : EntryKind) : bool :=
  match k1, k2 with File, File | Dir, Dir => true | _, _ => false end.

(** A [DirEntry] as produced by [walk_directory], with the bytes of the
    file on disk (read later by hashing and mmap) as [contents]. *)
Record DirEntry := mkDirEntry {
  relative_path : string;
  kind : EntryKind;
  full_path : string;
  contents : list byte
}.

(** [size]: [meta.len()] for files, [0] for directories. *)
Definition entry_size (e : DirEntry) : N :=
  match kind e with
  | File => N.of_nat (length (contents e))
  | Dir => 0%N
  end.

(** [path_set]: a [BTreeSet<String>], iterated in ascending order. *)
Fixpoint dedup_strings (l : list string) : list string :=
  match l with
  | [] => []
  | x :: l' => if str_mem x l' then dedup_strings l' else x :: dedup_strings l'
  end.

Definition path_set (entries : list DirEntry) : list string :=
  sort_strings (dedup_strings (map relative_path entries)).

(** [BTreeSet::difference] / [BTreeSet::intersection], in the order of
    the first set. *)
Definition set_difference (a b : list string) : list string :=
  filter (fun p => negb (str_mem p b)) a.

Definition set_intersection (a b : list string) : list string :=
  filter (fun p => str_mem p b) a.

(** [old_map[path]] then [old_entries[idx]]: the [HashMap] built by
    [collect] keeps the last index of a path. *)
Definition entry_lookup (entries : list DirEntry) (p : string) : option DirEntry :=
  find (fun e => String.eqb (relative_path e) p) (rev entries).

(* ------------------------------------------------------------------ *)
(** ** create.rs *)

Definition ascii_to_lower (c : ascii) : ascii :=
  let n := nat_of_ascii c in
  if (65 <=? n)%nat && (n <=? 90)%nat then ascii_of_nat (n + 32) else c.

(** [str::to_ascii_lowercase] *)
Fixpoint to_ascii_lowercase (s : string) : string :=
  match s with
  | EmptyString => EmptyString
  | String c r => String (ascii_to_lower c) (to_ascii_lowercase r)
  end.

(** [Path::file_name]: the last component, [Path::components] skipping
    the empty and [.] ones; [None] for [..] or when nothing is left. *)
Definition file_name (path : string) : option string :=
  match rev (filter (fun c => negb (String.eqb c "" || String.eqb c "."))
               (split_on "/" path)) with
  | [] => None
  | name :: _ => if String.eqb name ".." then None else Some name
  end.

(** [Path::extension]: the text after the last [.] of the file name,
    unless that dot is the first character of the name. *)
Definition extension (path : string) : option string :=
  match file_name path with
  | None => None
  | Some name =>
      match rev (split_on "." name) with
      | [] | [_] => None
      | after :: before_rev =>
          let before := String.concat "." (rev before_rev) in
          if String.eqb before "" then None else Some after
      end
  end.

Definition incompressible_extensions : list string :=
  [ (* Images *)
    "jpg"; "jpeg"; "png"; "gif"; "bmp"; "webp"; "ico"; "tiff"; "tif"; "avif";
    (* Video *)
    "mp4"; "mkv"; "avi"; "mov"; "wmv"; "flv"; "webm"; "m4v";
    (* Audio *)
    "mp3"; "aac"; "ogg"; "flac"; "opus"; "m4a"; "wma";
    (* Archives *)
    "zip"; "gz"; "bz2"; "xz"; "zst"; "7z"; "rar";
    (* Office (zip-based containers) *)
    "docx"; "xlsx"; "pptx"; "odt"; "ods"; "odp";
    (* Fonts *)
    "woff"; "woff2";
    (* Other *)
    "pdf" ]%string.

Definition is_incompressible (path : string) : bool :=
  match extension path with
  | Some e => str_mem (to_ascii_lowercase e) incompressible_extensions
  | None => false
  end.

Record DiffInput := mkDiffInput {
  rel_path : string;
  old_path : string;
  new_path : string;
  old_data : list byte;   (* bytes of the file at [old_path] *)
  new_data : list byte;   (* bytes of the file at [new_path] *)
  sizes_differ : bool
}.

Section Builder.

Variable blake3 : list byte -> list byte.

(** The block differ used by [create_patch]; it is
    [binary_diff::compute_diff] in [create_patch] below. *)
Variable differ : list byte -> list byte -> list DiffChunk.

(** The per-file closure of Stage 3+4 ([hash_file_streaming] of a file
    is the BLAKE3 hash of its bytes). *)
Definition diff_one (input : DiffInput)
  : option (string * list DiffChunk * list byte) :=
  let new_hash_blake3 := blake3 (new_data input) in
  if negb (sizes_differ input)
     && bytes_eqb (blake3 (old_data input)) new_hash_blake3
  then None
  else
    let chunks :=
      if is_incompressible (new_path input)
      then [Insert (new_data input)]
      else differ (old_data input) (new_data input) in
    Some (rel_path input, chunks, new_hash_blake3).

(** Stage 2 classification. Paths come from the path sets, so the map
    lookups always succeed; the [None] branches are unreachable. *)
Definition classify_new (old_entries new_entries : list DirEntry) (k : EntryKind)
  : list DirEntry :=
  flat_map (fun p => match entry_lookup new_entries p with
                     | Some e => if EntryKind_eqb (kind e) k then [e] else []
                     | None => []
                     end)
    (set_difference (path_set new_entries) (path_set old_entries)).

Definition classify_old (old_entries new_entries : list DirEntry) (k : EntryKind)
  : list string :=
  flat_map (fun p => match entry_lookup old_entries p with
                     | Some e => if EntryKind_eqb (kind e) k then [p] else []
                     | None => []
                     end)
    (set_difference (path_set old_entries) (path_set new_entries)).

Definition files_maybe_modified (old_entries new_entries : list DirEntry)
  : list (DirEntry * DirEntry) :=
  flat_map (fun p => match entry_lookup old_entries p, entry_lookup new_entries p with
                     | Some eo, Some en =>
                         if EntryKind_eqb (kind eo) File && EntryKind_eqb (kind en) File
                         then [(eo, en)] else []
                     | _, _ => []
                     end)
    (set_intersection (path_set old_entries) (path_set new_entries)).

Definition mk_diff_input (pair : DirEntry * DirEntry) : DiffInput :=
  let '(eo, en) := pair in
  mkDiffInput (relative_path eo) (full_path eo) (full_path en)
    (contents eo) (contents en) (negb (N.eqb (entry_size eo) (entry_size en))).

(** [create_patch] up to the manifest and the summary; serialization,
    compression and the write of the output file are not modelled. *)
Definition create_patch_with (old_entries new_entries : list DirEntry)
  : PatchManifest * ApplySummary :=
  let dirs_to_create := map relative_path (classify_new old_entries new_entries Dir) in
  let files_to_add := classify_new old_entries new_entries File in
  let files_to_delete := classify_old old_entries new_entries File in
  let dirs_to_delete := classify_old old_entries new_entries Dir in
  let diff_inputs := map mk_diff_input (files_maybe_modified old_entries new_entries) in
  let add_results :=
    map (fun e => (relative_path e, contents e, blake3 (contents e))) files_to_add in
  let diff_results :=
    flat_map (fun i => match diff_one i with Some r => [r] | None => [] end)
      diff_inputs in
  let dirs_to_create := sort_dirs_parent_first dirs_to_create in
  let dirs_to_delete := sort_dirs_deepest_first dirs_to_delete in
  let operations :=
    map CreateDir dirs_to_create
    ++ map (fun '(p, d, h) => AddFile p d h) add_results
    ++ map (fun '(p, c, h) => ModifyFile p c h) diff_results
    ++ map DeleteFile files_to_delete
    ++ map DeleteDir dirs_to_delete in
  (mkPatchManifest FORMAT_VERSION operations,
   mkApplySummary (length dirs_to_create) (length add_results)
     (length diff_results) (length files_to_delete) (length dirs_to_delete)).

End Builder.

Definition create_patch (blake3 : list byte -> list byte)
  (old_entries new_entries : list DirEntry) : PatchManifest * ApplySummary :=
  create_patch_with blake3 (compute_diff blake3) old_entries new_entries.

(* ------------------------------------------------------------------ *)
(** ** Filesystem model for the applier

    A filesystem maps absolute paths (lists of components) to nodes; the
    root [[]] is always a directory. *)

Inductive Node := NDir | NFile (data : list byte).

Definition FsPath := list string.
Definition Fs := FsPath -> option Node.

Definition fs_path_eqb (p q : FsPath) : bool :=
  if list_eq_dec string_dec p q then true else false.

Fixpoint is_prefix (p q : FsPath) : bool :=
  match p, q with
  | [], _ => true
  | x :: p', y :: q' => String.eqb x y && is_prefix p' q'
  | _ :: _, [] => false
  end.

Definition fs_set (fs : Fs) (p : FsPath) (n : Node) : Fs :=
  fun q => if fs_path_eqb q p then Some n else fs q.

Definition fs_remove (fs : Fs) (p : FsPath) : Fs :=
  fun q => if fs_path_eqb q p then None else fs q.

Definition fs_remove_tree (fs : Fs) (p : FsPath) : Fs :=
  fun q => if is_prefix p q then None else fs q.

(** [target.join(path)], resolved lexically: an absolute [path]
    replaces the target; empty and [.] components are skipped; [..]
    steps to the parent ([..] of the root is the root).  The OS resolves
    [..] physically; the two agree on the canonical target as long as no
    [..] follows a normal component (see [no_inner_dotdot]). *)
Definition resolve_component (acc : FsPath) (c : string) : FsPath :=
  if String.eqb c "" || String.eqb c "." then acc
  else if String.eqb c ".." then removelast acc
  else acc ++ [c].

Definition join (target : FsPath) (path : string) : FsPath :=
  let base := match path with
              | String "/" _ => []
              | _ => target
              end in
  fold_left resolve_component (split_on "/" path) base.

(** No [..] component of [path] comes after a normal one: every [..]
    climbs from the canonical target (or the root) or one of its
    ancestors, all existing directories, so the OS resolves the path as
    [join] does and [create_dir_all] creates no other directory. *)
Fixpoint no_inner_dotdot_from (seen_normal : bool) (comps : list string) : bool :=
  match comps with
  | [] => true
  | c :: rest =>
      if String.eqb c "" || String.eqb c "." then no_inner_dotdot_from seen_normal rest
      else if String.eqb c ".." then negb seen_normal && no_inner_dotdot_from seen_normal rest
      else no_inner_dotdot_from true rest
  end.

Definition no_inner_dotdot (path : string) : bool :=
  no_inner_dotdot_from false (split_on "/" path).

Inductive Error :=
| InvalidMagic
| DeserializeFailed
| UnsupportedVersion (v : Z)
| CanonicalizeFailed
| IoError (p : FsPath)
| HashMismatchAdded (path : string)
| HashMismatchPatched (path : string)
| CopyOutOfRange (path : string).

(** [Result<()>] of a filesystem action, with the filesystem after it. *)
Inductive Outcome := Ok | Err (e : Error).

(** [std::fs::create_dir_all]: directories created before a failure
    stay. *)
Fixpoint mkdirs (fs : Fs) (prefix : FsPath) (rest : list string) : Fs * Outcome :=
  match rest with
  | [] => (fs, Ok)
  | c :: rest' =>
      let q := prefix ++ [c] in
      match fs q with
      | Some (NFile _) => (fs, Err (IoError q))
      | Some NDir => mkdirs fs q rest'
      | None => mkdirs (fs_set fs q NDir) q rest'
      end
  end.

Definition create_dir_all (fs : Fs) (p : FsPath) : Fs * Outcome := mkdirs fs [] p.

(** [Path::parent] of an absolute path. *)
Definition fs_parent (p : FsPath) : option FsPath :=
  match p with [] => None | _ => Some (removelast p) end.

Definition is_dir (fs : Fs) (p : FsPath) : bool :=
  match p with
  | [] => true
  | _ => match fs p with Some NDir => true | _ => false end
  end.

(** [std::fs::write]: the parent must be a directory and the path must
    not be one. *)
Definition fs_write (fs : Fs) (p : FsPath) (data : list byte) : Fs * Outcome :=
  match p with
  | [] => (fs, Err (IoError p))
  | _ =>
      if negb (is_dir fs (removelast p)) then (fs, Err (IoError p)) else
      match fs p with
      | Some NDir => (fs, Err (IoError p))
      | _ => (fs_set fs p (NFile data), Ok)
      end
  end.

(** [util::mmap_file]: the bytes of a regular file. *)
Definition fs_read (fs : Fs) (p : FsPath) : option (list byte) :=
  match fs p with Some (NFile d) => Some d | _ => None end.

(** [remove_dir_all] with [NotFound] recovered, as in the delete task. *)
Definition remove_dir_all_lenient (fs : Fs) (p : FsPath) : Fs * Outcome :=
  match fs p with
  | None => (fs, Ok)
  | Some (NFile _) => (fs, Err (IoError p))
  | Some NDir => (fs_remove_tree fs p, Ok)
  end.

(** [remove_file] with [NotFound] recovered, as in the delete task. *)
Definition remove_file_lenient (fs : Fs) (p : FsPath) : Fs * Outcome :=
  match fs p with
  | None => (fs, Ok)
  | Some NDir => (fs, Err (IoError p))
  | Some (NFile _) => (fs_remove fs p, Ok)
  end.

(** [try_for_each] of a phase, one schedule of the parallel iterator:
    operations in order, stopping at the first error. *)
Fixpoint try_for_each {A : Type} (step : Fs -> A -> Fs * Outcome) (fs : Fs)
  (items : list A) : Fs * Outcome :=
  match items with
  | [] => (fs, Ok)
  | x :: rest =>
      let '(fs', o) := step fs x in
      match o with
      | Ok => try_for_each step fs' rest
      | Err e => (fs', Err e)
      end
  end.

(** Path handling on the relative paths of the delete planning:
    [Path::parent] of a relative path ([Some ""] for a single component). *)
Definition parent_str (s : string) : option string :=
  match s with
  | EmptyString => None
  | _ => Some (String.concat "/" (removelast (split_on "/" s)))
  end.

(** The proper ancestors of a relative path, nearest first, as visited by
    the [while let Some(parent) = cur.parent()] loop (up to the empty
    parent, where it breaks). *)
Definition ancestors (s : string) : list string :=
  let comps := split_on "/" s in
  map (fun k => String.concat "/" (firstn k comps))
    (rev (seq 1 (pred (length comps)))).

Section Applier.

Variable blake3 : list byte -> list byte.

(** zstd decompression + bincode deserialization of the payload. *)
Variable decode : list byte -> option PatchManifest.

Definition create_dir_op (target : FsPath) (fs : Fs) (op : PatchOp) : Fs * Outcome :=
  match op with
  | CreateDir path => create_dir_all fs (join target path)
  | _ => (fs, Ok)
  end.

(** The AddFile closure: mkdir the parent, write, then hash the written
    bytes. *)
Definition add_file_op (target : FsPath) (fs : Fs) (op : PatchOp) : Fs * Outcome :=
  match op with
  | AddFile path data blake3_hash =>
      let full := join target path in
      let '(fs1, o1) :=
        match fs_parent full with
        | Some parent => create_dir_all fs parent
        | None => (fs, Ok)
        end in
      match o1 with
      | Err e => (fs1, Err e)
      | Ok =>
          let '(fs2, o2) := fs_write fs1 full data in
          match o2 with
          | Err e => (fs2, Err e)
          | Ok =>
              let actual_hash := blake3 data in
              if bytes_eqb actual_hash blake3_hash then (fs2, Ok)
              else (fs2, Err (HashMismatchAdded path))
          end
      end
  | _ => (fs, Ok)
  end.

(** The ModifyFile closure: rebuild the file in a fresh buffer, hash it,
    and write only after the hash matched. The panic of an out-of-range
    [Copy] is surfaced as [CopyOutOfRange]. *)
Definition modify_file_op (target : FsPath) (fs : Fs) (op : PatchOp) : Fs * Outcome :=
  match op with
  | ModifyFile path diff_chunks new_blake3_hash =>
      let full := join target path in
      match fs_read fs full with
      | None => (fs, Err (IoError full))
      | Some old_mmap =>
          match apply_diff old_mmap diff_chunks with
          | None => (fs, Err (CopyOutOfRange path))
          | Some new_data =>
              let actual_hash := blake3 new_data in
              if negb (bytes_eqb actual_hash new_blake3_hash)
              then (fs, Err (HashMismatchPatched path))
              else fs_write fs full new_data
          end
      end
  | _ => (fs, Ok)
  end.

Definition is_create_dir (op : PatchOp) : bool :=
  match op with CreateDir _ => true | _ => false end.
Definition is_add_file (op : PatchOp) : bool :=
  match op with AddFile _ _ _ => true | _ => false end.
Definition is_modify_file (op : PatchOp) : bool :=
  match op with ModifyFile _ _ _ => true | _ => false end.
Definition is_delete_file (op : PatchOp) : bool :=
  match op with DeleteFile _ => true | _ => false end.
Definition is_delete_dir (op : PatchOp) : bool :=
  match op with DeleteDir _ => true | _ => false end.

Definition op_path (op : PatchOp) : string :=
  match op with
  | CreateDir p | AddFile p _ _ | ModifyFile p _ _ | DeleteFile p | DeleteDir p => p
  end.

(** The delete task: bulk-remove the roots of deleted subtrees, then the
    files not covered by any of them. *)
Definition delete_phase (target : FsPath) (fs : Fs) (delete_files delete_dirs : list PatchOp)
  : Fs * Outcome :=
  let deleted_dir_set := dedup_strings (map op_path delete_dirs) in
  let root_deleted_dirs :=
    filter (fun dir => match parent_str dir with
                       | None => true
                       | Some parent => String.eqb parent "" || negb (str_mem parent deleted_dir_set)
                       end) deleted_dir_set in
  let orphan_delete_files :=
    filter (fun op => negb (existsb (fun a => str_mem a deleted_dir_set)
                                    (ancestors (op_path op))))
      delete_files in
  let '(fs1, o1) :=
    try_for_each (fun fs dir => remove_dir_all_lenient fs (join target dir)) fs
      root_deleted_dirs in
  match o1 with
  | Err e => (fs1, Err e)
  | Ok => try_for_each (fun fs op => remove_file_lenient fs (join target (op_path op)))
            fs1 orphan_delete_files
  end.

(** [apply_patch target_dir patch]: [raw] are the bytes of the patch
    file. The add, modify and delete tasks run to completion on disjoint
    paths; they are sequenced here in that order, and the first error of
    [r_add], [r_modify], [r_delete] is returned. *)
Definition apply_patch (fs : Fs) (target : FsPath) (raw : list byte)
  : Fs * (ApplySummary + Error) :=
  if (length raw <? length MAGIC)%nat || negb (bytes_eqb (firstn (length MAGIC) raw) MAGIC)
  then (fs, inr InvalidMagic) else
  match decode (skipn (length MAGIC) raw) with
  | None => (fs, inr DeserializeFailed)
  | Some manifest =>
      if negb (Z.eqb (version manifest) FORMAT_VERSION)
      then (fs, inr (UnsupportedVersion (version manifest))) else
      let ops := operations manifest in
      let create_dirs := filter is_create_dir ops in
      let add_files := filter is_add_file ops in
      let modify_files := filter is_modify_file ops in
      let delete_files := filter is_delete_file ops in
      let delete_dirs := filter is_delete_dir ops in
      if negb (is_dir fs target) then (fs, inr CanonicalizeFailed) else
      let '(fs1, o1) := try_for_each (create_dir_op target) fs create_dirs in
      match o1 with
      | Err e => (fs1, inr e)
      | Ok =>
          let '(fs2, r_add) := try_for_each (add_file_op target) fs1 add_files in
          let '(fs3, r_modify) := try_for_each (modify_file_op target) fs2 modify_files in
          let '(fs4, r_delete) := delete_phase target fs3 delete_files delete_dirs in
          match r_add, r_modify, r_delete with
          | Err e, _, _ | Ok, Err e, _ | Ok, Ok, Err e => (fs4, inr e)
          | Ok, Ok, Ok =>
              (fs4, inl (mkApplySummary (length create_dirs) (length add_files)
                           (length modify_files) (length delete_files)
                           (length delete_dirs)))
          end
      end
  end.

End Applier.

(** The phase of an operation in the manifest order. *)
Definition phase_rank (op : PatchOp) : nat :=
  match op with
  | CreateDir _ => 0 | AddFile _ _ _ => 1 | ModifyFile _ _ _ => 2
  | DeleteFile _ => 3 | DeleteDir _ => 4
  end.

Definition create_dir_paths (ops : list PatchOp) : list string :=
  flat_map (fun op => match op with CreateDir p => [p] | _ => [] end) ops.

Definition delete_dir_paths (ops : list PatchOp) : list string :=
  flat_map (fun op => match op with DeleteDir p => [p] | _ => [] end) ops.

(** The order of [Ord for String] as a relation. *)
Definition str_le (a b : string) : Prop := str_leb a b = true.

(** A target [/srv/app] inside [/srv], for the path-validation property. *)
Definition srv_fs : Fs :=
  fun p => if fs_path_eqb p ["srv"%string] || fs_path_eqb p ["srv"; "app"]%string then Some NDir else None.

Definition srv_target : FsPath := ["srv"; "app"]%string.

(** binary_patch.rs: the [estimated_size] of [apply_diff], the capacity
    reserved for the result ([u64] sum; it does not wrap for a chunk
    list that applies, whose total is the length of a buffer). *)
Definition chunk_len (c : DiffChunk) : N :=
  match c with
  | Copy _ len => len
  | Insert data => N.of_nat (length data)
  end.

Definition estimated_size (chunks : list DiffChunk) : N :=
  fold_left (fun acc c => (acc + chunk_len c)%N) chunks 0%N.

(** No two [Insert] chunks in a row. *)
Fixpoint no_adjacent_inserts (cs : list DiffChunk) : bool :=
  match cs with
  | [] => true
  | Insert _ :: ((Insert _ :: _) as rest) => false
  | _ :: rest => no_adjacent_inserts rest
  end.

(** The shape of a chunk emitted by [match_blocks]: a [Copy] of a whole
    block of [old] (the last one may be short), a non-empty [Insert]. *)
Definition chunk_ok (old : list byte) (c : DiffChunk) : Prop :=
  match c with
  | Copy off len =>
      (exists k, N.to_nat off = (k * BLOCK_SIZE)%nat) /\ (N.to_nat off < length old)%nat
      /\ (N.to_nat off + N.to_nat len = Nat.min (N.to_nat off + BLOCK_SIZE) (length old))%nat
  | Insert data => data <> []
  end.

Definition ends_with_copy (cs : list DiffChunk) : Prop :=
  exists l off len, cs = l ++ [Copy off len].

(** The invariant of the chunk list of [match_loop]. *)
Definition loop_chunks_inv (old : list byte) (cs : list DiffChunk) : Prop :=
  Forall (chunk_ok old) cs /\ no_adjacent_inserts cs = true /\ (cs = [] \/ ends_with_copy cs).

(** A sample tree: a directory [a] holding one file [a/f]. *)
Definition sample_new_tree : list DirEntry :=
  [mkDirEntry "a" Dir "/new/a" []; mkDirEntry "a/f" File "/new/a/f" [Byte.x01]]%string.

(** A filesystem holding only its root directory. *)
Definition sample_root_fs : Fs := fun p => match p with [] => Some NDir | _ => None end.

(** A decoder that yields a manifest creating the directory [a]. *)
Definition sample_decode (_ : list byte) : option PatchManifest :=
  Some (mkPatchManifest FORMAT_VERSION [CreateDir "a"%string]).

(** Two versions of a tree holding one file [f]. *)
Definition sample_old_files : list DirEntry :=
  [mkDirEntry "f" File "/old/f" [Byte.x01]]%string.
Definition sample_new_files : list DirEntry :=
  [mkDirEntry "f" File "/new/f" [Byte.x02; Byte.x03]]%string.

(** Two block signatures sharing one rolling digest. *)
Definition sample_sigs : list BlockSignature :=
  [mkBlockSignature 5 [Byte.x01] 0; mkBlockSignature 5 [Byte.x02] 4096;
   mkBlockSignature 5 [Byte.x02] 8192].


(* ------------------------------------------------------------------ *)
(** ** Auxiliary definitions for the proofs *)

(** Membership of an index in the candidate list of a digest. *)
Definition table_has (t : HashTable) (d : Z) (i : nat) : Prop :=
  exists cands, table_get t d = Some cands /\ In i cands.

(** The step of the [fold_left] of [build_hash_table]. *)
Definition table_step (t : HashTable) (e : nat * BlockSignature) : HashTable :=
  let '(idx, sig) := e in table_push t (rolling_hash sig) idx.

(** [Σ bᵢ] and [Σ (n − i)·bᵢ] over a block of length [n]. *)
Fixpoint bsum (l : list byte) : Z :=
  match l with [] => 0 | x :: r => bval x + bsum r end.

Fixpoint wsum (l : list byte) : Z :=
  match l with [] => 0 | x :: r => Z.of_nat (length l) * bval x + wsum r end.

(** The accumulation loop of [init] on unbounded integers. *)
Definition init_step_unb (ab : Z * Z) (x : byte) : Z * Z :=
  let '(a, b) := ab in (a + bval x, b + (a + bval x)).

Example rotate_test_example :
  let data := [Byte.x41; Byte.x42; Byte.x43; Byte.x44; Byte.x45] in
  digest (RollingHash_rotate (RollingHash_init (firstn 4 data)) Byte.x41 Byte.x45)
  = digest (RollingHash_init (skipn 1 data)).
Proof. vm_compute. reflexivity. Qed.

Example diff_roundtrip_example :
  let old := repeat Byte.x00 (2 * BLOCK_SIZE) ++ [Byte.x07] in
  let new := [Byte.x01] ++ repeat Byte.x00 (2 * BLOCK_SIZE) ++ [Byte.x09] in
  apply_diff old (compute_diff (fun l => l) old new) = Some new
  /\ count_copies (compute_diff (fun l => l) old new) = 2%nat.
Proof. vm_compute. split; reflexivity. Qed.

(* ================================================================== *)
(** * Proofs *)

(** ** Lists and slices *)

Lemma length_slice (l : list byte) (s e : nat) :
  length (slice l s e) = Nat.min (e - s) (length l - s).
Proof. unfold slice. rewrite length_firstn, length_skipn. reflexivity. Qed.

Lemma firstn_app_slice (l : list byte) (s e : nat) :
  (s <= e)%nat -> firstn s l ++ slice l s e = firstn e l.
Proof.
  intros Hse. unfold slice.
  destruct (Nat.le_gt_cases s (length l)) as [Hs|Hs].
  - rewrite <- (firstn_skipn s l) at 3.
    rewrite firstn_app, firstn_firstn, length_firstn.
    replace (Nat.min e s) with s by lia.
    replace (Nat.min s (length l)) with s by lia.
    reflexivity.
  - rewrite (skipn_all2 (n:=s) l) by lia.
    rewrite (firstn_all2 (n:=s) l) by lia.
    rewrite (firstn_all2 (n:=e) l) by lia.
    destruct (e - s)%nat; rewrite app_nil_r; reflexivity.
Qed.

Lemma skipn_nth_cons (l : list byte) (p : nat) (d : byte) :
  (p < length l)%nat -> skipn p l = nth p l d :: skipn (S p) l.
Proof.
  revert p. induction l as [|x l IH]; intros p Hp; simpl in Hp; [lia|].
  destruct p as [|p]; [reflexivity|].
  simpl. apply IH. lia.
Qed.

Lemma firstn_snoc_nth (l : list byte) (p : nat) (d : byte) :
  (p < length l)%nat -> firstn p l ++ [nth p l d] = firstn (S p) l.
Proof.
  intros Hp. rewrite <- (firstn_app_slice l p (S p)) by lia.
  unfold slice. rewrite (skipn_nth_cons l p d Hp).
  replace (S p - p)%nat with 1%nat by lia. reflexivity.
Qed.

Lemma apply_diff_snoc (old : list byte) (cs : list DiffChunk) (c : DiffChunk) :
  apply_diff old (cs ++ [c]) = apply_chunk old (apply_diff old cs) c.
Proof. unfold apply_diff. rewrite fold_left_app. reflexivity. Qed.

Lemma count_copies_app (l1 l2 : list DiffChunk) :
  count_copies (l1 ++ l2) = (count_copies l1 + count_copies l2)%nat.
Proof. unfold count_copies. rewrite filter_app, length_app. reflexivity. Qed.

(** ** Block signatures *)

Lemma BLOCK_SIZE_pos : (0 < BLOCK_SIZE)%nat.
Proof. unfold BLOCK_SIZE. lia. Qed.

(** [i] is a block index of a buffer of [n] bytes. *)
Lemma lt_ceil_div (k n i : nat) :
  (0 < k)%nat -> (i < (n + k - 1) / k)%nat <-> (i * k < n)%nat.
Proof.
  intros Hk.
  pose proof (Nat.div_mod (n + k - 1) k ltac:(lia)) as Hd.
  pose proof (Nat.mod_upper_bound (n + k - 1) k ltac:(lia)) as Hm.
  remember ((n + k - 1) / k)%nat as q. remember ((n + k - 1) mod k)%nat as r.
  split; intros H.
  - assert (Hle : ((i + 1) * k <= q * k)%nat) by (apply Nat.mul_le_mono_r; lia).
    nia.
  - destruct (Nat.lt_ge_cases i q) as [|Hqi]; [assumption|].
    assert (Hle : (q * k <= i * k)%nat) by (apply Nat.mul_le_mono_r; lia).
    nia.
Qed.

Lemma build_signatures_nth (blake3 : list byte -> list byte) (old : list byte)
  (idx : nat) (sig : BlockSignature) :
  nth_error (build_signatures blake3 old) idx = Some sig ->
  let o := N.to_nat (sig_offset sig) in
  let block := slice old o (Nat.min (o + BLOCK_SIZE) (length old)) in
  o = (idx * BLOCK_SIZE)%nat /\ (o < length old)%nat
  /\ strong_hash sig = blake3 block
  /\ rolling_hash sig = digest (RollingHash_init block).
Proof.
  unfold build_signatures. rewrite nth_error_map, nth_error_seq.
  destruct (idx <? (length old + BLOCK_SIZE - 1) / BLOCK_SIZE)%nat eqn:E;
    intro H; inversion H; subst; clear H.
  apply Nat.ltb_lt, lt_ceil_div in E; [|exact BLOCK_SIZE_pos].
  cbn [sig_offset strong_hash rolling_hash]. rewrite Nat2N.id.
  repeat split; [lia].
Qed.

Section StrongHash.

Variable blake3 : list byte -> list byte.

(** BLAKE3 is treated as collision-free. *)
Hypothesis blake3_inj : forall x y, blake3 x = blake3 y -> x = y.

Lemma find_candidate_sound (old w : list byte) (cands : list nat) (off len : N) :
  length w = BLOCK_SIZE ->
  find_candidate old (build_signatures blake3 old) (blake3 w) cands = Some (off, len) ->
  N.to_nat len = BLOCK_SIZE
  /\ (N.to_nat off + BLOCK_SIZE <= length old)%nat
  /\ slice old (N.to_nat off) (N.to_nat off + BLOCK_SIZE) = w.
Proof.
  intros Hw. induction cands as [|idx cands IH]; simpl; [discriminate|].
  destruct (nth_error (build_signatures blake3 old) idx) as [sig|] eqn:Hn; [|exact IH].
  destruct (bytes_eqb (strong_hash sig) (blake3 w)) eqn:Hb; [|exact IH].
  intro H; inversion H; subst off len; clear H.
  unfold bytes_eqb in Hb.
  destruct (list_eq_dec Byte.byte_eq_dec (strong_hash sig) (blake3 w)) as [Heq|];
    [|discriminate].
  apply build_signatures_nth in Hn. simpl in Hn.
  destruct Hn as [_ [Hlt [Hstrong _]]].
  rewrite Hstrong in Heq. apply blake3_inj in Heq.
  set (o := N.to_nat (sig_offset sig)) in *.
  set (e := Nat.min (o + BLOCK_SIZE) (length old)) in *.
  assert (He : e = (o + BLOCK_SIZE)%nat).
  { pose proof (length_slice old o e) as Hl. rewrite Heq, Hw in Hl.
    unfold e in *. lia. }
  rewrite Nat2N.id. rewrite <- He. repeat split; [lia|lia|exact Heq].
Qed.

Lemma match_loop_roundtrip (old new : list byte) (table : HashTable) :
  forall fuel pos rolling buf chunks out,
  apply_diff old chunks = Some out ->
  out ++ buf = firstn pos new ->
  (pos <= length new)%nat ->
  (length new < pos + fuel)%nat ->
  let '(pos', buf', chunks') :=
    match_loop blake3 old new table (build_signatures blake3 old) fuel pos rolling
      buf chunks in
  (pos' <= length new)%nat /\ (length new < pos' + BLOCK_SIZE)%nat
  /\ exists out', apply_diff old chunks' = Some out' /\ out' ++ buf' = firstn pos' new.
Proof.
  induction fuel as [|fuel IH]; intros pos rolling buf chunks out Hap Hout Hle Hfuel;
    [lia|].
  simpl.
  destruct (length new <? pos + BLOCK_SIZE)%nat eqn:Hw.
  { apply Nat.ltb_lt in Hw. repeat split; try lia. exists out; auto. }
  apply Nat.ltb_ge in Hw.
  destruct (find_match blake3 (digest rolling) (slice new pos (pos + BLOCK_SIZE)) old
              table (build_signatures blake3 old)) as [[o L]|] eqn:Hm.
  - unfold find_match in Hm.
    destruct (table_get table (digest rolling)) as [cands|]; [|discriminate].
    apply find_candidate_sound in Hm.
    2:{ rewrite length_slice. lia. }
    destruct Hm as [HL [Ho Hslice]].
    apply IH with (out := (out ++ buf) ++ slice new pos (pos + BLOCK_SIZE)).
    + rewrite apply_diff_snoc.
      assert (H1 : apply_diff old (match buf with [] => chunks
                                   | _ :: _ => chunks ++ [Insert buf] end)
                   = Some (out ++ buf)).
      { destruct buf as [|b bs].
        - rewrite app_nil_r. exact Hap.
        - rewrite apply_diff_snoc, Hap. reflexivity. }
      rewrite H1. simpl. rewrite HL.
      apply Nat.leb_le in Ho. rewrite Ho. rewrite Hslice. reflexivity.
    + rewrite app_nil_r, Hout, HL. apply firstn_app_slice. lia.
    + rewrite HL. exact Hw.
    + rewrite HL. unfold BLOCK_SIZE in *. lia.
  - apply IH with (out := out).
    + exact Hap.
    + rewrite app_assoc, Hout. apply firstn_snoc_nth.
      unfold BLOCK_SIZE in Hw. lia.
    + unfold BLOCK_SIZE in Hw. lia.
    + lia.
Qed.

Lemma compute_diff_roundtrip_gen (old new : list byte) :
  apply_diff old (compute_diff blake3 old new) = Some new.
Proof.
  destruct old as [|b0 old'].
  { destruct new; reflexivity. }
  unfold compute_diff, match_blocks.
  set (old := b0 :: old').
  destruct (length new <? BLOCK_SIZE)%nat eqn:Hlt.
  { reflexivity. }
  pose proof (match_loop_roundtrip old new
                (build_hash_table (build_signatures blake3 old))
                (S (length new)) 0 (RollingHash_init (slice new 0 BLOCK_SIZE))
                [] [] [] eq_refl eq_refl ltac:(lia) ltac:(lia)) as H.
  destruct (match_loop blake3 old new _ _ _ _ _ _ _) as [[pos buf] chunks].
  destruct H as [Hle [_ [out [Hap Hout]]]].
  assert (Hfin : out ++ (if (pos <? length new)%nat then buf ++ skipn pos new else buf)
                 = new).
  { destruct (pos <? length new)%nat eqn:Hp.
    - rewrite app_assoc, Hout. apply firstn_skipn.
    - apply Nat.ltb_ge in Hp. rewrite Hout. apply firstn_all2. exact Hp. }
  destruct (if (pos <? length new)%nat then buf ++ skipn pos new else buf)
    as [|x xs] eqn:Hb.
  - rewrite app_nil_r in Hfin. rewrite Hap, Hfin. reflexivity.
  - rewrite apply_diff_snoc, Hap. simpl. rewrite Hfin. reflexivity.
Qed.

End StrongHash.

(** ** The digest table *)

Lemma table_get_push_same (t : HashTable) (k : Z) (v : nat) :
  table_get (table_push t k v) k
  = Some (match table_get t k with Some vs => vs ++ [v] | None => [v] end).
Proof.
  induction t as [|[k' vs] t IH]; simpl.
  - rewrite Z.eqb_refl. reflexivity.
  - destruct (Z.eqb k k') eqn:E; simpl.
    + rewrite E. reflexivity.
    + rewrite E. exact IH.
Qed.

Lemma table_get_push_other (t : HashTable) (k d : Z) (v : nat) :
  k <> d -> table_get (table_push t k v) d = table_get t d.
Proof.
  intros Hne. induction t as [|[k' vs] t IH]; simpl.
  - apply Z.eqb_neq in Hne. rewrite Z.eqb_sym, Hne. reflexivity.
  - destruct (Z.eqb k k') eqn:E; simpl.
    + apply Z.eqb_eq in E. subst k'.
      apply Z.eqb_neq in Hne. rewrite Z.eqb_sym, Hne. reflexivity.
    + destruct (Z.eqb d k'); [reflexivity|exact IH].
Qed.

Lemma table_has_push (t : HashTable) (k d : Z) (v i : nat) :
  table_has t d i -> table_has (table_push t k v) d i.
Proof.
  unfold table_has. intros [cands [Hg Hi]]. destruct (Z.eq_dec k d) as [->|Hne].
  - rewrite table_get_push_same, Hg. eexists; split; [reflexivity|].
    apply in_or_app. left. exact Hi.
  - rewrite table_get_push_other by exact Hne. exists cands. auto.
Qed.

Lemma table_has_fold_keep (entries : list (nat * BlockSignature)) :
  forall t d i, table_has t d i -> table_has (fold_left table_step entries t) d i.
Proof.
  induction entries as [|[idx sig] entries IH]; intros t d i H; simpl; [exact H|].
  apply IH. apply table_has_push. exact H.
Qed.

Lemma table_has_fold_in (entries : list (nat * BlockSignature)) :
  forall t i sig, In (i, sig) entries ->
  table_has (fold_left table_step entries t) (rolling_hash sig) i.
Proof.
  induction entries as [|[idx s] entries IH]; intros t i sig Hin; [contradiction|].
  simpl. destruct Hin as [Heq|Hin].
  - inversion Heq; subst. apply table_has_fold_keep.
    unfold table_step, table_has. rewrite table_get_push_same.
    eexists; split; [reflexivity|].
    destruct (table_get t (rolling_hash sig)); [apply in_or_app; right|]; simpl; auto.
  - apply IH. exact Hin.
Qed.

Lemma in_combine_seq {A : Type} (l : list A) :
  forall start i x, nth_error l i = Some x ->
  In ((start + i)%nat, x) (combine (seq start (length l)) l).
Proof.
  induction l as [|y l IH]; intros start i x Hn; [destruct i; discriminate|].
  destruct i as [|i]; simpl in Hn.
  - inversion Hn; subst. left. f_equal. lia.
  - right. replace (start + S i)%nat with (S start + i)%nat by lia. apply IH. exact Hn.
Qed.

Lemma build_hash_table_has (sigs : list BlockSignature) (i : nat) (sig : BlockSignature) :
  nth_error sigs i = Some sig ->
  table_has (build_hash_table sigs) (rolling_hash sig) i.
Proof.
  intros Hn. unfold build_hash_table.
  change (fun t '(idx, sig) => table_push t (rolling_hash sig) idx) with table_step.
  apply table_has_fold_in. apply (in_combine_seq sigs 0 i sig Hn).
Qed.

Lemma find_candidate_complete (old : list byte) (sigs : list BlockSignature)
  (h : list byte) (cands : list nat) (i : nat) (sig : BlockSignature) :
  In i cands -> nth_error sigs i = Some sig -> strong_hash sig = h ->
  exists r, find_candidate old sigs h cands = Some r.
Proof.
  intros Hin Hn Hs. induction cands as [|c cands IH]; [contradiction|].
  simpl. destruct Hin as [->|Hin].
  - rewrite Hn. unfold bytes_eqb. rewrite Hs.
    destruct (list_eq_dec Byte.byte_eq_dec h h) as [_|C]; [eauto|congruence].
  - destruct (nth_error sigs c) as [s|]; [|apply IH; exact Hin].
    destruct (bytes_eqb (strong_hash s) h); [eauto|apply IH; exact Hin].
Qed.

Lemma build_signatures_nth_full (blake3 : list byte -> list byte) (x : list byte) (j : nat) :
  ((j + 1) * BLOCK_SIZE <= length x)%nat ->
  let block := slice x (j * BLOCK_SIZE) (j * BLOCK_SIZE + BLOCK_SIZE) in
  nth_error (build_signatures blake3 x) j
  = Some (mkBlockSignature (digest (RollingHash_init block)) (blake3 block)
            (N.of_nat (j * BLOCK_SIZE))).
Proof.
  intros Hj. unfold build_signatures. rewrite nth_error_map, nth_error_seq.
  pose proof BLOCK_SIZE_pos as Hb.
  assert (Hjq : (j < (length x + BLOCK_SIZE - 1) / BLOCK_SIZE)%nat).
  { apply lt_ceil_div; [exact Hb|]. lia. }
  apply Nat.ltb_lt in Hjq. rewrite Hjq. cbn [option_map]. rewrite Nat.add_0_l.
  replace (Nat.min (j * BLOCK_SIZE + BLOCK_SIZE) (length x))
    with (j * BLOCK_SIZE + BLOCK_SIZE)%nat by lia.
  reflexivity.
Qed.

(** ** Diffing a buffer against itself *)

Section SelfDiff.

Variable blake3 : list byte -> list byte.
Hypothesis blake3_inj : forall x y, blake3 x = blake3 y -> x = y.

Lemma match_loop_self (x : list byte) :
  forall k j fuel rolling chunks,
  ((j + k) * BLOCK_SIZE <= length x)%nat ->
  (length x < (j + k + 1) * BLOCK_SIZE)%nat ->
  (k < fuel)%nat ->
  (((j + 1) * BLOCK_SIZE <= length x)%nat ->
   rolling = RollingHash_init (slice x (j * BLOCK_SIZE) (j * BLOCK_SIZE + BLOCK_SIZE))) ->
  exists extra,
    match_loop blake3 x x (build_hash_table (build_signatures blake3 x))
      (build_signatures blake3 x) fuel (j * BLOCK_SIZE) rolling [] chunks
    = (((j + k) * BLOCK_SIZE)%nat, [], chunks ++ extra)
    /\ count_copies extra = k.
Proof.
  pose proof BLOCK_SIZE_pos as Hb.
  induction k as [|k IH]; intros j fuel rolling chunks Hlo Hhi Hfuel Hroll;
    (destruct fuel as [|fuel]; [lia|]); cbn [match_loop].
  - assert (Hw : (length x <? j * BLOCK_SIZE + BLOCK_SIZE)%nat = true)
      by (apply Nat.ltb_lt; nia).
    rewrite Hw, Nat.add_0_r. exists []. rewrite app_nil_r. split; reflexivity.
  - assert (Hw : (length x <? j * BLOCK_SIZE + BLOCK_SIZE)%nat = false)
      by (apply Nat.ltb_ge; nia).
    rewrite Hw.
    assert (Hj : ((j + 1) * BLOCK_SIZE <= length x)%nat) by nia.
    specialize (Hroll Hj).
    set (w := slice x (j * BLOCK_SIZE) (j * BLOCK_SIZE + BLOCK_SIZE)) in *.
    pose proof (build_signatures_nth_full blake3 x j Hj) as Hsig. cbn zeta in Hsig.
    fold w in Hsig.
    pose proof (build_hash_table_has _ _ _ Hsig) as [cands [Hget Hin]].
    cbn [rolling_hash] in Hget. rewrite <- Hroll in Hget.
    destruct (find_candidate_complete x (build_signatures blake3 x) (blake3 w) cands j
                _ Hin Hsig eq_refl) as [[o L] Hfc].
    pose proof (find_candidate_sound blake3 blake3_inj x w cands o L) as Hsound.
    destruct Hsound as [HL _]; [unfold w; rewrite length_slice; nia|exact Hfc|].
    assert (Hfm : find_match blake3 (digest rolling) w x
                    (build_hash_table (build_signatures blake3 x))
                    (build_signatures blake3 x) = Some (o, L)).
    { unfold find_match. rewrite Hget. exact Hfc. }
    rewrite Hfm. rewrite HL.
    replace (j * BLOCK_SIZE + BLOCK_SIZE)%nat with ((j + 1) * BLOCK_SIZE)%nat by nia.
    destruct (IH (j + 1)%nat fuel
                (if ((j + 1) * BLOCK_SIZE + BLOCK_SIZE <=? length x)%nat
                 then RollingHash_init (slice x ((j + 1) * BLOCK_SIZE)
                                        ((j + 1) * BLOCK_SIZE + BLOCK_SIZE))
                 else rolling)
                (chunks ++ [Copy o L])) as [extra [Hrun Hcount]].
    + nia.
    + nia.
    + lia.
    + intros Hj2. replace ((j + 1) * BLOCK_SIZE + BLOCK_SIZE <=? length x)%nat with true.
      * reflexivity.
      * symmetry. apply Nat.leb_le. nia.
    + rewrite Hrun. exists (Copy o L :: extra). split.
      * replace (j + 1 + k)%nat with (j + S k)%nat by lia.
        rewrite <- app_assoc. reflexivity.
      * change (Copy o L :: extra) with ([Copy o L] ++ extra).
        rewrite count_copies_app, Hcount. reflexivity.
Qed.

Lemma compute_diff_self_count (x : list byte) :
  (BLOCK_SIZE <= length x)%nat ->
  count_copies (compute_diff blake3 x x) = (length x / BLOCK_SIZE)%nat.
Proof.
  intros Hlen. pose proof BLOCK_SIZE_pos as Hb.
  destruct x as [|b0 x']; [simpl in Hlen; lia|].
  change (compute_diff blake3 (b0 :: x') (b0 :: x')) with
    (match_blocks blake3 (b0 :: x') (b0 :: x')
       (build_hash_table (build_signatures blake3 (b0 :: x')))
       (build_signatures blake3 (b0 :: x'))).
  set (x := b0 :: x') in *.
  unfold match_blocks.
  replace (length x <? BLOCK_SIZE)%nat with false
    by (symmetry; apply Nat.ltb_ge; exact Hlen).
  pose proof (Nat.div_mod (length x) BLOCK_SIZE ltac:(lia)) as Hd.
  pose proof (Nat.mod_upper_bound (length x) BLOCK_SIZE ltac:(lia)) as Hm.
  remember (length x / BLOCK_SIZE)%nat as k.
  destruct (match_loop_self x k 0 (S (length x)) (RollingHash_init (slice x 0 BLOCK_SIZE)) [])
    as [extra [Hrun Hcount]].
  - nia.
  - nia.
  - nia.
  - intros _. reflexivity.
  - rewrite Nat.mul_0_l in Hrun. rewrite Hrun. simpl app.
    match goal with
    | |- context [match ?b with [] => _ | _ :: _ => _ end] => destruct b as [|y ys]
    end.
    + exact Hcount.
    + rewrite count_copies_app, Hcount. unfold count_copies. cbn [filter is_copy length]. lia.
Qed.

End SelfDiff.

(** Every [Copy] of a chunk sequence that applies without error lies inside [old]. *)
Lemma fold_apply_chunk_none (old : list byte) (cs : list DiffChunk) :
  fold_left (apply_chunk old) cs None = None.
Proof. induction cs as [|c cs IH]; simpl; auto. Qed.

Lemma fold_apply_chunk_copy_in_range (old : list byte) (cs : list DiffChunk) :
  forall acc out, fold_left (apply_chunk old) cs acc = Some out ->
  forall off len, In (Copy off len) cs ->
  (N.to_nat off + N.to_nat len <= length old)%nat.
Proof.
  induction cs as [|c cs IH]; intros acc out Hf off len Hin; [destruct Hin|].
  simpl in Hf. destruct Hin as [-> | Hin]; [|eapply IH; eauto].
  destruct acc as [r|]; simpl in Hf; [|rewrite fold_apply_chunk_none in Hf; discriminate].
  destruct (N.to_nat off + N.to_nat len <=? length old)%nat eqn:E.
  - apply Nat.leb_le. exact E.
  - rewrite fold_apply_chunk_none in Hf. discriminate.
Qed.

(** ** The rolling hash *)

Lemma bval_range (x : byte) : 0 <= bval x <= 255.
Proof. pose proof (Byte.to_N_bounded x). unfold bval. lia. Qed.

Lemma bsum_range (l : list byte) : 0 <= bsum l <= 255 * Z.of_nat (length l).
Proof.
  induction l as [|x l IH]; simpl; [lia|].
  pose proof (bval_range x). lia.
Qed.

Lemma wsum_range (l : list byte) :
  0 <= wsum l <= 255 * Z.of_nat (length l) * Z.of_nat (length l).
Proof.
  induction l as [|x l IH]; cbn [wsum length]; [lia|].
  pose proof (bval_range x). rewrite Nat2Z.inj_succ. nia.
Qed.

Lemma bsum_snoc (l : list byte) (y : byte) : bsum (l ++ [y]) = bsum l + bval y.
Proof. induction l as [|x l IH]; simpl; lia. Qed.

Lemma wsum_snoc (l : list byte) (y : byte) :
  wsum (l ++ [y]) = wsum l + bsum l + bval y.
Proof.
  induction l as [|x l IH]; cbn [wsum bsum app length]; [lia|].
  rewrite IH. change (length (x :: l ++ [y])) with (S (length (l ++ [y]))).
  rewrite length_app. cbn [length]. rewrite !Nat2Z.inj_succ, Nat2Z.inj_add. lia.
Qed.

Lemma fold_init_unb (l : list byte) :
  forall a0 b0, fold_left init_step_unb l (a0, b0)
  = (a0 + bsum l, b0 + a0 * Z.of_nat (length l) + wsum l).
Proof.
  induction l as [|x l IH]; intros a0 b0; cbn [fold_left bsum wsum length].
  - f_equal; lia.
  - unfold init_step_unb at 2. rewrite IH. rewrite Nat2Z.inj_succ. f_equal; ring.
Qed.

Lemma fold_init_no_wrap (l : list byte) :
  forall a0 b0, 0 <= a0 -> 0 <= b0 ->
  a0 + bsum l < 2 ^ 64 -> b0 + a0 * Z.of_nat (length l) + wsum l < 2 ^ 64 ->
  fold_left init_step l (a0, b0) = fold_left init_step_unb l (a0, b0).
Proof.
  induction l as [|x l IH]; intros a0 b0 Ha Hb HA HB; [reflexivity|].
  cbn [fold_left bsum wsum length] in *. rewrite Nat2Z.inj_succ in HB.
  pose proof (bval_range x). pose proof (bsum_range l). pose proof (wsum_range l).
  unfold init_step at 2, init_step_unb at 2, u64.
  rewrite (Z.mod_small (a0 + bval x)) by lia.
  rewrite (Z.mod_small (b0 + (a0 + bval x))) by nia.
  apply IH; nia.
Qed.

Lemma init_closed (l : list byte) :
  Z.of_nat (length l) <= 2 ^ 28 ->
  RollingHash_init l
  = mkRollingHash ((1 + bsum l) mod MOD_ADLER)
      ((Z.of_nat (length l) + wsum l) mod MOD_ADLER) (u32 (Z.of_nat (length l))).
Proof.
  intros Hn. pose proof (bsum_range l). pose proof (wsum_range l).
  assert (Hsq : Z.of_nat (length l) * Z.of_nat (length l) <= 2 ^ 28 * 2 ^ 28)
    by (apply Z.mul_le_mono_nonneg; lia).
  assert (HW : wsum l <= 255 * (2 ^ 28 * 2 ^ 28)) by nia.
  unfold RollingHash_init.
  rewrite fold_init_no_wrap by (change (2 ^ 64) with (2 ^ 28 * 2 ^ 28 * 2 ^ 8); lia).
  rewrite fold_init_unb. f_equal; f_equal; ring.
Qed.

(** [X ≡ Y (mod MOD_ADLER)] *)
Lemma mod_adler_shift (X Y q : Z) :
  X = Y + q * MOD_ADLER -> X mod MOD_ADLER = Y mod MOD_ADLER.
Proof. intros ->. apply Z.mod_add. unfold MOD_ADLER. lia. Qed.

Lemma rotate_init (x y : byte) (l : list byte) :
  Z.of_nat (length (x :: l)) <= 16843009 ->
  RollingHash_rotate (RollingHash_init (x :: l)) x y = RollingHash_init (l ++ [y]).
Proof.
  intros Hn.
  rewrite (init_closed (x :: l)) by lia.
  rewrite (init_closed (l ++ [y])) by (rewrite length_app; cbn [length] in *; lia).
  rewrite bsum_snoc, wsum_snoc, length_app. cbn [bsum wsum length] in *.
  rewrite Nat2Z.inj_succ in *. rewrite Nat2Z.inj_add. cbn [Z.of_nat Pos.of_succ_nat].
  set (n := Z.succ (Z.of_nat (length l))) in *.
  replace (Z.of_nat (length l) + 1) with n by (unfold n; lia).
  pose proof (bval_range x) as Hx. pose proof (bval_range y) as Hy.
  pose proof (bsum_range l). pose proof (wsum_range l).
  set (bx := bval x) in *. set (by_ := bval y) in *.
  set (S := bsum l) in *. set (W := wsum l) in *.
  assert (HM : 0 < MOD_ADLER) by (unfold MOD_ADLER; lia).
  assert (Hw : u32 n = n) by (unfold u32; apply Z.mod_small; lia).
  unfold RollingHash_rotate. cbn [rh_a rh_b rh_window_size]. rewrite Hw.
  change (bval x) with bx. change (bval y) with by_.
  set (A := 1 + (bx + S)). set (B := n + (n * bx + W)).
  pose proof (Z.mod_pos_bound A MOD_ADLER HM) as HA.
  pose proof (Z.mod_pos_bound B MOD_ADLER HM) as HB.
  assert (Ha' : u32 (u32 (u32 (A mod MOD_ADLER + MOD_ADLER) - bx) + by_) mod MOD_ADLER
                = (1 + (S + by_)) mod MOD_ADLER).
  { unfold u32, MOD_ADLER in *.
    rewrite (Z.mod_small (A mod 65521 + 65521)) by lia.
    rewrite (Z.mod_small (A mod 65521 + 65521 - bx)) by lia.
    rewrite (Z.mod_small (A mod 65521 + 65521 - bx + by_)) by lia.
    apply (mod_adler_shift _ _ (1 - A / 65521)). unfold MOD_ADLER.
    rewrite (Z.mod_eq A 65521) by lia. unfold A. ring. }
  rewrite Ha'. f_equal.
  set (A1 := 1 + (S + by_)).
  pose proof (Z.mod_pos_bound A1 MOD_ADLER HM) as HA1.
  pose proof (Z.mod_pos_bound (bx * n) MOD_ADLER HM) as Hc.
  assert (Hbn : u32 (bx * n) = bx * n) by (unfold u32; apply Z.mod_small; nia).
  rewrite Hbn.
  unfold u32, MOD_ADLER in *.
  rewrite (Z.mod_small (B mod 65521 + 65521)) by lia.
  rewrite (Z.mod_small (B mod 65521 + 65521 - 1)) by lia.
  rewrite (Z.mod_small (B mod 65521 + 65521 - 1 + A1 mod 65521)) by lia.
  rewrite (Z.mod_small (B mod 65521 + 65521 - 1 + A1 mod 65521 - (bx * n) mod 65521))
    by lia.
  apply (mod_adler_shift _ _ (1 - B / 65521 - A1 / 65521 + (bx * n) / 65521)).
  unfold MOD_ADLER.
  rewrite (Z.mod_eq B 65521), (Z.mod_eq A1 65521), (Z.mod_eq (bx * n) 65521) by lia.
  unfold B, A1. ring.
Qed.

Lemma bsum_repeat_zero (k : nat) : bsum (repeat Byte.x00 k) = 0.
Proof. induction k as [|k IH]; simpl; [reflexivity|]. rewrite IH. reflexivity. Qed.

Lemma wsum_repeat_zero (k : nat) : wsum (repeat Byte.x00 k) = 0.
Proof. induction k as [|k IH]; cbn [repeat wsum]; [reflexivity|]. rewrite IH. unfold bval. simpl. lia. Qed.

(** ** The applier *)

Lemma bytes_eqb_true (x y : list byte) : bytes_eqb x y = true <-> x = y.
Proof. unfold bytes_eqb. destruct (list_eq_dec Byte.byte_eq_dec x y); split; congruence. Qed.

Lemma fs_path_eqb_true (p q : FsPath) : fs_path_eqb p q = true <-> p = q.
Proof. unfold fs_path_eqb. destruct (list_eq_dec string_dec p q); split; congruence. Qed.

Lemma fs_write_cases (fs : Fs) (p : FsPath) (d : list byte) :
  (snd (fs_write fs p d) = Ok /\ fst (fs_write fs p d) = fs_set fs p (NFile d))
  \/ (snd (fs_write fs p d) = Err (IoError p) /\ fst (fs_write fs p d) = fs).
Proof.
  unfold fs_write. destruct p as [|c p']; [right; auto|].
  destruct (negb (is_dir fs (removelast (c :: p')))); [right; auto|].
  destruct (fs (c :: p')) as [[|n]|]; auto.
Qed.

Lemma fs_set_same (fs : Fs) (p : FsPath) (n : Node) : fs_set fs p n p = Some n.
Proof. unfold fs_set. replace (fs_path_eqb p p) with true; [reflexivity|].
  symmetry. apply fs_path_eqb_true. reflexivity. Qed.

Lemma fs_set_changed (fs : Fs) (p q : FsPath) (n : Node) :
  fs_set fs p n q <> fs q -> q = p.
Proof.
  unfold fs_set. destruct (fs_path_eqb q p) eqn:E; intros H.
  - apply fs_path_eqb_true. exact E.
  - exfalso; apply H; reflexivity.
Qed.

Lemma mkdirs_error (fs : Fs) (prefix : FsPath) (rest : list string) :
  forall e, snd (mkdirs fs prefix rest) = Err e -> exists q, e = IoError q.
Proof.
  revert fs prefix. induction rest as [|c rest IH]; intros fs prefix e H; simpl in H.
  - discriminate.
  - destruct (fs (prefix ++ [c])) as [[|d]|]; eauto.
    simpl in H. injection H as <-. eauto.
Qed.

(** ** Orders and sorting *)

Lemma str_leb_refl (a : string) : str_leb a a = true.
Proof.
  induction a as [|x a IH]; [reflexivity|]. simpl.
  rewrite N.ltb_irrefl, N.eqb_refl. exact IH.
Qed.

Lemma str_leb_trans (a b c : string) :
  str_leb a b = true -> str_leb b c = true -> str_leb a c = true.
Proof.
  revert b c. induction a as [|x a IH]; intros b c; [reflexivity|].
  destruct b as [|y b]; [discriminate|]. destruct c as [|z c]; [intros _ H; discriminate|].
  simpl. rewrite !orb_true_iff, !andb_true_iff, !N.ltb_lt, !N.eqb_eq.
  intros [H1|[H1 H2]] [H3|[H3 H4]]; [left; lia|left; lia|left; lia|].
  right. split; [lia|]. eapply IH; eauto.
Qed.

Lemma str_leb_total (a b : string) : str_leb a b = false -> str_leb b a = true.
Proof.
  revert b. induction a as [|x a IH]; intros b H; [discriminate|].
  destruct b as [|y b]; [reflexivity|]. simpl in *.
  apply orb_false_iff in H as [H1 H2]. rewrite N.ltb_ge in H1.
  destruct (N.eqb_spec (N_of_ascii x) (N_of_ascii y)) as [E|E].
  - simpl in H2. rewrite E, N.ltb_irrefl, N.eqb_refl. simpl. apply IH. exact H2.
  - apply orb_true_iff. left. apply N.ltb_lt. lia.
Qed.

(** A proper extension [p/r] of [p] sorts strictly after [p]. *)
Lemma str_leb_extension (p r : string) (c : ascii) : str_leb (p ++ String c r)%string p = false.
Proof.
  induction p as [|x p IH]; [reflexivity|]. simpl.
  rewrite N.ltb_irrefl, N.eqb_refl. exact IH.
Qed.

Lemma ss_app {A : Type} (R : A -> A -> Prop) (l1 l2 : list A) :
  StronglySorted R l1 -> StronglySorted R l2 ->
  (forall x y, In x l1 -> In y l2 -> R x y) -> StronglySorted R (l1 ++ l2).
Proof.
  induction l1 as [|a l1 IH]; intros H1 H2 H; [exact H2|].
  inversion H1 as [|? ? Hs Hf]; subst. simpl. constructor.
  - apply IH; auto. intros x y Hx Hy. apply H; simpl; auto.
  - apply Forall_app. split; [exact Hf|].
    apply Forall_forall. intros y Hy. apply H; simpl; auto.
Qed.

Lemma ss_rev {A : Type} (R : A -> A -> Prop) (l : list A) :
  StronglySorted R l -> StronglySorted (fun x y => R y x) (rev l).
Proof.
  induction l as [|a l IH]; intros H; [constructor|].
  inversion H as [|? ? Hs Hf]; subst. simpl. apply ss_app.
  - apply IH. exact Hs.
  - constructor; constructor.
  - intros x y Hx [<-|[]]. rewrite Forall_forall in Hf. apply Hf. apply in_rev. exact Hx.
Qed.

Lemma ss_nth {A : Type} (R : A -> A -> Prop) (l : list A) :
  StronglySorted R l -> forall i j a b, (i < j)%nat ->
  nth_error l i = Some a -> nth_error l j = Some b -> R a b.
Proof.
  induction l as [|x l IH]; intros H i j a b Hij Ha Hb; [destruct i; discriminate|].
  inversion H as [|? ? Hs Hf]; subst.
  destruct j as [|j]; [lia|]. destruct i as [|i].
  - simpl in Ha, Hb. injection Ha as <-. rewrite Forall_forall in Hf.
    apply Hf. eapply nth_error_In. exact Hb.
  - simpl in Ha, Hb. apply (IH Hs i j a b); [lia|exact Ha|exact Hb].
Qed.

Lemma ss_const_rank (l : list PatchOp) (k : nat) :
  (forall x, In x l -> phase_rank x = k) ->
  StronglySorted (fun x y => phase_rank x <= phase_rank y)%nat l.
Proof.
  induction l as [|a l IH]; intros H; constructor.
  - apply IH. intros x Hx. apply H. simpl. auto.
  - apply Forall_forall. intros y Hy. rewrite (H a), (H y); simpl; auto.
Qed.

Lemma insert_sorted_in (s y : string) (l : list string) :
  In y (insert_sorted s l) <-> In y (s :: l).
Proof.
  induction l as [|x l IH]; simpl; [tauto|].
  destruct (str_leb s x); simpl; [tauto|]. rewrite IH. simpl. tauto.
Qed.

Lemma insert_sorted_ss (s : string) (l : list string) :
  StronglySorted str_le l -> StronglySorted str_le (insert_sorted s l).
Proof.
  induction l as [|x l IH]; intros H; simpl; [constructor; constructor|].
  inversion H as [|? ? Hs Hf]; subst. rewrite Forall_forall in Hf.
  destruct (str_leb s x) eqn:E.
  - constructor; [exact H|]. constructor; [exact E|].
    apply Forall_forall. intros y Hy. eapply str_leb_trans; [exact E|]. apply Hf, Hy.
  - constructor; [apply IH, Hs|]. apply Forall_forall. intros y Hy.
    apply insert_sorted_in in Hy as [<-|Hy]; [apply str_leb_total, E|apply Hf, Hy].
Qed.

Lemma sort_strings_ss (l : list string) : StronglySorted str_le (sort_strings l).
Proof. induction l as [|x l IH]; simpl; [constructor|]. apply insert_sorted_ss, IH. Qed.

Lemma delete_dir_paths_map_other {A : Type} (f : A -> PatchOp) (l : list A) :
  (forall p, match f p with DeleteDir _ => False | _ => True end) ->
  delete_dir_paths (map f l) = [].
Proof.
  intros Hf. induction l as [|x l IH]; [reflexivity|]. unfold delete_dir_paths in *. simpl.
  rewrite IH. specialize (Hf x). destruct (f x); simpl; tauto.
Qed.

Lemma create_dir_paths_map_other {A : Type} (f : A -> PatchOp) (l : list A) :
  (forall p, match f p with CreateDir _ => False | _ => True end) ->
  create_dir_paths (map f l) = [].
Proof.
  intros Hf. induction l as [|x l IH]; [reflexivity|]. unfold create_dir_paths in *. simpl.
  rewrite IH. specialize (Hf x). destruct (f x); simpl; tauto.
Qed.

Lemma create_dir_paths_map (l : list string) : create_dir_paths (map CreateDir l) = l.
Proof. induction l as [|x l IH]; [reflexivity|]. unfold create_dir_paths in *. simpl. f_equal. exact IH. Qed.

Lemma delete_dir_paths_map (l : list string) : delete_dir_paths (map DeleteDir l) = l.
Proof. induction l as [|x l IH]; [reflexivity|]. unfold delete_dir_paths in *. simpl. f_equal. exact IH. Qed.

(** Parents before children in a list sorted ascending. *)
Lemma sorted_parent_first (l : list string) :
  StronglySorted str_le l ->
  forall i j p r, nth_error l i = Some p -> nth_error l j = Some (p ++ String "/" r)%string ->
  (i < j)%nat.
Proof.
  intros Hs i j p r Hi Hj.
  destruct (Nat.lt_trichotomy i j) as [H|[<-|H]]; [exact H| |].
  - rewrite Hi in Hj. injection Hj as Hj.
    pose proof (str_leb_extension p r "/") as Hx. rewrite <- Hj, str_leb_refl in Hx. discriminate.
  - pose proof (ss_nth _ _ Hs j i _ _ H Hj Hi) as Hle. unfold str_le in Hle.
    rewrite str_leb_extension in Hle. discriminate.
Qed.

(** Children before parents in a list sorted descending. *)
Lemma sorted_child_first (l : list string) :
  StronglySorted (fun x y => str_le y x) l ->
  forall i j p r, nth_error l i = Some (p ++ String "/" r)%string -> nth_error l j = Some p ->
  (i < j)%nat.
Proof.
  intros Hs i j p r Hi Hj.
  destruct (Nat.lt_trichotomy i j) as [H|[<-|H]]; [exact H| |].
  - rewrite Hi in Hj. injection Hj as Hj.
    pose proof (str_leb_extension p r "/") as Hx. rewrite Hj, str_leb_refl in Hx. discriminate.
  - pose proof (ss_nth _ _ Hs j i _ _ H Hj Hi) as Hle. unfold str_le in Hle.
    rewrite str_leb_extension in Hle. discriminate.
Qed.

Lemma create_dir_paths_app (l1 l2 : list PatchOp) :
  create_dir_paths (l1 ++ l2) = create_dir_paths l1 ++ create_dir_paths l2.
Proof. apply flat_map_app. Qed.

Lemma delete_dir_paths_app (l1 l2 : list PatchOp) :
  delete_dir_paths (l1 ++ l2) = delete_dir_paths l1 ++ delete_dir_paths l2.
Proof. apply flat_map_app. Qed.

(** ** The manifest of [create_patch] *)

Lemma create_patch_ops_shape (blake3 : list byte -> list byte)
  (differ : list byte -> list byte -> list DiffChunk) (old new : list DirEntry) :
  exists cd adds mods fd dd,
  operations (fst (create_patch_with blake3 differ old new))
  = map CreateDir (sort_strings cd)
    ++ map (fun '(p, d, h) => AddFile p d h) adds
    ++ map (fun '(p, c, h) => ModifyFile p c h) mods
    ++ map DeleteFile fd
    ++ map DeleteDir (rev (sort_strings dd)).
Proof. do 5 eexists. reflexivity. Qed.

Lemma ops_shape_order (cd fd dd : list string) (adds : list (string * list byte * list byte))
  (mods : list (string * list DiffChunk * list byte)) :
  let ops := map CreateDir (sort_strings cd)
    ++ map (fun '(p, d, h) => AddFile p d h) adds
    ++ map (fun '(p, c, h) => ModifyFile p c h) mods
    ++ map DeleteFile fd
    ++ map DeleteDir (rev (sort_strings dd)) in
  StronglySorted (fun x y => phase_rank x <= phase_rank y)%nat ops
  /\ create_dir_paths ops = sort_strings cd
  /\ delete_dir_paths ops = rev (sort_strings dd).
Proof.
  cbv zeta.
  assert (R0 : forall x, In x (map CreateDir (sort_strings cd)) -> phase_rank x = 0%nat)
    by (intros x H; apply in_map_iff in H as [z [<- _]]; reflexivity).
  assert (R1 : forall x, In x (map (fun '(p, d, h) => AddFile p d h) adds) -> phase_rank x = 1%nat)
    by (intros x H; apply in_map_iff in H as [[[p d] h] [<- _]]; reflexivity).
  assert (R2 : forall x, In x (map (fun '(p, c, h) => ModifyFile p c h) mods) -> phase_rank x = 2%nat)
    by (intros x H; apply in_map_iff in H as [[[p c] h] [<- _]]; reflexivity).
  assert (R3 : forall x, In x (map DeleteFile fd) -> phase_rank x = 3%nat)
    by (intros x H; apply in_map_iff in H as [z [<- _]]; reflexivity).
  assert (R4 : forall x, In x (map DeleteDir (rev (sort_strings dd))) -> phase_rank x = 4%nat)
    by (intros x H; apply in_map_iff in H as [z [<- _]]; reflexivity).
  split; [|split].
  - apply ss_app; [eapply ss_const_rank; exact R0| |intros x y Hx Hy; rewrite (R0 x Hx); lia].
    apply ss_app; [eapply ss_const_rank; exact R1| |].
    2:{ intros x y Hx Hy. rewrite (R1 x Hx). rewrite !in_app_iff in Hy.
        destruct Hy as [Hy|[Hy|Hy]]; [rewrite (R2 y Hy)|rewrite (R3 y Hy)|rewrite (R4 y Hy)]; lia. }
    apply ss_app; [eapply ss_const_rank; exact R2| |].
    2:{ intros x y Hx Hy. rewrite (R2 x Hx). rewrite in_app_iff in Hy.
        destruct Hy as [Hy|Hy]; [rewrite (R3 y Hy)|rewrite (R4 y Hy)]; lia. }
    apply ss_app; [eapply ss_const_rank; exact R3|eapply ss_const_rank; exact R4|].
    intros x y Hx Hy. rewrite (R3 x Hx), (R4 y Hy). lia.
  - rewrite !create_dir_paths_app, create_dir_paths_map.
    rewrite (create_dir_paths_map_other _ adds) by (intros [[p d] h]; exact I).
    rewrite (create_dir_paths_map_other _ mods) by (intros [[p c] h]; exact I).
    rewrite (create_dir_paths_map_other _ fd) by (intros p; exact I).
    rewrite (create_dir_paths_map_other _ (rev (sort_strings dd))) by (intros p; exact I).
    rewrite !app_nil_r. reflexivity.
  - rewrite !delete_dir_paths_app, delete_dir_paths_map.
    rewrite (delete_dir_paths_map_other _ (sort_strings cd)) by (intros p; exact I).
    rewrite (delete_dir_paths_map_other _ adds) by (intros [[p d] h]; exact I).
    rewrite (delete_dir_paths_map_other _ mods) by (intros [[p c] h]; exact I).
    rewrite (delete_dir_paths_map_other _ fd) by (intros p; exact I).
    reflexivity.
Qed.

Lemma entry_lookup_path (l : list DirEntry) (q : string) (e : DirEntry) :
  entry_lookup l q = Some e -> relative_path e = q.
Proof.
  unfold entry_lookup. intros H. apply find_some in H as [_ H].
  apply String.eqb_eq. exact H.
Qed.

Lemma files_maybe_modified_in (old new : list DirEntry) (eo en : DirEntry) :
  In (eo, en) (files_maybe_modified old new) ->
  exists q, entry_lookup old q = Some eo /\ entry_lookup new q = Some en
            /\ kind eo = File /\ kind en = File.
Proof.
  unfold files_maybe_modified. intros H. apply in_flat_map in H as [q [_ Hq]].
  exists q. destruct (entry_lookup old q) as [eo'|], (entry_lookup new q) as [en'|];
    try destruct Hq.
  destruct (EntryKind_eqb (kind eo') File && EntryKind_eqb (kind en') File) eqn:E;
    [|destruct Hq].
  destruct Hq as [Hq|[]]. injection Hq as <- <-.
  apply andb_true_iff in E as [E1 E2].
  destruct (kind eo'), (kind en'); try discriminate. auto.
Qed.

Lemma modify_in_ops (blake3 : list byte -> list byte)
  (differ : list byte -> list byte -> list DiffChunk) (old new : list DirEntry)
  (p : string) (c : list DiffChunk) (h : list byte) :
  In (ModifyFile p c h) (operations (fst (create_patch_with blake3 differ old new)))
  <-> exists eo en, In (eo, en) (files_maybe_modified old new)
                    /\ diff_one blake3 differ (mk_diff_input (eo, en)) = Some (p, c, h).
Proof.
  unfold create_patch_with. cbn [fst operations]. rewrite !in_app_iff. split.
  - intros [H|[H|[H|[H|H]]]]; apply in_map_iff in H.
    + destruct H as [z [E _]]. discriminate E.
    + destruct H as [[[a b] d] [E _]]. discriminate E.
    + destruct H as [[[a b] d] [E Hin]]. injection E as -> -> ->.
      apply in_flat_map in Hin as [i [Hi Hr]]. apply in_map_iff in Hi as [[eo en] [<- Hpair]].
      exists eo, en. split; [exact Hpair|].
      destruct (diff_one blake3 differ (mk_diff_input (eo, en))) as [r|]; [|destruct Hr].
      destruct Hr as [->|[]]. reflexivity.
    + destruct H as [z [E _]]. discriminate E.
    + destruct H as [z [E _]]. discriminate E.
  - intros (eo & en & Hin & Hd). right; right; left. apply in_map_iff.
    exists (p, c, h). split; [reflexivity|]. apply in_flat_map.
    exists (mk_diff_input (eo, en)). split; [apply in_map; exact Hin|].
    rewrite Hd. left. reflexivity.
Qed.

Lemma filter_modify_map_other {A : Type} (f : A -> PatchOp) (l : list A) :
  (forall x, is_modify_file (f x) = false) -> filter is_modify_file (map f l) = [].
Proof. intros Hf. induction l as [|x l IH]; [reflexivity|]. simpl. rewrite Hf. exact IH. Qed.

Lemma filter_modify_map_modify (l : list (string * list DiffChunk * list byte)) :
  filter is_modify_file (map (fun '(p, c, h) => ModifyFile p c h) l)
  = map (fun '(p, c, h) => ModifyFile p c h) l.
Proof. induction l as [|[[p c] h] l IH]; [reflexivity|]. simpl. f_equal. exact IH. Qed.

Lemma files_modified_count (blake3 : list byte -> list byte)
  (differ : list byte -> list byte -> list DiffChunk) (old new : list DirEntry) :
  files_modified (snd (create_patch_with blake3 differ old new))
  = length (filter is_modify_file (operations (fst (create_patch_with blake3 differ old new)))).
Proof.
  unfold create_patch_with. cbn [fst snd operations files_modified].
  rewrite !filter_app, filter_modify_map_modify.
  rewrite (filter_modify_map_other CreateDir) by reflexivity.
  rewrite (filter_modify_map_other (fun '(p, d, h) => AddFile p d h))
    by (intros [[p d] h]; reflexivity).
  rewrite (filter_modify_map_other DeleteFile) by reflexivity.
  rewrite (filter_modify_map_other DeleteDir) by reflexivity.
  rewrite !app_nil_l, !app_nil_r, length_map. reflexivity.
Qed.

(* ================================================================== *)
(** * Properties of the specification *)

(** C1: for all byte sequences [old] and [new], applying the chunks of
    [compute_diff old new] to [old] with [apply_diff] gives exactly [new]
    (for any sizes, empty ones included), and every [Copy {offset, length}]
    of those chunks satisfies [offset + length <= length old].  The strong
    hash is taken collision-free: the differ accepts a block on equal
    BLAKE3 digests. *)
Theorem compute_diff_apply_roundtrip (blake3 : list byte -> list byte)
  (blake3_inj : forall x y, blake3 x = blake3 y -> x = y) (old new : list byte) :
  apply_diff old (compute_diff blake3 old new) = Some new
  /\ (forall off len, In (Copy off len) (compute_diff blake3 old new) ->
      (N.to_nat off + N.to_nat len <= length old)%nat).
Proof.
  pose proof (compute_diff_roundtrip_gen blake3 blake3_inj old new) as H.
  split; [exact H|].
  intros off len Hin. exact (fold_apply_chunk_copy_in_range old _ _ _ H off len Hin).
Qed.

Lemma compute_diff_apply_roundtrip_witness :
  (forall x y : list byte, (fun l => l) x = (fun l => l) y -> x = y)
  /\ (apply_diff (repeat Byte.x00 BLOCK_SIZE ++ [Byte.x01])
        (compute_diff (fun l => l) (repeat Byte.x00 BLOCK_SIZE ++ [Byte.x01])
           (Byte.x02 :: repeat Byte.x00 BLOCK_SIZE))
      = Some (Byte.x02 :: repeat Byte.x00 BLOCK_SIZE)
    /\ (forall off len, In (Copy off len)
          (compute_diff (fun l => l) (repeat Byte.x00 BLOCK_SIZE ++ [Byte.x01])
             (Byte.x02 :: repeat Byte.x00 BLOCK_SIZE)) ->
        (N.to_nat off + N.to_nat len
         <= length (repeat Byte.x00 BLOCK_SIZE ++ [Byte.x01]))%nat)).
Proof.
  split; [intros x y H; simpl in H; exact H|].
  apply (compute_diff_apply_roundtrip (fun l => l)).
  intros x y H; simpl in H; exact H.
Defined.

(** C10: for every byte sequence [x] with [|x| >= 4096], the chunks of
    [compute_diff x x] applied to [x] give [x], and they contain at least
    [|x| / 4096] [Copy] chunks (BLAKE3 taken collision-free). *)
Theorem compute_diff_self_copies (blake3 : list byte -> list byte)
  (blake3_inj : forall x y, blake3 x = blake3 y -> x = y) (x : list byte) :
  (BLOCK_SIZE <= length x)%nat ->
  apply_diff x (compute_diff blake3 x x) = Some x
  /\ (length x / BLOCK_SIZE <= count_copies (compute_diff blake3 x x))%nat.
Proof.
  intros Hlen. split.
  - exact (compute_diff_roundtrip_gen blake3 blake3_inj x x).
  - rewrite (compute_diff_self_count blake3 blake3_inj x Hlen). lia.
Qed.

Lemma compute_diff_self_copies_witness :
  (forall x y : list byte, (fun l => l) x = (fun l => l) y -> x = y)
  /\ (BLOCK_SIZE <= length (repeat Byte.x00 BLOCK_SIZE ++ [Byte.x05]))%nat
  /\ (apply_diff (repeat Byte.x00 BLOCK_SIZE ++ [Byte.x05])
        (compute_diff (fun l => l) (repeat Byte.x00 BLOCK_SIZE ++ [Byte.x05])
           (repeat Byte.x00 BLOCK_SIZE ++ [Byte.x05]))
      = Some (repeat Byte.x00 BLOCK_SIZE ++ [Byte.x05])
    /\ (length (repeat Byte.x00 BLOCK_SIZE ++ [Byte.x05]) / BLOCK_SIZE
        <= count_copies (compute_diff (fun l => l) (repeat Byte.x00 BLOCK_SIZE ++ [Byte.x05])
             (repeat Byte.x00 BLOCK_SIZE ++ [Byte.x05])))%nat).
Proof.
  assert (Hinj : forall x y : list byte, (fun l => l) x = (fun l => l) y -> x = y)
    by (intros x y H; simpl in H; exact H).
  assert (Hlen : (BLOCK_SIZE <= length (repeat Byte.x00 BLOCK_SIZE ++ [Byte.x05]))%nat)
    by (rewrite length_app, repeat_length; lia).
  split; [exact Hinj|]. split; [exact Hlen|].
  apply (compute_diff_self_copies (fun l => l) Hinj _ Hlen).
Defined.

(** C6 (as amended): for every non-empty block of at most 16843009 bytes and
    every byte [b], [init(block)] followed by [rotate(block[0], b)] has the
    same [digest()] as [init(block[1..] ++ [b])].  Beyond that length the
    [u32] product [old_byte * window_size] of [rotate] wraps around. *)
Theorem rotate_matches_init (block : list byte) (b : byte) :
  (0 < length block)%nat -> Z.of_nat (length block) <= 16843009 ->
  digest (RollingHash_rotate (RollingHash_init block) (hd Byte.x00 block) b)
  = digest (RollingHash_init (tl block ++ [b])).
Proof.
  intros Hne Hlen. destruct block as [|x l]; [simpl in Hne; lia|].
  cbn [hd tl]. rewrite (rotate_init x b l Hlen). reflexivity.
Qed.

Lemma rotate_matches_init_witness :
  (0 < length [Byte.x10; Byte.x20; Byte.x30])%nat
  /\ Z.of_nat (length [Byte.x10; Byte.x20; Byte.x30]) <= 16843009
  /\ digest (RollingHash_rotate (RollingHash_init [Byte.x10; Byte.x20; Byte.x30])
       (hd Byte.x00 [Byte.x10; Byte.x20; Byte.x30]) Byte.xff)
    = digest (RollingHash_init (tl [Byte.x10; Byte.x20; Byte.x30] ++ [Byte.xff])).
Proof.
  split; [simpl; lia|]. split; [simpl; lia|].
  apply rotate_matches_init; simpl; lia.
Defined.

(** C6, counterexample to the unrestricted claim: for the block
    [0xff] followed by 16843009 zero bytes and [b = 0x00], the product
    [255 * 16843010] exceeds [u32::MAX], and the rotated digest differs from
    the digest recomputed from scratch. *)
Lemma rotate_overflow_counterexample :
  let block := Byte.xff :: repeat Byte.x00 (Z.to_nat 16843009) in
  digest (RollingHash_rotate (RollingHash_init block) (hd Byte.x00 block) Byte.x00)
  <> digest (RollingHash_init (tl block ++ [Byte.x00])).
Proof.
  intros block. unfold block. cbn [hd tl].
  pose proof (Z2Nat.id 16843009 ltac:(lia)) as Hk. revert Hk.
  generalize (Z.to_nat 16843009) as k. intros k Hk.
  assert (Hl : Z.of_nat (length (repeat Byte.x00 k)) = 16843009)
    by (rewrite repeat_length; exact Hk).
  rewrite (init_closed (Byte.xff :: repeat Byte.x00 k))
    by (cbn [length]; rewrite Nat2Z.inj_succ, Hl; lia).
  rewrite (init_closed (repeat Byte.x00 k ++ [Byte.x00]))
    by (rewrite length_app, Nat2Z.inj_add, Hl; simpl; lia).
  rewrite bsum_snoc, wsum_snoc, length_app, Nat2Z.inj_add, Hl.
  cbn [bsum wsum length]. rewrite Nat2Z.inj_succ, Hl, bsum_repeat_zero, wsum_repeat_zero.
  vm_compute. discriminate.
Qed.

(** C2, counterexample: [apply_patch] validates no operation path.  A
    manifest with the single operation [CreateDir "../escape"], applied to
    the target [/srv/app], is not rejected: it succeeds and creates
    [/srv/escape], outside the target directory. *)
Theorem apply_patch_executes_dotdot_path :
  let res := apply_patch (fun l => l)
               (fun _ => Some (mkPatchManifest FORMAT_VERSION [CreateDir "../escape"%string]))
               srv_fs srv_target MAGIC in
  snd res = inl (mkApplySummary 1 0 0 0 0)
  /\ srv_fs ["srv"; "escape"]%string = None
  /\ fst res ["srv"; "escape"]%string = Some NDir.
Proof. vm_compute. auto. Qed.

(** C3: for a [ModifyFile] operation the new bytes are rebuilt from the
    current file and hashed before anything is written: the step fails
    with a hash mismatch exactly when the rebuilt bytes do not hash to
    [new_blake3_hash], the filesystem is then left unchanged, and the only
    location the step ever changes is the file itself, which then holds
    rebuilt bytes whose hash matched. *)
Theorem modify_file_verified_before_write (blake3 : list byte -> list byte)
  (target : FsPath) (fs : Fs) (path : string) (chunks : list DiffChunk) (h : list byte) :
  let full := join target path in
  let res := modify_file_op blake3 target fs (ModifyFile path chunks h) in
  (snd res = Err (HashMismatchPatched path)
   <-> exists old nd, fs_read fs full = Some old /\ apply_diff old chunks = Some nd
                      /\ blake3 nd <> h)
  /\ (snd res = Err (HashMismatchPatched path) -> fst res = fs)
  /\ (forall q, fst res q <> fs q ->
      q = full /\ exists old nd, fs_read fs full = Some old /\ apply_diff old chunks = Some nd
                               /\ blake3 nd = h /\ fst res q = Some (NFile nd)).
Proof.
  cbv zeta. unfold modify_file_op.
  destruct (fs_read fs (join target path)) as [old|] eqn:Hr.
  2:{ split; [split; [discriminate|intros (o & nd & H & _); discriminate]|].
      split; [reflexivity|]. intros q H; exfalso; apply H; reflexivity. }
  destruct (apply_diff old chunks) as [nd|] eqn:Hd.
  2:{ split; [split; [discriminate|intros (o & nd & H1 & H2 & _); congruence]|].
      split; [reflexivity|]. intros q H; exfalso; apply H; reflexivity. }
  destruct (bytes_eqb (blake3 nd) h) eqn:Hb; cbn [negb].
  - apply bytes_eqb_true in Hb.
    destruct (fs_write_cases fs (join target path) nd) as [[Ho Hf] | [Ho Hf]];
      rewrite Ho, Hf.
    + split; [split; [discriminate|intros (o & nd' & H1 & H2 & H3); congruence]|].
      split; [discriminate|].
      intros q Hq. pose proof (fs_set_changed _ _ _ _ Hq) as ->.
      split; [reflexivity|]. exists old, nd. repeat split; auto. apply fs_set_same.
    + split; [split; [discriminate|intros (o & nd' & H1 & H2 & H3); congruence]|].
      split; [reflexivity|]. intros q H; exfalso; apply H; reflexivity.
  - assert (Hne : blake3 nd <> h) by (intros E; apply bytes_eqb_true in E; congruence).
    cbn [fst snd]. split; [split; [intros _; exists old, nd; auto|reflexivity]|].
    split; [reflexivity|]. intros q H; exfalso; apply H; reflexivity.
Qed.

(** C4: an [AddFile] operation makes the parent directories, writes the
    file, and only then compares the hash of the written bytes with
    [blake3_hash].  When it fails with a hash mismatch, the file has been
    written with [data] and [blake3(data) <> blake3_hash]; when the mkdir
    and write steps succeed, the result is the written filesystem and the
    step fails with a hash mismatch if and only if [blake3(data)] differs
    from [blake3_hash]. *)
Theorem add_file_hash_checked_after_write (blake3 : list byte -> list byte)
  (target : FsPath) (fs : Fs) (path : string) (data h : list byte) :
  let full := join target path in
  let mk := match fs_parent full with
            | Some parent => create_dir_all fs parent
            | None => (fs, Ok)
            end in
  let res := add_file_op blake3 target fs (AddFile path data h) in
  (snd res = Err (HashMismatchAdded path) ->
     snd mk = Ok /\ snd (fs_write (fst mk) full data) = Ok
     /\ fst res = fst (fs_write (fst mk) full data)
     /\ fst res full = Some (NFile data) /\ blake3 data <> h)
  /\ (snd mk = Ok -> snd (fs_write (fst mk) full data) = Ok ->
      fst res = fst (fs_write (fst mk) full data)
      /\ fst res full = Some (NFile data)
      /\ (snd res = Err (HashMismatchAdded path) <-> blake3 data <> h)).
Proof.
  cbv zeta. unfold add_file_op.
  assert (Hmk : forall e, snd (match fs_parent (join target path) with
                              | Some parent => create_dir_all fs parent
                              | None => (fs, Ok) end) = Err e -> exists q, e = IoError q).
  { destruct (fs_parent (join target path)); [apply mkdirs_error|discriminate]. }
  destruct (match fs_parent (join target path) with
            | Some parent => create_dir_all fs parent
            | None => (fs, Ok) end) as [fs1 o1] eqn:Hm.
  cbn [fst snd] in *.
  destruct o1 as [|e1].
  2:{ destruct (Hmk e1 eq_refl) as [q ->]. split; [discriminate|]. intros H; discriminate. }
  destruct (fs_write_cases fs1 (join target path) data) as [[Ho Hf] | [Ho Hf]].
  2:{ destruct (fs_write fs1 (join target path) data) as [fs2 o2]. cbn [fst snd] in *.
      subst o2. split; [discriminate|]. intros _ H; discriminate. }
  destruct (fs_write fs1 (join target path) data) as [fs2 o2]. cbn [fst snd] in *.
  subst o2 fs2.
  assert (Hw : fs_set fs1 (join target path) (NFile data) (join target path) = Some (NFile data))
    by apply fs_set_same.
  destruct (bytes_eqb (blake3 data) h) eqn:Hb; cbn [fst snd].
  - apply bytes_eqb_true in Hb.
    split; [discriminate|]. intros _ _. repeat split; auto; [discriminate|congruence].
  - assert (Hne : blake3 data <> h) by (intros E; apply bytes_eqb_true in E; congruence).
    split; [intros _; repeat split; auto|]. intros _ _. repeat split; auto.
Qed.

(** C5: if the first 8 bytes of the patch file are not the magic
    [PATCHV01], or the decoded manifest has a version other than 1,
    [apply_patch] returns [InvalidMagic] or [UnsupportedVersion] and leaves
    the filesystem exactly as it was. *)
Theorem apply_patch_bad_header_no_change (blake3 : list byte -> list byte)
  (decode : list byte -> option PatchManifest) (fs : Fs) (target : FsPath) (raw : list byte) :
  (firstn 8 raw <> MAGIC
   \/ exists m, decode (skipn 8 raw) = Some m /\ version m <> FORMAT_VERSION) ->
  fst (apply_patch blake3 decode fs target raw) = fs
  /\ (snd (apply_patch blake3 decode fs target raw) = inr InvalidMagic
      \/ exists v, v <> FORMAT_VERSION
                   /\ snd (apply_patch blake3 decode fs target raw) = inr (UnsupportedVersion v)).
Proof.
  intros Hbad. unfold apply_patch.
  change (length MAGIC) with 8%nat.
  destruct ((length raw <? 8)%nat || negb (bytes_eqb (firstn 8 raw) MAGIC)) eqn:Hm.
  { cbn [fst snd]. auto. }
  apply orb_false_iff in Hm as [_ Hm]. apply negb_false_iff, bytes_eqb_true in Hm.
  destruct Hbad as [Hbad | (m & Hdec & Hv)]; [contradiction|].
  rewrite Hdec.
  destruct (Z.eqb (version m) FORMAT_VERSION) eqn:Hz; [apply Z.eqb_eq in Hz; contradiction|].
  cbn [negb fst snd]. split; [reflexivity|]. right. exists (version m). auto.
Qed.

Lemma apply_patch_bad_header_no_change_witness :
  (firstn 8 [Byte.x50; Byte.x4b] <> MAGIC
   \/ exists m, (fun _ : list byte => @None PatchManifest) (skipn 8 [Byte.x50; Byte.x4b]) = Some m
                /\ version m <> FORMAT_VERSION)
  /\ fst (apply_patch (fun l => l) (fun _ => None) srv_fs srv_target [Byte.x50; Byte.x4b]) = srv_fs
  /\ (snd (apply_patch (fun l => l) (fun _ => None) srv_fs srv_target [Byte.x50; Byte.x4b])
        = inr InvalidMagic
      \/ exists v, v <> FORMAT_VERSION
         /\ snd (apply_patch (fun l => l) (fun _ => None) srv_fs srv_target [Byte.x50; Byte.x4b])
            = inr (UnsupportedVersion v)).
Proof.
  assert (H : firstn 8 [Byte.x50; Byte.x4b] <> MAGIC) by (vm_compute; discriminate).
  split; [left; exact H|].
  apply apply_patch_bad_header_no_change. left. exact H.
Defined.

(** C7: in the manifest built by [create_patch], the operations come in
    the phase order CreateDir, AddFile, ModifyFile, DeleteFile, DeleteDir
    (the phase never decreases along the list); the CreateDir paths are in
    ascending lexicographic order, so a directory [p] comes before every
    [p/r]; the DeleteDir paths are in descending lexicographic order, so
    every [p/r] comes before [p]. *)
Theorem create_patch_operation_order (blake3 : list byte -> list byte)
  (old new : list DirEntry) :
  let ops := operations (fst (create_patch blake3 old new)) in
  let cd := create_dir_paths ops in
  let dd := delete_dir_paths ops in
  (forall i j oi oj, (i < j)%nat -> nth_error ops i = Some oi -> nth_error ops j = Some oj ->
     (phase_rank oi <= phase_rank oj)%nat)
  /\ (forall i j a b, (i < j)%nat -> nth_error cd i = Some a -> nth_error cd j = Some b ->
      str_le a b)
  /\ (forall i j a b, (i < j)%nat -> nth_error dd i = Some a -> nth_error dd j = Some b ->
      str_le b a)
  /\ (forall i j p r, nth_error cd i = Some p -> nth_error cd j = Some (p ++ String "/" r)%string ->
      (i < j)%nat)
  /\ (forall i j p r, nth_error dd i = Some (p ++ String "/" r)%string -> nth_error dd j = Some p ->
      (i < j)%nat).
Proof.
  cbv zeta. unfold create_patch.
  destruct (create_patch_ops_shape blake3 (compute_diff blake3) old new)
    as (cd & adds & mods & fd & dd & ->).
  destruct (ops_shape_order cd fd dd adds mods) as (Hrank & Hcd & Hdd).
  cbv zeta in Hrank, Hcd, Hdd. rewrite Hcd, Hdd.
  pose proof (sort_strings_ss cd) as Scd.
  pose proof (ss_rev _ _ (sort_strings_ss dd)) as Sdd.
  split; [|split; [|split; [|split]]].
  - intros i j oi oj. apply (ss_nth _ _ Hrank).
  - intros i j a b. apply (ss_nth _ _ Scd).
  - intros i j a b. apply (ss_nth _ _ Sdd).
  - apply sorted_parent_first. exact Scd.
  - apply sorted_child_first. exact Sdd.
Qed.

(** C8: when a ModifyFile operation is emitted for a path whose new file
    has an extension of the incompressible set, its diff is the single
    chunk [Insert] of the whole new file; the operation is the same
    whatever block differ [create_patch] is given, so the differ is not
    used for that file. *)
Theorem incompressible_modify_single_insert (blake3 : list byte -> list byte)
  (old new : list DirEntry) (p : string) (chunks : list DiffChunk) (h : list byte)
  (en : DirEntry) :
  In (ModifyFile p chunks h) (operations (fst (create_patch blake3 old new))) ->
  entry_lookup new p = Some en ->
  is_incompressible (full_path en) = true ->
  chunks = [Insert (contents en)]
  /\ (forall differ, In (ModifyFile p chunks h)
                        (operations (fst (create_patch_with blake3 differ old new)))).
Proof.
  intros Hin Hen Hinc. unfold create_patch in Hin.
  apply modify_in_ops in Hin as (eo & en' & Hpair & Hd).
  destruct (files_maybe_modified_in old new eo en' Hpair) as (q & Hq1 & Hq2 & _ & _).
  assert (Hp : q = p).
  { unfold diff_one in Hd. cbn [mk_diff_input rel_path] in Hd.
    destruct (_ && _); [discriminate|]. injection Hd as Hp _ _.
    rewrite <- Hp. symmetry. eapply entry_lookup_path. exact Hq1. }
  subst q. rewrite Hen in Hq2. injection Hq2 as <-.
  assert (Hindep : forall differ,
            diff_one blake3 differ (mk_diff_input (eo, en))
            = diff_one blake3 (compute_diff blake3) (mk_diff_input (eo, en))).
  { intros differ. unfold diff_one. cbn [mk_diff_input new_path]. rewrite Hinc. reflexivity. }
  split.
  - unfold diff_one in Hd. cbn [mk_diff_input new_path new_data rel_path] in Hd.
    rewrite Hinc in Hd. destruct (_ && _); [discriminate|].
    injection Hd as _ <- _. reflexivity.
  - intros differ. apply modify_in_ops. exists eo, en. split; [exact Hpair|].
    rewrite Hindep. exact Hd.
Qed.

Lemma incompressible_modify_single_insert_witness :
  let old := [mkDirEntry "a.png" File "/old/a.png" [Byte.x01]] in
  let new := [mkDirEntry "a.png" File "/new/a.png" [Byte.x02; Byte.x03]] in
  let en := mkDirEntry "a.png" File "/new/a.png" [Byte.x02; Byte.x03] in
  In (ModifyFile "a.png" [Insert [Byte.x02; Byte.x03]] [Byte.x02; Byte.x03])
     (operations (fst (create_patch (fun l => l) old new)))
  /\ entry_lookup new "a.png" = Some en
  /\ is_incompressible (full_path en) = true
  /\ ([Insert [Byte.x02; Byte.x03]] = [Insert (contents en)]
      /\ (forall differ, In (ModifyFile "a.png" [Insert [Byte.x02; Byte.x03]] [Byte.x02; Byte.x03])
                            (operations (fst (create_patch_with (fun l => l) differ old new))))).
Proof.
  cbv zeta.
  assert (H1 : In (ModifyFile "a.png" [Insert [Byte.x02; Byte.x03]] [Byte.x02; Byte.x03])
     (operations (fst (create_patch (fun l => l)
        [mkDirEntry "a.png" File "/old/a.png" [Byte.x01]]
        [mkDirEntry "a.png" File "/new/a.png" [Byte.x02; Byte.x03]]))))
    by (vm_compute; left; reflexivity).
  assert (H2 : entry_lookup [mkDirEntry "a.png" File "/new/a.png" [Byte.x02; Byte.x03]] "a.png"
               = Some (mkDirEntry "a.png" File "/new/a.png" [Byte.x02; Byte.x03]))
    by reflexivity.
  assert (H3 : is_incompressible (full_path (mkDirEntry "a.png" File "/new/a.png"
                                                        [Byte.x02; Byte.x03])) = true)
    by (vm_compute; reflexivity).
  split; [exact H1|]. split; [exact H2|]. split; [exact H3|].
  exact (incompressible_modify_single_insert (fun l => l) _ _ _ _ _ _ H1 H2 H3).
Defined.

(** C9: for a path whose old and new entries have byte-identical contents,
    [create_patch] emits no ModifyFile operation, and the [files_modified]
    counter is the number of ModifyFile operations emitted. *)
Theorem identical_file_no_modify (blake3 : list byte -> list byte)
  (old new : list DirEntry) (p : string) (eo en : DirEntry) :
  entry_lookup old p = Some eo -> entry_lookup new p = Some en ->
  contents eo = contents en ->
  (forall chunks h, ~ In (ModifyFile p chunks h) (operations (fst (create_patch blake3 old new))))
  /\ files_modified (snd (create_patch blake3 old new))
     = length (filter is_modify_file (operations (fst (create_patch blake3 old new)))).
Proof.
  intros Heo Hen Hc. split; [|apply files_modified_count].
  intros chunks h Hin. unfold create_patch in Hin.
  apply modify_in_ops in Hin as (eo' & en' & Hpair & Hd).
  destruct (files_maybe_modified_in old new eo' en' Hpair) as (q & Hq1 & Hq2 & K1 & K2).
  unfold diff_one in Hd. cbn [mk_diff_input rel_path sizes_differ old_data new_data] in Hd.
  destruct (_ && _) eqn:E; [discriminate|].
  injection Hd as Hp _ _.
  assert (q = p) as -> by (rewrite <- Hp; symmetry; eapply entry_lookup_path; exact Hq1).
  rewrite Heo in Hq1. injection Hq1 as <-. rewrite Hen in Hq2. injection Hq2 as <-.
  unfold entry_size in E. rewrite K1, K2, Hc, N.eqb_refl in E.
  cbn [negb andb] in E. rewrite (proj2 (bytes_eqb_true _ _) eq_refl) in E. discriminate.
Qed.

Lemma identical_file_no_modify_witness :
  let old := [mkDirEntry "f.txt" File "/old/f.txt" [Byte.x01; Byte.x02]] in
  let new := [mkDirEntry "f.txt" File "/new/f.txt" [Byte.x01; Byte.x02]] in
  entry_lookup old "f.txt" = Some (mkDirEntry "f.txt" File "/old/f.txt" [Byte.x01; Byte.x02])
  /\ entry_lookup new "f.txt" = Some (mkDirEntry "f.txt" File "/new/f.txt" [Byte.x01; Byte.x02])
  /\ contents (mkDirEntry "f.txt" File "/old/f.txt" [Byte.x01; Byte.x02])
     = contents (mkDirEntry "f.txt" File "/new/f.txt" [Byte.x01; Byte.x02])
  /\ ((forall chunks h, ~ In (ModifyFile "f.txt" chunks h)
                          (operations (fst (create_patch (fun l => l) old new))))
      /\ files_modified (snd (create_patch (fun l => l) old new))
         = length (filter is_modify_file (operations (fst (create_patch (fun l => l) old new))))).
Proof.
  cbv zeta.
  assert (H1 : entry_lookup [mkDirEntry "f.txt" File "/old/f.txt" [Byte.x01; Byte.x02]] "f.txt"
               = Some (mkDirEntry "f.txt" File "/old/f.txt" [Byte.x01; Byte.x02])) by reflexivity.
  assert (H2 : entry_lookup [mkDirEntry "f.txt" File "/new/f.txt" [Byte.x01; Byte.x02]] "f.txt"
               = Some (mkDirEntry "f.txt" File "/new/f.txt" [Byte.x01; Byte.x02])) by reflexivity.
  assert (H3 : contents (mkDirEntry "f.txt" File "/old/f.txt" [Byte.x01; Byte.x02])
               = contents (mkDirEntry "f.txt" File "/new/f.txt" [Byte.x01; Byte.x02]))
    by reflexivity.
  split; [exact H1|]. split; [exact H2|]. split; [exact H3|].
  exact (identical_file_no_modify (fun l => l) _ _ _ _ _ H1 H2 H3).
Defined.

(* ================================================================== *)
(** * Further properties of the code *)

(** ** binary_patch.rs *)

Lemma fold_apply_chunk_acc (old : list byte) (cs : list DiffChunk) :
  forall acc, fold_left (apply_chunk old) cs (Some acc)
  = option_map (app acc) (fold_left (apply_chunk old) cs (Some [])).
Proof.
  induction cs as [|c cs IH]; intros acc; simpl.
  - rewrite app_nil_r. reflexivity.
  - destruct c as [off len|data].
    + destruct (N.to_nat off + N.to_nat len <=? length old)%nat.
      * rewrite (IH (acc ++ _)), (IH (slice _ _ _)).
        destruct (fold_left _ cs (Some [])); simpl; [rewrite app_assoc|]; reflexivity.
      * rewrite !fold_apply_chunk_none. reflexivity.
    + rewrite (IH (acc ++ data)), (IH data).
      destruct (fold_left _ cs (Some [])); simpl; [rewrite app_assoc|]; reflexivity.
Qed.

(** Chunk lists compose: the model of [apply_diff] on a concatenation. *)
Lemma apply_diff_app_eq (old : list byte) (c1 c2 : list DiffChunk) :
  apply_diff old (c1 ++ c2)
  = match apply_diff old c1, apply_diff old c2 with
    | Some a, Some b => Some (a ++ b)
    | _, _ => None
    end.
Proof.
  unfold apply_diff. rewrite fold_left_app.
  destruct (fold_left (apply_chunk old) c1 (Some [])) as [a|].
  - rewrite fold_apply_chunk_acc. destruct (fold_left (apply_chunk old) c2 (Some [])); reflexivity.
  - rewrite fold_apply_chunk_none. destruct (fold_left (apply_chunk old) c2 (Some [])); reflexivity.
Qed.

(** X1: when [apply_diff] returns on a concatenation [c1 ++ c2] of
    chunk lists, each part alone returns as well, and the output is the
    output of [c1] followed by the output of [c2]. *)
Theorem apply_diff_app (old out : list byte) (c1 c2 : list DiffChunk) :
  apply_diff old (c1 ++ c2) = Some out ->
  exists a b, apply_diff old c1 = Some a /\ apply_diff old c2 = Some b /\ out = a ++ b.
Proof.
  rewrite apply_diff_app_eq.
  destruct (apply_diff old c1) as [a|], (apply_diff old c2) as [b|]; try discriminate.
  intros H. injection H as <-. exists a, b. auto.
Qed.

Lemma apply_diff_app_witness :
  exists a b, apply_diff [Byte.x41; Byte.x42; Byte.x43] [Copy 0 1] = Some a
    /\ apply_diff [Byte.x41; Byte.x42; Byte.x43] [Insert [Byte.x44]; Copy 2 1] = Some b
    /\ [Byte.x41; Byte.x44; Byte.x43] = a ++ b.
Proof.
  apply (apply_diff_app [Byte.x41; Byte.x42; Byte.x43] [Byte.x41; Byte.x44; Byte.x43]
           [Copy 0 1] [Insert [Byte.x44]; Copy 2 1]).
  reflexivity.
Defined.

Lemma fold_estimated (cs : list DiffChunk) :
  forall acc, fold_left (fun acc c => (acc + chunk_len c)%N) cs acc
  = (acc + estimated_size cs)%N.
Proof.
  unfold estimated_size. induction cs as [|c cs IH]; intros acc; cbn [fold_left]; [lia|].
  rewrite (IH (acc + chunk_len c)%N), (IH (0 + chunk_len c)%N). lia.
Qed.

Lemma fold_apply_chunk_length (old : list byte) (cs : list DiffChunk) :
  forall acc out, fold_left (apply_chunk old) cs (Some acc) = Some out ->
  N.of_nat (length out) = (N.of_nat (length acc) + estimated_size cs)%N.
Proof.
  induction cs as [|c cs IH]; intros acc out H; simpl in H.
  - injection H as <-. unfold estimated_size. simpl. lia.
  - unfold estimated_size. simpl. rewrite fold_estimated.
    destruct c as [off len|data].
    + destruct (N.to_nat off + N.to_nat len <=? length old)%nat eqn:E.
      * apply Nat.leb_le in E. rewrite (IH _ _ H). cbn [chunk_len].
        rewrite length_app, length_slice. lia.
      * rewrite fold_apply_chunk_none in H. discriminate.
    + rewrite (IH _ _ H). cbn [chunk_len]. rewrite length_app. lia.
Qed.

(** X2: when [apply_diff] succeeds, the result has exactly
    [estimated_size] bytes: the capacity it reserves is exact. *)
Theorem apply_diff_length (old out : list byte) (cs : list DiffChunk) :
  apply_diff old cs = Some out -> N.of_nat (length out) = estimated_size cs.
Proof.
  intros H. rewrite (fold_apply_chunk_length old cs [] out H). simpl. lia.
Qed.

Lemma apply_diff_length_witness :
  apply_diff [Byte.x41; Byte.x42; Byte.x43] [Copy 1 2; Insert [Byte.x44]]
    = Some [Byte.x42; Byte.x43; Byte.x44]
  /\ N.of_nat (length [Byte.x42; Byte.x43; Byte.x44])
    = estimated_size [Copy 1 2; Insert [Byte.x44]].
Proof.
  assert (H : apply_diff [Byte.x41; Byte.x42; Byte.x43] [Copy 1 2; Insert [Byte.x44]]
              = Some [Byte.x42; Byte.x43; Byte.x44]) by reflexivity.
  split; [exact H|]. exact (apply_diff_length _ _ _ H).
Defined.

(** X3: when [apply_diff] returns, every [Copy] chunk lies inside
    [old]: the function cannot return normally when a [Copy] reaches past
    the end of [old] (it panics on the slice, or fails earlier). *)
Theorem apply_diff_copies_in_range (old out : list byte) (cs : list DiffChunk) :
  apply_diff old cs = Some out ->
  forall off len, In (Copy off len) cs -> (N.to_nat off + N.to_nat len <= length old)%nat.
Proof.
  intros H off len Hin. exact (fold_apply_chunk_copy_in_range old cs _ _ H off len Hin).
Qed.

Lemma apply_diff_copies_in_range_witness :
  apply_diff [Byte.x41; Byte.x42; Byte.x43] [Insert [Byte.x44]; Copy 1 2]
    = Some [Byte.x44; Byte.x42; Byte.x43]
  /\ (N.to_nat 1 + N.to_nat 2 <= length [Byte.x41; Byte.x42; Byte.x43])%nat.
Proof.
  assert (H : apply_diff [Byte.x41; Byte.x42; Byte.x43] [Insert [Byte.x44]; Copy 1 2]
              = Some [Byte.x44; Byte.x42; Byte.x43]) by reflexivity.
  split; [exact H|].
  apply (apply_diff_copies_in_range _ _ _ H). right. left. reflexivity.
Defined.


(** ** rolling_hash.rs *)

Lemma digest_pack (h : RollingHash) :
  0 <= rh_a h < 2 ^ 16 -> 0 <= rh_b h < 2 ^ 16 ->
  digest h = rh_b h * 2 ^ 16 + rh_a h.
Proof.
  intros Ha Hb. unfold digest.
  assert (Hdis : Z.land (Z.shiftl (rh_b h) 16) (rh_a h) = 0).
  { apply Z.bits_inj'. intros n Hn. rewrite Z.land_spec, Z.bits_0.
    destruct (Z.lt_ge_cases n 16) as [Hl|Hl].
    - rewrite Z.shiftl_spec_low by lia. reflexivity.
    - rewrite <- (Z.mod_small (rh_a h) (2 ^ 16)) by lia.
      rewrite Z.mod_pow2_bits_high by lia. apply andb_false_r. }
  pose proof (Z.add_lor_land (Z.shiftl (rh_b h) 16) (rh_a h)) as Hadd.
  rewrite Hdis, Z.add_0_r, Z.shiftl_mul_pow2 in Hadd by lia.
  rewrite Z.shiftl_mul_pow2 by lia. rewrite Hadd.
  change (2 ^ 32 - 1) with (Z.ones 32). rewrite Z.land_ones by lia.
  apply Z.mod_small. lia.
Qed.

Lemma rotate_ranges (h : RollingHash) (o n : byte) :
  0 <= rh_a (RollingHash_rotate h o n) < MOD_ADLER
  /\ 0 <= rh_b (RollingHash_rotate h o n) < MOD_ADLER
  /\ rh_window_size (RollingHash_rotate h o n) = rh_window_size h.
Proof.
  unfold RollingHash_rotate. cbn [rh_a rh_b rh_window_size].
  split; [apply Z.mod_pos_bound; unfold MOD_ADLER; lia|].
  split; [apply Z.mod_pos_bound; unfold MOD_ADLER; lia|reflexivity].
Qed.

(** X4: after [init] and any sequence of [rotate]s, the two sums stay in
    [[0, 65521)], the window size is the initial length as a [u32], and
    [digest()] packs them losslessly as [b * 65536 + a]. *)
Theorem rolling_state_invariant (data : list byte) (rots : list (byte * byte)) :
  let h := fold_left (fun h '(o, n) => RollingHash_rotate h o n) rots
             (RollingHash_init data) in
  0 <= rh_a h < MOD_ADLER /\ 0 <= rh_b h < MOD_ADLER
  /\ rh_window_size h = u32 (Z.of_nat (length data))
  /\ digest h = rh_b h * 65536 + rh_a h.
Proof.
  cbv zeta.
  assert (Hinit : 0 <= rh_a (RollingHash_init data) < MOD_ADLER
                  /\ 0 <= rh_b (RollingHash_init data) < MOD_ADLER
                  /\ rh_window_size (RollingHash_init data) = u32 (Z.of_nat (length data))).
  { unfold RollingHash_init. destruct (fold_left init_step data (1, 0)) as [a b].
    cbn [rh_a rh_b rh_window_size].
    split; [apply Z.mod_pos_bound; unfold MOD_ADLER; lia|].
    split; [apply Z.mod_pos_bound; unfold MOD_ADLER; lia|reflexivity]. }
  revert Hinit. generalize (RollingHash_init data) as h0.
  induction rots as [|[o n] rots IH]; intros h0 (Ha & Hb & Hw); simpl.
  - split; [exact Ha|]. split; [exact Hb|]. split; [exact Hw|].
    rewrite digest_pack by (unfold MOD_ADLER in *; lia). reflexivity.
  - apply IH. destruct (rotate_ranges h0 o n) as (Ha' & Hb' & Hw').
    split; [exact Ha'|]. split; [exact Hb'|]. rewrite Hw'. exact Hw.
Qed.

(** X5: for up to [2^28] bytes the [u64] accumulators of [init] do not
    wrap, and [init] computes the Adler sums: [a = (1 + Σ bᵢ) mod 65521]
    and [b = (n + Σ (n − i)·bᵢ) mod 65521] over the bytes [b₀ … bₙ₋₁]. *)
Theorem init_adler_sums (data : list byte) :
  Z.of_nat (length data) <= 2 ^ 28 ->
  RollingHash_init data
  = mkRollingHash ((1 + bsum data) mod MOD_ADLER)
      ((Z.of_nat (length data) + wsum data) mod MOD_ADLER)
      (u32 (Z.of_nat (length data))).
Proof. apply init_closed. Qed.

Lemma init_adler_sums_witness :
  Z.of_nat (length [Byte.x61; Byte.x62; Byte.x63]) <= 2 ^ 28
  /\ RollingHash_init [Byte.x61; Byte.x62; Byte.x63]
    = mkRollingHash ((1 + bsum [Byte.x61; Byte.x62; Byte.x63]) mod MOD_ADLER)
        ((Z.of_nat (length [Byte.x61; Byte.x62; Byte.x63])
          + wsum [Byte.x61; Byte.x62; Byte.x63]) mod MOD_ADLER)
        (u32 (Z.of_nat (length [Byte.x61; Byte.x62; Byte.x63]))).
Proof.
  assert (H : Z.of_nat (length [Byte.x61; Byte.x62; Byte.x63]) <= 2 ^ 28) by (simpl; lia).
  split; [exact H|]. exact (init_adler_sums _ H).
Defined.

(** ** binary_diff.rs *)

(** X6: a new buffer shorter than one block is never matched: the diff is
    the single [Insert] of the whole new buffer, even when it is empty,
    except that an empty old and an empty new buffer give no chunk. *)
Theorem compute_diff_short_new (blake3 : list byte -> list byte) (old new : list byte) :
  (length new < BLOCK_SIZE)%nat ->
  compute_diff blake3 old new
  = match old, new with [], [] => [] | _, _ => [Insert new] end.
Proof.
  intros Hn. destruct old as [|o old]; [destruct new; reflexivity|].
  cbn [compute_diff]. unfold match_blocks.
  replace (length new <? BLOCK_SIZE)%nat with true by (symmetry; apply Nat.ltb_lt; exact Hn).
  destruct new; reflexivity.
Qed.

Lemma compute_diff_short_new_witness :
  (length (@nil byte) < BLOCK_SIZE)%nat
  /\ compute_diff (fun l => l) [Byte.x01; Byte.x02] []
    = match [Byte.x01; Byte.x02], @nil byte with [], [] => [] | _, _ => [Insert []] end.
Proof.
  assert (H : (length (@nil byte) < BLOCK_SIZE)%nat) by (simpl; pose proof BLOCK_SIZE_pos; lia).
  split; [exact H|]. exact (compute_diff_short_new (fun l => l) _ _ H).
Defined.

Lemma no_adj_cons (x : DiffChunk) (l : list DiffChunk) :
  no_adjacent_inserts (x :: l)
  = match x, l with
    | Insert _, Insert _ :: _ => false
    | _, _ => no_adjacent_inserts l
    end.
Proof. destruct x, l as [|[] l]; reflexivity. Qed.

Lemma no_adj_snoc_copy (l : list DiffChunk) (off len : N) :
  no_adjacent_inserts l = true -> no_adjacent_inserts (l ++ [Copy off len]) = true.
Proof.
  induction l as [|x l IH]; intros H; [reflexivity|].
  cbn [app]. rewrite no_adj_cons in H |- *.
  destruct x as [o n|d]; [apply IH, H|].
  destruct l as [|y l]; [reflexivity|].
  destruct y; [|discriminate]. apply IH, H.
Qed.

Lemma no_adj_snoc_insert (l : list DiffChunk) (d : list byte) :
  no_adjacent_inserts l = true -> (l = [] \/ ends_with_copy l) ->
  no_adjacent_inserts (l ++ [Insert d]) = true.
Proof.
  induction l as [|x l IH]; intros H He; [reflexivity|].
  destruct He as [He|(l0 & o & n & He)]; [discriminate|].
  assert (Hl : l = [] \/ ends_with_copy l).
  { destruct l0 as [|z l0]; simpl in He; injection He as -> ->; [left; reflexivity|].
    right. exists l0, o, n. reflexivity. }
  cbn [app]. rewrite no_adj_cons in H |- *.
  destruct x as [o' n'|d']; [apply IH; assumption|].
  destruct l as [|y l].
  - destruct Hl as [_|(l1 & o1 & n1 & E)]; [|destruct l1; discriminate].
    destruct l0 as [|z l0]; simpl in He; [discriminate|].
    injection He as _ E. destruct l0; discriminate.
  - destruct y; [|discriminate]. apply IH; assumption.
Qed.

Lemma find_candidate_some (old : list byte) (sigs : list BlockSignature) (st : list byte)
  (cands : list nat) (off len : N) :
  find_candidate old sigs st cands = Some (off, len) ->
  exists idx sig, nth_error sigs idx = Some sig /\ off = sig_offset sig
    /\ N.to_nat len = (Nat.min (N.to_nat off + BLOCK_SIZE) (length old) - N.to_nat off)%nat.
Proof.
  induction cands as [|c cands IH]; intros H; [discriminate|]. simpl in H.
  destruct (nth_error sigs c) as [sig|] eqn:E; [|apply IH, H].
  destruct (bytes_eqb (strong_hash sig) st); [|apply IH, H].
  injection H as <- <-. exists c, sig. repeat split; [exact E|]. apply Nat2N.id.
Qed.

Lemma find_match_chunk_ok (blake3 : list byte -> list byte) (d : Z) (w old : list byte)
  (table : HashTable) (off len : N) :
  find_match blake3 d w old table (build_signatures blake3 old) = Some (off, len) ->
  chunk_ok old (Copy off len).
Proof.
  unfold find_match. destruct (table_get table d) as [cands|]; [|discriminate].
  intros H. apply find_candidate_some in H as (idx & sig & Hn & -> & Hlen).
  destruct (build_signatures_nth blake3 old idx sig Hn) as (Ho & Hlt & _ & _).
  cbn [chunk_ok]. split; [exists idx; exact Ho|]. split; [exact Hlt|]. lia.
Qed.

Lemma match_loop_inv (blake3 : list byte -> list byte) (old new : list byte) (table : HashTable) :
  forall fuel pos rolling buf chunks,
  loop_chunks_inv old chunks ->
  let '(pos', buf', chunks') :=
    match_loop blake3 old new table (build_signatures blake3 old) fuel pos rolling buf chunks in
  loop_chunks_inv old chunks'.
Proof.
  induction fuel as [|fuel IH]; intros pos rolling buf chunks Hinv; [exact Hinv|].
  cbn [match_loop].
  destruct (length new <? pos + BLOCK_SIZE)%nat; [exact Hinv|].
  destruct (find_match blake3 _ _ old table (build_signatures blake3 old)) as [[off len]|] eqn:Hm;
    [|apply IH; exact Hinv].
  apply IH. destruct Hinv as (Hf & Ha & He).
  pose proof (find_match_chunk_ok _ _ _ _ _ _ _ Hm) as Hc.
  assert (H1 : Forall (chunk_ok old) (match buf with [] => chunks | _ => chunks ++ [Insert buf] end)
               /\ no_adjacent_inserts (match buf with [] => chunks | _ => chunks ++ [Insert buf] end) = true).
  { destruct buf as [|b bs]; [split; assumption|]. split.
    - apply Forall_app. split; [exact Hf|]. constructor; [discriminate|constructor].
    - apply no_adj_snoc_insert; assumption. }
  destruct H1 as [H1f H1a]. split; [|split].
  - apply Forall_app. split; [exact H1f|]. constructor; [exact Hc|constructor].
  - apply no_adj_snoc_copy. exact H1a.
  - right. eexists _, off, len. reflexivity.
Qed.

Lemma match_blocks_inv (blake3 : list byte -> list byte) (old new : list byte) :
  new <> [] ->
  let cs := match_blocks blake3 old new (build_hash_table (build_signatures blake3 old))
              (build_signatures blake3 old) in
  Forall (chunk_ok old) cs /\ no_adjacent_inserts cs = true.
Proof.
  intros Hne. cbv zeta. unfold match_blocks.
  destruct (length new <? BLOCK_SIZE)%nat.
  { split; [constructor; [exact Hne|constructor]|reflexivity]. }
  pose proof (match_loop_inv blake3 old new (build_hash_table (build_signatures blake3 old))
                (S (length new)) 0 (RollingHash_init (slice new 0 BLOCK_SIZE)) [] [])
    as Hl.
  destruct (match_loop _ _ _ _ _ _ _ _ _ _) as [[pos buf] chunks].
  destruct Hl as (Hf & Ha & He); [split; [constructor|split; [reflexivity|left; reflexivity]]|].
  match goal with |- context [match ?b with [] => _ | _ :: _ => _ end] => destruct b as [|y ys] eqn:Eb end.
  - split; assumption.
  - split.
    + apply Forall_app. split; [exact Hf|]. constructor; [discriminate|constructor].
    + apply no_adj_snoc_insert; assumption.
Qed.

(** X7: every [Copy] chunk of a diff refers to a whole block of [old]: its
    offset is a multiple of 4096 inside [old], and it ends at the end of
    that block or, for the last block, at the end of [old].  This holds
    for any strong hash, collisions included. *)
Theorem compute_diff_copy_blocks (blake3 : list byte -> list byte) (old new : list byte)
  (off len : N) :
  In (Copy off len) (compute_diff blake3 old new) ->
  (exists k, N.to_nat off = (k * BLOCK_SIZE)%nat) /\ (N.to_nat off < length old)%nat
  /\ (N.to_nat off + N.to_nat len = Nat.min (N.to_nat off + BLOCK_SIZE) (length old))%nat.
Proof.
  intros Hin. destruct old as [|o old'].
  { destruct new; simpl in Hin; [contradiction|]. destruct Hin as [H|[]]; discriminate. }
  destruct new as [|n new'].
  { cbn [compute_diff] in Hin. unfold match_blocks in Hin.
    destruct (length (@nil byte) <? BLOCK_SIZE)%nat eqn:E.
    - destruct Hin as [H|[]]; discriminate.
    - apply Nat.ltb_ge in E. pose proof BLOCK_SIZE_pos. simpl in E. lia. }
  destruct (match_blocks_inv blake3 (o :: old') (n :: new') ltac:(discriminate)) as [Hf _].
  rewrite Forall_forall in Hf. exact (Hf _ Hin).
Qed.

Lemma compute_diff_copy_blocks_witness :
  In (Copy 0 (N.of_nat BLOCK_SIZE))
     (compute_diff (fun l => l) (repeat Byte.x07 BLOCK_SIZE) (repeat Byte.x07 BLOCK_SIZE))
  /\ ((exists k, N.to_nat 0 = (k * BLOCK_SIZE)%nat)
      /\ (N.to_nat 0 < length (repeat Byte.x07 BLOCK_SIZE))%nat
      /\ (N.to_nat 0 + N.to_nat (N.of_nat BLOCK_SIZE)
          = Nat.min (N.to_nat 0 + BLOCK_SIZE) (length (repeat Byte.x07 BLOCK_SIZE)))%nat).
Proof.
  assert (H : In (Copy 0 (N.of_nat BLOCK_SIZE))
     (compute_diff (fun l => l) (repeat Byte.x07 BLOCK_SIZE) (repeat Byte.x07 BLOCK_SIZE)))
    by (vm_compute; left; reflexivity).
  split; [exact H|]. exact (compute_diff_copy_blocks (fun l => l) _ _ _ _ H).
Defined.

(** X8: a diff contains an empty [Insert] exactly when [old] is non-empty
    and [new] is empty (the result is then [[Insert []]]); every other
    [Insert] carries at least one byte. *)
Theorem compute_diff_empty_insert (blake3 : list byte -> list byte) (old new : list byte) :
  In (Insert []) (compute_diff blake3 old new) <-> old <> [] /\ new = [].
Proof.
  split.
  - intros Hin. destruct old as [|o old'].
    { destruct new as [|n new']; simpl in Hin; [contradiction|]. destruct Hin as [H|[]]; discriminate. }
    split; [discriminate|].
    destruct new as [|n new']; [reflexivity|exfalso].
    destruct (match_blocks_inv blake3 (o :: old') (n :: new') ltac:(discriminate)) as [Hf _].
    rewrite Forall_forall in Hf. exact (Hf _ Hin eq_refl).
  - intros [Ho ->]. destruct old as [|o old']; [contradiction|].
    cbn [compute_diff]. unfold match_blocks.
    replace (length (@nil byte) <? BLOCK_SIZE)%nat with true
      by (symmetry; apply Nat.ltb_lt; exact BLOCK_SIZE_pos).
    left. reflexivity.
Qed.

(** X9: a diff never has two [Insert] chunks in a row: unmatched bytes are
    gathered into one [Insert] up to the next [Copy]. *)
Theorem compute_diff_no_adjacent_inserts (blake3 : list byte -> list byte) (old new : list byte) :
  no_adjacent_inserts (compute_diff blake3 old new) = true.
Proof.
  destruct old as [|o old']; [destruct new; reflexivity|].
  destruct new as [|n new'].
  { cbn [compute_diff]. unfold match_blocks.
    replace (length (@nil byte) <? BLOCK_SIZE)%nat with true
      by (symmetry; apply Nat.ltb_lt; exact BLOCK_SIZE_pos).
    reflexivity. }
  exact (proj2 (match_blocks_inv blake3 (o :: old') (n :: new') ltac:(discriminate))).
Qed.

Lemma filter_map_const {A : Type} (P : PatchOp -> bool) (f : A -> PatchOp) (l : list A) (b : bool) :
  (forall x, P (f x) = b) -> filter P (map f l) = if b then map f l else [].
Proof.
  intros Hf. induction l as [|x l IH]; [destruct b; reflexivity|].
  cbn [map filter]. rewrite Hf, IH. destruct b; reflexivity.
Qed.

Lemma create_summary_filter_counts (blake3 : list byte -> list byte)
  (differ : list byte -> list byte -> list DiffChunk) (old new : list DirEntry) :
  let '(m, s) := create_patch_with blake3 differ old new in
  dirs_created s = length (filter is_create_dir (operations m))
  /\ files_added s = length (filter is_add_file (operations m))
  /\ files_modified s = length (filter is_modify_file (operations m))
  /\ files_deleted s = length (filter is_delete_file (operations m))
  /\ dirs_deleted s = length (filter is_delete_dir (operations m)).
Proof.
  unfold create_patch_with.
  cbn [operations dirs_created files_added files_modified files_deleted dirs_deleted].
  set (cd := sort_dirs_parent_first _). set (adds := map _ (classify_new old new File)).
  set (mods := flat_map _ _). set (fd := classify_old old new File).
  set (dd := sort_dirs_deepest_first _).
  set (fa := fun '(p, d, h) => AddFile p d h). set (fm := fun '(p, c, h) => ModifyFile p c h).
  repeat split; rewrite !filter_app.
  - rewrite (filter_map_const _ CreateDir _ true), (filter_map_const _ fa _ false),
      (filter_map_const _ fm _ false), (filter_map_const _ DeleteFile _ false),
      (filter_map_const _ DeleteDir _ false) by (try intros [[? ?] ?]; reflexivity).
    rewrite !app_nil_r, length_map. reflexivity.
  - rewrite (filter_map_const _ CreateDir _ false), (filter_map_const _ fa _ true),
      (filter_map_const _ fm _ false), (filter_map_const _ DeleteFile _ false),
      (filter_map_const _ DeleteDir _ false) by (try intros [[? ?] ?]; reflexivity).
    rewrite !app_nil_r, app_nil_l, length_map. reflexivity.
  - rewrite (filter_map_const _ CreateDir _ false), (filter_map_const _ fa _ false),
      (filter_map_const _ fm _ true), (filter_map_const _ DeleteFile _ false),
      (filter_map_const _ DeleteDir _ false) by (try intros [[? ?] ?]; reflexivity).
    rewrite !app_nil_r, !app_nil_l, length_map. reflexivity.
  - rewrite (filter_map_const _ CreateDir _ false), (filter_map_const _ fa _ false),
      (filter_map_const _ fm _ false), (filter_map_const _ DeleteFile _ true),
      (filter_map_const _ DeleteDir _ false) by (try intros [[? ?] ?]; reflexivity).
    rewrite !app_nil_r, !app_nil_l, length_map. reflexivity.
  - rewrite (filter_map_const _ CreateDir _ false), (filter_map_const _ fa _ false),
      (filter_map_const _ fm _ false), (filter_map_const _ DeleteFile _ false),
      (filter_map_const _ DeleteDir _ true) by (try intros [[? ?] ?]; reflexivity).
    rewrite !app_nil_l, length_map. reflexivity.
Qed.

(** X10: the summary returned by [create_patch] counts the operations of
    its manifest: [dirs_created] is the number of [CreateDir], and so on
    for each kind. *)
Theorem create_patch_summary_counts (blake3 : list byte -> list byte)
  (differ : list byte -> list byte -> list DiffChunk) (old new : list DirEntry) :
  let '(m, s) := create_patch_with blake3 differ old new in
  dirs_created s = length (filter is_create_dir (operations m))
  /\ files_added s = length (filter is_add_file (operations m))
  /\ files_modified s = length (filter is_modify_file (operations m))
  /\ files_deleted s = length (filter is_delete_file (operations m))
  /\ dirs_deleted s = length (filter is_delete_dir (operations m)).
Proof. exact (create_summary_filter_counts blake3 differ old new). Qed.

Lemma str_mem_In (s : string) (l : list string) : str_mem s l = true <-> In s l.
Proof.
  unfold str_mem. rewrite existsb_exists. split.
  - intros [x [Hx E]]. apply String.eqb_eq in E. subst. exact Hx.
  - intros H. exists s. split; [exact H|apply String.eqb_refl].
Qed.

Lemma dedup_strings_In (x : string) (l : list string) : In x (dedup_strings l) <-> In x l.
Proof.
  induction l as [|y l IH]; [reflexivity|]. simpl.
  destruct (str_mem y l) eqn:E; simpl; rewrite IH; [|tauto].
  apply str_mem_In in E. split; [tauto|]. intros [<-|H]; assumption.
Qed.

Lemma sort_strings_In (x : string) (l : list string) : In x (sort_strings l) <-> In x l.
Proof.
  induction l as [|y l IH]; [reflexivity|]. simpl.
  rewrite insert_sorted_in. simpl. rewrite IH. reflexivity.
Qed.

Lemma path_set_In (p : string) (es : list DirEntry) :
  In p (path_set es) <-> In p (map relative_path es).
Proof. unfold path_set. rewrite sort_strings_In, dedup_strings_In. reflexivity. Qed.

Lemma entry_lookup_In (es : list DirEntry) (p : string) (e : DirEntry) :
  entry_lookup es p = Some e -> In e es.
Proof. unfold entry_lookup. intros H. apply find_some in H as [H _]. apply in_rev, H. Qed.

Lemma entry_lookup_none (es : list DirEntry) (p : string) :
  entry_lookup es p = None <-> ~ In p (map relative_path es).
Proof.
  split.
  - intros H Hin. apply in_map_iff in Hin as [e [<- He]].
    pose proof (find_none _ _ H e (proj1 (in_rev es e) He)) as E.
    cbv beta in E. rewrite String.eqb_refl in E. discriminate.
  - intros Hn. destruct (entry_lookup es p) as [e|] eqn:E; [|reflexivity].
    exfalso. apply Hn. apply in_map_iff. exists e.
    split; [apply (entry_lookup_path _ _ _ E)|apply (entry_lookup_In _ _ _ E)].
Qed.

Lemma entry_lookup_some_in (es : list DirEntry) (p : string) (e : DirEntry) :
  entry_lookup es p = Some e -> In p (path_set es).
Proof.
  intros H. apply path_set_In, in_map_iff. exists e.
  split; [apply (entry_lookup_path _ _ _ H)|apply (entry_lookup_In _ _ _ H)].
Qed.

Lemma path_set_none (es : list DirEntry) (p : string) :
  ~ In p (path_set es) <-> entry_lookup es p = None.
Proof. rewrite path_set_In, entry_lookup_none. reflexivity. Qed.

Lemma set_difference_In (x : string) (a b : list string) :
  In x (set_difference a b) <-> In x a /\ ~ In x b.
Proof.
  unfold set_difference. rewrite filter_In. cbv beta.
  pose proof (str_mem_In x b) as M. destruct (str_mem x b); simpl; intuition discriminate.
Qed.

Lemma set_intersection_In (x : string) (a b : list string) :
  In x (set_intersection a b) <-> In x a /\ In x b.
Proof. unfold set_intersection. rewrite filter_In, str_mem_In. reflexivity. Qed.

Lemma EntryKind_eqb_true (k1 k2 : EntryKind) : EntryKind_eqb k1 k2 = true <-> k1 = k2.
Proof. destruct k1, k2; simpl; split; congruence. Qed.

Lemma classify_new_iff (old new : list DirEntry) (k : EntryKind) (e : DirEntry) :
  In e (classify_new old new k)
  <-> entry_lookup new (relative_path e) = Some e /\ kind e = k
      /\ entry_lookup old (relative_path e) = None.
Proof.
  unfold classify_new. rewrite in_flat_map. split.
  - intros [p [Hp He]]. apply set_difference_In in Hp as [_ Hp].
    destruct (entry_lookup new p) as [e'|] eqn:E; [|destruct He].
    destruct (EntryKind_eqb (kind e') k) eqn:K; [|destruct He].
    destruct He as [<-|[]]. rewrite (entry_lookup_path _ _ _ E).
    apply EntryKind_eqb_true in K. split; [exact E|split; [exact K|]].
    apply path_set_none, Hp.
  - intros (E & K & N). exists (relative_path e). split.
    + apply set_difference_In. split; [apply (entry_lookup_some_in _ _ _ E)|].
      apply path_set_none, N.
    + rewrite E. apply EntryKind_eqb_true in K. rewrite K. left. reflexivity.
Qed.

Lemma classify_old_iff (old new : list DirEntry) (k : EntryKind) (p : string) :
  In p (classify_old old new k)
  <-> exists e, entry_lookup old p = Some e /\ kind e = k /\ entry_lookup new p = None.
Proof.
  unfold classify_old. rewrite in_flat_map. split.
  - intros [q [Hq Hp]]. apply set_difference_In in Hq as [_ Hq].
    destruct (entry_lookup old q) as [e|] eqn:E; [|destruct Hp].
    destruct (EntryKind_eqb (kind e) k) eqn:K; [|destruct Hp].
    destruct Hp as [<-|[]]. exists e. apply EntryKind_eqb_true in K.
    split; [exact E|split; [exact K|apply path_set_none, Hq]].
  - intros (e & E & K & N). exists p. split.
    + apply set_difference_In. split; [apply (entry_lookup_some_in _ _ _ E)|].
      apply path_set_none, N.
    + rewrite E. apply EntryKind_eqb_true in K. rewrite K. left. reflexivity.
Qed.

Lemma files_maybe_modified_iff (old new : list DirEntry) (eo en : DirEntry) :
  In (eo, en) (files_maybe_modified old new)
  <-> entry_lookup old (relative_path eo) = Some eo
      /\ entry_lookup new (relative_path eo) = Some en /\ kind eo = File /\ kind en = File.
Proof.
  split.
  - intros H. destruct (files_maybe_modified_in _ _ _ _ H) as (q & E1 & E2 & K1 & K2).
    rewrite (entry_lookup_path _ _ _ E1). auto.
  - intros (E1 & E2 & K1 & K2). unfold files_maybe_modified. apply in_flat_map.
    exists (relative_path eo). split.
    + apply set_intersection_In.
      split; [apply (entry_lookup_some_in _ _ _ E1)|apply (entry_lookup_some_in _ _ _ E2)].
    + rewrite E1, E2, K1, K2. left. reflexivity.
Qed.

Lemma create_ops_in (blake3 : list byte -> list byte)
  (differ : list byte -> list byte -> list DiffChunk) (old new : list DirEntry) (op : PatchOp) :
  In op (operations (fst (create_patch_with blake3 differ old new)))
  <-> (exists e, op = CreateDir (relative_path e) /\ In e (classify_new old new Dir))
      \/ (exists e, op = AddFile (relative_path e) (contents e) (blake3 (contents e))
                    /\ In e (classify_new old new File))
      \/ (exists eo en p c h, op = ModifyFile p c h
                    /\ In (eo, en) (files_maybe_modified old new)
                    /\ diff_one blake3 differ (mk_diff_input (eo, en)) = Some (p, c, h))
      \/ (exists p, op = DeleteFile p /\ In p (classify_old old new File))
      \/ (exists p, op = DeleteDir p /\ In p (classify_old old new Dir)).
Proof.
  unfold create_patch_with, sort_dirs_parent_first, sort_dirs_deepest_first.
  cbn [fst operations]. rewrite !in_app_iff.
  split; intros [H|[H|[H|[H|H]]]].
  - left. apply in_map_iff in H as [p [<- Hp]]. apply sort_strings_In, in_map_iff in Hp as [e [<- He]].
    exists e. auto.
  - right; left. apply in_map_iff in H as [[[p d] h] [<- Hx]].
    apply in_map_iff in Hx as [e [Ex He]]. injection Ex as <- <- <-. exists e. auto.
  - right; right; left. apply in_map_iff in H as [[[p c] h] [<- Hx]].
    apply in_flat_map in Hx as [i [Hi Hr]]. apply in_map_iff in Hi as [[eo en] [<- Hp]].
    destruct (diff_one blake3 differ (mk_diff_input (eo, en))) as [r|] eqn:Ed; [|destruct Hr].
    destruct Hr as [->|[]]. exists eo, en, p, c, h. auto.
  - right; right; right; left. apply in_map_iff in H as [p [<- Hp]]. exists p. auto.
  - right; right; right; right. apply in_map_iff in H as [p [<- Hp]].
    rewrite <- in_rev, sort_strings_In in Hp. exists p. split; [reflexivity|exact Hp].
  - destruct H as [e [-> He]]. left. apply in_map. apply sort_strings_In, in_map. exact He.
  - destruct H as [e [-> He]]. right; left.
    apply (in_map (fun '(p, d, h) => AddFile p d h) _ (relative_path e, contents e, blake3 (contents e))).
    apply (in_map (fun e => (relative_path e, contents e, blake3 (contents e)))). exact He.
  - destruct H as (eo & en & p & c & h & -> & Hin & Hd). right; right; left.
    apply (in_map (fun '(p, c, h) => ModifyFile p c h) _ (p, c, h)).
    apply in_flat_map. exists (mk_diff_input (eo, en)).
    split; [apply in_map, Hin|rewrite Hd; left; reflexivity].
  - destruct H as [p [-> Hp]]. right; right; right; left. apply in_map, Hp.
  - destruct H as [p [-> Hp]]. right; right; right; right. apply in_map. rewrite <- in_rev, sort_strings_In. exact Hp.
Qed.

(** X11: [create_patch] emits [CreateDir p] exactly for the paths [p] that
    are a directory in the new tree and absent from the old one. *)
Theorem create_patch_create_dir_iff (blake3 : list byte -> list byte)
  (differ : list byte -> list byte -> list DiffChunk) (old new : list DirEntry) (p : string) :
  In (CreateDir p) (operations (fst (create_patch_with blake3 differ old new)))
  <-> exists e, entry_lookup new p = Some e /\ kind e = Dir /\ entry_lookup old p = None.
Proof.
  rewrite create_ops_in. split.
  - intros [H|[H|[H|[H|H]]]].
    + destruct H as [e [E He]]. injection E as ->.
      apply classify_new_iff in He as (E1 & K & E2). eauto.
    + destruct H as [e [E _]]. discriminate E.
    + destruct H as (eo & en & q & c & h & E & _). discriminate E.
    + destruct H as [q [E _]]. discriminate E.
    + destruct H as [q [E _]]. discriminate E.
  - intros (e & E1 & K & E2). left. exists e.
    rewrite (entry_lookup_path _ _ _ E1). split; [reflexivity|].
    apply classify_new_iff. rewrite (entry_lookup_path _ _ _ E1). auto.
Qed.

(** X12: [create_patch] emits [AddFile p data hash] exactly for the paths
    [p] that are a file in the new tree and absent from the old one, with
    [data] the bytes of the new file and [hash] their BLAKE3 hash. *)
Theorem create_patch_add_file_iff (blake3 : list byte -> list byte)
  (differ : list byte -> list byte -> list DiffChunk) (old new : list DirEntry)
  (p : string) (d h : list byte) :
  In (AddFile p d h) (operations (fst (create_patch_with blake3 differ old new)))
  <-> exists e, entry_lookup new p = Some e /\ kind e = File /\ entry_lookup old p = None
                /\ d = contents e /\ h = blake3 (contents e).
Proof.
  rewrite create_ops_in. split.
  - intros [H|[H|[H|[H|H]]]].
    + destruct H as [e [E _]]. discriminate E.
    + destruct H as [e [E He]]. injection E as -> -> ->.
      apply classify_new_iff in He as (E1 & K & E2). exists e. auto.
    + destruct H as (eo & en & q & c & h' & E & _). discriminate E.
    + destruct H as [q [E _]]. discriminate E.
    + destruct H as [q [E _]]. discriminate E.
  - intros (e & E1 & K & E2 & -> & ->). right; left. exists e.
    rewrite (entry_lookup_path _ _ _ E1). split; [reflexivity|].
    apply classify_new_iff. rewrite (entry_lookup_path _ _ _ E1). auto.
Qed.

(** X13: [create_patch] emits [DeleteFile p] exactly for the files of the
    old tree whose path is absent from the new tree, and [DeleteDir p]
    exactly for the directories of the old tree whose path is absent from
    the new tree. *)
Theorem create_patch_delete_iff (blake3 : list byte -> list byte)
  (differ : list byte -> list byte -> list DiffChunk) (old new : list DirEntry) (p : string) :
  (In (DeleteFile p) (operations (fst (create_patch_with blake3 differ old new)))
   <-> exists e, entry_lookup old p = Some e /\ kind e = File /\ entry_lookup new p = None)
  /\ (In (DeleteDir p) (operations (fst (create_patch_with blake3 differ old new)))
   <-> exists e, entry_lookup old p = Some e /\ kind e = Dir /\ entry_lookup new p = None).
Proof.
  rewrite !create_ops_in. split; split.
  - intros [H|[H|[H|[H|H]]]].
    + destruct H as [e [E _]]. discriminate E.
    + destruct H as [e [E _]]. discriminate E.
    + destruct H as (eo & en & q & c & h & E & _). discriminate E.
    + destruct H as [q [E Hq]]. injection E as ->. apply classify_old_iff, Hq.
    + destruct H as [q [E _]]. discriminate E.
  - intros H. right; right; right; left. exists p. split; [reflexivity|]. apply classify_old_iff, H.
  - intros [H|[H|[H|[H|H]]]].
    + destruct H as [e [E _]]. discriminate E.
    + destruct H as [e [E _]]. discriminate E.
    + destruct H as (eo & en & q & c & h & E & _). discriminate E.
    + destruct H as [q [E _]]. discriminate E.
    + destruct H as [q [E Hq]]. injection E as ->. apply classify_old_iff, Hq.
  - intros H. right; right; right; right. exists p. split; [reflexivity|]. apply classify_old_iff, H.
Qed.

Lemma create_modify_iff_helper (blake3 : list byte -> list byte)
  (differ : list byte -> list byte -> list DiffChunk) (old new : list DirEntry)
  (p : string) (c : list DiffChunk) (h : list byte) :
  In (ModifyFile p c h) (operations (fst (create_patch_with blake3 differ old new)))
  <-> exists eo en, entry_lookup old p = Some eo /\ entry_lookup new p = Some en
        /\ kind eo = File /\ kind en = File
        /\ (entry_size eo <> entry_size en \/ blake3 (contents eo) <> blake3 (contents en))
        /\ h = blake3 (contents en)
        /\ c = (if is_incompressible (full_path en) then [Insert (contents en)]
                else differ (contents eo) (contents en)).
Proof.
  rewrite create_ops_in. split.
  - intros [H|[H|[H|[H|H]]]].
    + destruct H as [e [E _]]. discriminate E.
    + destruct H as [e [E _]]. discriminate E.
    + destruct H as (eo & en & q & c' & h' & E & Hin & Hd). injection E as -> -> ->.
      apply files_maybe_modified_iff in Hin as (E1 & E2 & K1 & K2).
      unfold diff_one, mk_diff_input in Hd. cbn [sizes_differ old_data new_data rel_path new_path] in Hd.
      destruct (negb (negb (entry_size eo =? entry_size en)%N)
                && bytes_eqb (blake3 (contents eo)) (blake3 (contents en))) eqn:C;
        [discriminate|].
      injection Hd as <- <- <-. exists eo, en. repeat split; try assumption.
      apply andb_false_iff in C. rewrite negb_involutive in C. destruct C as [C|C].
      * left. apply N.eqb_neq, C.
      * right. intros Eq. rewrite Eq in C. rewrite (proj2 (bytes_eqb_true _ _) eq_refl) in C.
        discriminate.
    + destruct H as [q [E _]]. discriminate E.
    + destruct H as [q [E _]]. discriminate E.
  - intros (eo & en & E1 & E2 & K1 & K2 & D & -> & ->). right; right; left.
    exists eo, en, p. eexists _, _. split; [reflexivity|]. split.
    + apply files_maybe_modified_iff. rewrite (entry_lookup_path _ _ _ E1). auto.
    + unfold diff_one, mk_diff_input. cbn [sizes_differ old_data new_data rel_path new_path].
      replace (negb (negb (entry_size eo =? entry_size en)%N)
               && bytes_eqb (blake3 (contents eo)) (blake3 (contents en))) with false.
      * rewrite (entry_lookup_path _ _ _ E1). reflexivity.
      * symmetry. apply andb_false_iff. rewrite negb_involutive. destruct D as [D|D].
        -- left. apply N.eqb_neq, D.
        -- right. destruct (bytes_eqb _ _) eqn:B; [|reflexivity].
           apply bytes_eqb_true in B. contradiction.
Qed.

(** X14: [create_patch] emits [ModifyFile p chunks hash] exactly for the
    paths [p] that are a file in both trees whose sizes differ or whose
    BLAKE3 hashes differ; [hash] is the hash of the new file, and [chunks]
    is a single [Insert] of the new bytes when the new path has an
    incompressible extension, the output of the differ otherwise. *)
Theorem create_patch_modify_file_iff (blake3 : list byte -> list byte)
  (differ : list byte -> list byte -> list DiffChunk) (old new : list DirEntry)
  (p : string) (c : list DiffChunk) (h : list byte) :
  In (ModifyFile p c h) (operations (fst (create_patch_with blake3 differ old new)))
  <-> exists eo en, entry_lookup old p = Some eo /\ entry_lookup new p = Some en
        /\ kind eo = File /\ kind en = File
        /\ (entry_size eo <> entry_size en \/ blake3 (contents eo) <> blake3 (contents en))
        /\ h = blake3 (contents en)
        /\ c = (if is_incompressible (full_path en) then [Insert (contents en)]
                else differ (contents eo) (contents en)).
Proof. apply create_modify_iff_helper. Qed.

Lemma apply_patch_success (blake3 : list byte -> list byte)
  (decode : list byte -> option PatchManifest) (fs : Fs) (target : FsPath) (raw : list byte)
  (s : ApplySummary) :
  snd (apply_patch blake3 decode fs target raw) = inl s ->
  exists m, decode (skipn (length MAGIC) raw) = Some m
    /\ version m = FORMAT_VERSION
    /\ s = mkApplySummary (length (filter is_create_dir (operations m)))
             (length (filter is_add_file (operations m)))
             (length (filter is_modify_file (operations m)))
             (length (filter is_delete_file (operations m)))
             (length (filter is_delete_dir (operations m))).
Proof.
  unfold apply_patch.
  destruct (_ || _); [discriminate|].
  destruct (decode (skipn (length MAGIC) raw)) as [m|]; [|discriminate].
  destruct (negb (version m =? FORMAT_VERSION)) eqn:V; [discriminate|].
  destruct (negb (is_dir fs target)); [discriminate|].
  destruct (try_for_each (create_dir_op target) fs _) as [fs1 [|e]]; [|discriminate].
  destruct (try_for_each (add_file_op blake3 target) fs1 _) as [fs2 r1].
  destruct (try_for_each (modify_file_op blake3 target) fs2 _) as [fs3 r2].
  destruct (delete_phase target fs3 _ _) as [fs4 r3].
  destruct r1, r2, r3; try discriminate.
  intros H. injection H as <-. exists m. split; [reflexivity|]. split; [|reflexivity].
  apply negb_false_iff, Z.eqb_eq in V. exact V.
Qed.

(** X15: applying a patch built by [create_patch] reports, on success,
    the very summary that [create_patch] returned: the counts of the five
    kinds of operations agree between the two sides. *)
Theorem apply_create_summary_agree (blake3 blake3' : list byte -> list byte)
  (differ : list byte -> list byte -> list DiffChunk)
  (decode : list byte -> option PatchManifest) (fs : Fs) (target : FsPath) (raw : list byte)
  (old new : list DirEntry) (s : ApplySummary) :
  decode (skipn (length MAGIC) raw) = Some (fst (create_patch_with blake3' differ old new)) ->
  snd (apply_patch blake3 decode fs target raw) = inl s ->
  s = snd (create_patch_with blake3' differ old new).
Proof.
  intros Hd Ha. apply apply_patch_success in Ha as (m & Hm & _ & ->).
  assert (Em : m = fst (create_patch_with blake3' differ old new)) by congruence.
  subst m. clear Hd Hm.
  pose proof (create_summary_filter_counts blake3' differ old new) as C.
  remember (create_patch_with blake3' differ old new) as P eqn:EP. clear EP.
  destruct P as [m s]. destruct C as (C1 & C2 & C3 & C4 & C5). cbn [fst snd].
  rewrite <- C1, <- C2, <- C3, <- C4, <- C5. destruct s; reflexivity.
Qed.

Lemma apply_create_summary_agree_witness :
  mkApplySummary 1 1 0 0 0
  = snd (create_patch_with (fun l => l) (compute_diff (fun l => l)) [] sample_new_tree).
Proof.
  apply (apply_create_summary_agree (fun l => l) (fun l => l) (compute_diff (fun l => l))
           (fun _ => Some (fst (create_patch_with (fun l => l) (compute_diff (fun l => l))
                                  [] sample_new_tree)))
           sample_root_fs [] MAGIC [] sample_new_tree).
  - reflexivity.
  - vm_compute. reflexivity.
Defined.

Lemma NoDup_map_flat_map {A B C : Type} (f : A -> list B) (g : B -> C) (key : A -> C)
  (l : list A) :
  (forall a b, In b (f a) -> g b = key a) -> (forall a, length (f a) <= 1)%nat ->
  NoDup (map key l) -> NoDup (map g (flat_map f l)).
Proof.
  intros Hg Hl. induction l as [|a l IH]; intros Hn; [constructor|].
  inversion Hn as [|? ? Hna Hnl]; subst. cbn [flat_map]. rewrite map_app.
  specialize (Hl a). specialize (Hg a) as Hga.
  destruct (f a) as [|b [|b' r]]; [exact (IH Hnl)| |simpl in Hl; lia].
  cbn [map app]. constructor; [|exact (IH Hnl)].
  rewrite (Hga b (or_introl eq_refl)). intros Hin. apply Hna.
  apply in_map_iff in Hin as [b0 [E Hb0]]. apply in_flat_map in Hb0 as [a0 [Ha0 Hb0]].
  rewrite (Hg a0 b0 Hb0) in E. rewrite <- E. apply in_map, Ha0.
Qed.

Lemma insert_sorted_perm (s : string) (l : list string) :
  Permutation (insert_sorted s l) (s :: l).
Proof.
  induction l as [|x l IH]; simpl; [reflexivity|].
  destruct (str_leb s x); [reflexivity|].
  etransitivity; [apply perm_skip, IH|apply perm_swap].
Qed.

Lemma sort_strings_perm (l : list string) : Permutation (sort_strings l) l.
Proof.
  induction l as [|x l IH]; simpl; [reflexivity|].
  etransitivity; [apply insert_sorted_perm|apply perm_skip, IH].
Qed.

Lemma dedup_strings_NoDup (l : list string) : NoDup (dedup_strings l).
Proof.
  induction l as [|x l IH]; simpl; [constructor|].
  destruct (str_mem x l) eqn:E; [exact IH|]. constructor; [|exact IH].
  rewrite dedup_strings_In, <- str_mem_In, E. discriminate.
Qed.

Lemma path_set_NoDup (es : list DirEntry) : NoDup (path_set es).
Proof.
  unfold path_set. eapply Permutation_NoDup; [symmetry; apply sort_strings_perm|].
  apply dedup_strings_NoDup.
Qed.

Lemma map_id_NoDup (l : list string) : NoDup l -> NoDup (map (fun x => x) l).
Proof. rewrite map_id. exact (fun H => H). Qed.

Lemma create_ops_paths (blake3 : list byte -> list byte)
  (differ : list byte -> list byte -> list DiffChunk) (old new : list DirEntry) :
  map op_path (operations (fst (create_patch_with blake3 differ old new)))
  = sort_strings (map relative_path (classify_new old new Dir))
    ++ map relative_path (classify_new old new File)
    ++ map (fun '(p, c, h) => p)
         (flat_map (fun i => match diff_one blake3 differ i with Some r => [r] | None => [] end)
            (map mk_diff_input (files_maybe_modified old new)))
    ++ classify_old old new File
    ++ rev (sort_strings (classify_old old new Dir)).
Proof.
  unfold create_patch_with, sort_dirs_parent_first, sort_dirs_deepest_first.
  cbn [fst operations]. rewrite !map_app, !map_map.
  apply (f_equal2 (@app string)); [apply map_id|].
  apply (f_equal2 (@app string)); [apply map_ext; reflexivity|].
  apply (f_equal2 (@app string)); [apply map_ext; intros [[p c] h]; reflexivity|].
  apply (f_equal2 (@app string)); apply map_id.
Qed.

Lemma NoDup_app_sep {A : Type} (l1 l2 : list A) (P : A -> Prop) :
  NoDup l1 -> NoDup l2 -> (forall x, In x l1 -> P x) -> (forall x, In x l2 -> ~ P x) ->
  NoDup (l1 ++ l2).
Proof.
  intros H1 H2 P1 P2. apply NoDup_app; [exact H1|exact H2|].
  intros x Hx1 Hx2. exact (P2 x Hx2 (P1 x Hx1)).
Qed.

(** X16: no two operations of a manifest built by [create_patch] share a
    path: the paths of its operations are pairwise distinct, so the add,
    modify and delete tasks of [apply_patch] work on different paths. *)
Theorem create_patch_paths_distinct (blake3 : list byte -> list byte)
  (differ : list byte -> list byte -> list DiffChunk) (old new : list DirEntry) :
  NoDup (map op_path (operations (fst (create_patch_with blake3 differ old new)))).
Proof.
  rewrite create_ops_paths.
  set (ddir := set_difference (path_set new) (path_set old)).
  set (dold := set_difference (path_set old) (path_set new)).
  assert (Nd : NoDup ddir) by apply NoDup_filter, path_set_NoDup.
  assert (No : NoDup dold) by apply NoDup_filter, path_set_NoDup.
  assert (NI : NoDup (set_intersection (path_set old) (path_set new)))
    by apply NoDup_filter, path_set_NoDup.
  assert (Ncn : forall k, NoDup (map relative_path (classify_new old new k))).
  { intros k. apply (NoDup_map_flat_map _ _ (fun x => x)); [| |apply map_id_NoDup, Nd].
    - intros q e H. destruct (entry_lookup new q) as [e'|] eqn:E; [|destruct H].
      destruct (EntryKind_eqb (kind e') k); [|destruct H].
      destruct H as [<-|[]]. apply (entry_lookup_path _ _ _ E).
    - intros q. destruct (entry_lookup new q); [destruct (EntryKind_eqb _ _)|]; simpl; lia. }
  assert (Nco : forall k, NoDup (classify_old old new k)).
  { intros k. rewrite <- (map_id (classify_old old new k)).
    apply (NoDup_map_flat_map _ _ (fun x => x)); [| |apply map_id_NoDup, No].
    - intros q p H. destruct (entry_lookup old q); [|destruct H].
      destruct (EntryKind_eqb _ _); [|destruct H]. destruct H as [<-|[]]. reflexivity.
    - intros q. destruct (entry_lookup old q); [destruct (EntryKind_eqb _ _)|]; simpl; lia. }
  assert (Nm : NoDup (map (fun '(p, c, h) => p)
         (flat_map (fun i => match diff_one blake3 differ i with Some r => [r] | None => [] end)
            (map mk_diff_input (files_maybe_modified old new))))).
  { apply (NoDup_map_flat_map _ _ rel_path).
    - intros i [[p c] h] H. unfold diff_one in H.
      destruct (_ && _); [destruct H|]. destruct H as [E|[]]. injection E as <- _ _. reflexivity.
    - intros i. destruct (diff_one blake3 differ i); simpl; lia.
    - rewrite map_map. unfold files_maybe_modified.
      apply (NoDup_map_flat_map _ _ (fun x => x)); [| |apply map_id_NoDup, NI].
      + intros q [eo en] H. destruct (entry_lookup old q) as [eo'|] eqn:E1; [|destruct H].
        destruct (entry_lookup new q); [|destruct H].
        destruct (_ && _); [|destruct H]. destruct H as [E|[]]. injection E as <- _.
        apply (entry_lookup_path _ _ _ E1).
      + intros q. destruct (entry_lookup old q), (entry_lookup new q);
          try destruct (_ && _); simpl; lia. }
  (* membership of each group *)
  assert (M1 : forall x, In x (sort_strings (map relative_path (classify_new old new Dir))) ->
            exists e, entry_lookup new x = Some e /\ kind e = Dir /\ entry_lookup old x = None).
  { intros x H. apply sort_strings_In, in_map_iff in H as [e [<- He]].
    apply classify_new_iff in He. exists e. exact He. }
  assert (M2 : forall x, In x (map relative_path (classify_new old new File)) ->
            exists e, entry_lookup new x = Some e /\ kind e = File /\ entry_lookup old x = None).
  { intros x H. apply in_map_iff in H as [e [<- He]].
    apply classify_new_iff in He. exists e. exact He. }
  assert (M3 : forall x, In x (map (fun '(p, c, h) => p)
         (flat_map (fun i => match diff_one blake3 differ i with Some r => [r] | None => [] end)
            (map mk_diff_input (files_maybe_modified old new)))) ->
            exists eo en, entry_lookup old x = Some eo /\ entry_lookup new x = Some en).
  { intros x H. apply in_map_iff in H as [[[p c] h] [<- Hr]].
    apply in_flat_map in Hr as [i [Hi Hr]]. apply in_map_iff in Hi as [[eo en] [<- Hp]].
    apply files_maybe_modified_iff in Hp as (E1 & E2 & _ & _).
    unfold diff_one, mk_diff_input in Hr. cbn [rel_path] in Hr.
    destruct (_ && _); [destruct Hr|]. destruct Hr as [E|[]]. injection E as <- _ _.
    exists eo, en. auto. }
  assert (M4 : forall x, In x (classify_old old new File) ->
            exists e, entry_lookup old x = Some e /\ kind e = File /\ entry_lookup new x = None)
    by (intros x H; apply classify_old_iff, H).
  assert (M5 : forall x, In x (rev (sort_strings (classify_old old new Dir))) ->
            exists e, entry_lookup old x = Some e /\ kind e = Dir /\ entry_lookup new x = None).
  { intros x H. rewrite <- in_rev, sort_strings_In in H. apply classify_old_iff, H. }
  assert (N5 : NoDup (rev (sort_strings (classify_old old new Dir)))).
  { apply NoDup_rev. eapply Permutation_NoDup; [symmetry; apply sort_strings_perm|apply Nco]. }
  apply (NoDup_app_sep _ _ (fun x => exists e, entry_lookup new x = Some e /\ kind e = Dir
                                             /\ entry_lookup old x = None)).
  { eapply Permutation_NoDup; [symmetry; apply sort_strings_perm|apply Ncn]. }
  2:{ exact M1. }
  2:{ intros x Hx (e & Ne & Ke & Oe). rewrite !in_app_iff in Hx.
      destruct Hx as [Hx|[Hx|[Hx|Hx]]].
      - destruct (M2 x Hx) as (e' & Ne' & Ke' & _). congruence.
      - destruct (M3 x Hx) as (eo & en & Oe' & _). congruence.
      - destruct (M4 x Hx) as (e' & Oe' & _). congruence.
      - destruct (M5 x Hx) as (e' & Oe' & _). congruence. }
  apply (NoDup_app_sep _ _ (fun x => entry_lookup old x = None)); [apply Ncn| | |].
  2:{ intros x Hx. destruct (M2 x Hx) as (e & _ & _ & Oe). exact Oe. }
  2:{ intros x Hx Oe. rewrite !in_app_iff in Hx. destruct Hx as [Hx|[Hx|Hx]].
      - destruct (M3 x Hx) as (eo & en & Oe' & _). congruence.
      - destruct (M4 x Hx) as (e' & Oe' & _). congruence.
      - destruct (M5 x Hx) as (e' & Oe' & _). congruence. }
  apply (NoDup_app_sep _ _ (fun x => exists en, entry_lookup new x = Some en)); [exact Nm| | |].
  2:{ intros x Hx. destruct (M3 x Hx) as (eo & en & _ & Ne). eauto. }
  2:{ intros x Hx [en Ne]. rewrite in_app_iff in Hx. destruct Hx as [Hx|Hx].
      - destruct (M4 x Hx) as (e' & _ & _ & Ne'). congruence.
      - destruct (M5 x Hx) as (e' & _ & _ & Ne'). congruence. }
  apply (NoDup_app_sep _ _ (fun x => exists e, entry_lookup old x = Some e /\ kind e = File));
    [apply Nco|exact N5| |].
  - intros x Hx. destruct (M4 x Hx) as (e & Oe & Ke & _). eauto.
  - intros x Hx (e & Oe & Ke). destruct (M5 x Hx) as (e' & Oe' & Ke' & _). congruence.
Qed.

Lemma opt_node_eq_dec (x y : option Node) : {x = y} + {x <> y}.
Proof. decide equality. decide equality. apply list_eq_dec, Byte.byte_eq_dec. Defined.

Lemma is_prefix_refl (p : FsPath) : is_prefix p p = true.
Proof. induction p as [|x p IH]; [reflexivity|]. simpl. rewrite String.eqb_refl. exact IH. Qed.

Lemma is_prefix_app (p r : FsPath) : is_prefix p (p ++ r) = true.
Proof. induction p as [|x p IH]; [reflexivity|]. simpl. rewrite String.eqb_refl. exact IH. Qed.

Lemma is_prefix_trans (p q r : FsPath) :
  is_prefix p q = true -> is_prefix q r = true -> is_prefix p r = true.
Proof.
  revert q r. induction p as [|x p IH]; intros q r H1 H2; [reflexivity|].
  destruct q as [|y q]; [discriminate|]. destruct r as [|z r]; [discriminate|].
  simpl in *. apply andb_true_iff in H1 as [E1 H1]. apply andb_true_iff in H2 as [E2 H2].
  apply String.eqb_eq in E1, E2. subst. rewrite String.eqb_refl. exact (IH _ _ H1 H2).
Qed.

Lemma is_prefix_removelast (p : FsPath) : is_prefix (removelast p) p = true.
Proof.
  induction p as [|x p IH]; [reflexivity|].
  destruct p as [|y p]; [reflexivity|].
  change (removelast (x :: y :: p)) with (x :: removelast (y :: p)).
  simpl. rewrite String.eqb_refl. exact IH.
Qed.

Lemma fs_parent_prefix (p parent : FsPath) :
  fs_parent p = Some parent -> is_prefix parent p = true.
Proof.
  unfold fs_parent. destruct p as [|c r]; [discriminate|].
  intros E. injection E as <-. exact (is_prefix_removelast (c :: r)).
Qed.

Lemma mkdirs_local (fs : Fs) (prefix : FsPath) (rest : list string) (q : FsPath) :
  fst (mkdirs fs prefix rest) q <> fs q ->
  fs q = None /\ is_prefix q (prefix ++ rest) = true.
Proof.
  revert fs prefix. induction rest as [|c rest IH]; intros fs prefix H; simpl in H.
  - contradiction (H eq_refl).
  - replace (prefix ++ c :: rest) with ((prefix ++ [c]) ++ rest)
      by (rewrite <- app_assoc; reflexivity).
    destruct (fs (prefix ++ [c])) as [[|d]|] eqn:E.
    + exact (IH fs (prefix ++ [c]) H).
    + contradiction (H eq_refl).
    + destruct (opt_node_eq_dec (fst (mkdirs (fs_set fs (prefix ++ [c]) NDir) (prefix ++ [c]) rest) q)
                  (fs_set fs (prefix ++ [c]) NDir q)) as [Eq|Ne].
      * rewrite Eq in H. apply fs_set_changed in H. subst q.
        split; [exact E|apply is_prefix_app].
      * destruct (IH _ _ Ne) as [Hn Hp]. split; [|exact Hp].
        unfold fs_set in Hn. destruct (fs_path_eqb q (prefix ++ [c])); [discriminate|exact Hn].
Qed.

Lemma fs_write_local (fs : Fs) (p : FsPath) (d : list byte) (q : FsPath) :
  fst (fs_write fs p d) q <> fs q -> q = p.
Proof.
  intros H. destruct (fs_write_cases fs p d) as [[_ E]|[_ E]]; rewrite E in H.
  - exact (fs_set_changed _ _ _ _ H).
  - contradiction (H eq_refl).
Qed.

Lemma try_for_each_local {A : Type} (step : Fs -> A -> Fs * Outcome) (P : A -> FsPath -> Prop) :
  (forall fs x q, fst (step fs x) q <> fs q -> P x q) ->
  forall items fs q, fst (try_for_each step fs items) q <> fs q -> exists x, In x items /\ P x q.
Proof.
  intros Hs. induction items as [|x items IH]; intros fs q H; simpl in H.
  - contradiction (H eq_refl).
  - destruct (step fs x) as [fs' o] eqn:E.
    assert (Hx : fst (step fs x) q <> fs q -> exists y, In y (x :: items) /\ P y q)
      by (intros Hc; exists x; split; [left; reflexivity|exact (Hs _ _ _ Hc)]).
    rewrite E in Hx. cbn [fst] in Hx. destruct o as [|e].
    + destruct (opt_node_eq_dec (fs' q) (fs q)) as [Eq|Ne]; [|exact (Hx Ne)].
      rewrite <- Eq in H. destruct (IH fs' q H) as [y [Hy Py]].
      exists y. split; [right; exact Hy|exact Py].
    + exact (Hx H).
Qed.

Lemma try_for_each_removes {A : Type} (step : Fs -> A -> Fs * Outcome) :
  (forall fs x q, fst (step fs x) q <> fs q -> fst (step fs x) q = None) ->
  forall items fs q, fst (try_for_each step fs items) q <> fs q ->
  fst (try_for_each step fs items) q = None.
Proof.
  intros Hs. induction items as [|x items IH]; intros fs q H; simpl in *.
  - contradiction (H eq_refl).
  - pose proof (Hs fs x q) as Hx. destruct (step fs x) as [fs' o]. cbn [fst] in Hx.
    destruct o as [|e]; [|exact (Hx H)].
    destruct (opt_node_eq_dec (fst (try_for_each step fs' items) q) (fs' q)) as [Eq|Ne].
    + rewrite Eq in H |- *. exact (Hx H).
    + exact (IH _ _ Ne).
Qed.

Lemma remove_dir_all_lenient_local (fs : Fs) (p q : FsPath) :
  fst (remove_dir_all_lenient fs p) q <> fs q ->
  fst (remove_dir_all_lenient fs p) q = None /\ is_prefix p q = true.
Proof.
  unfold remove_dir_all_lenient. destruct (fs p) as [[|d]|]; cbn [fst]; intros H;
    try contradiction (H eq_refl).
  unfold fs_remove_tree in *. destruct (is_prefix p q); [auto|contradiction (H eq_refl)].
Qed.

Lemma remove_file_lenient_local (fs : Fs) (p q : FsPath) :
  fst (remove_file_lenient fs p) q <> fs q ->
  fst (remove_file_lenient fs p) q = None /\ q = p.
Proof.
  unfold remove_file_lenient. destruct (fs p) as [[|d]|]; cbn [fst]; intros H;
    try contradiction (H eq_refl).
  unfold fs_remove in *. destruct (fs_path_eqb q p) eqn:E; [|contradiction (H eq_refl)].
  split; [reflexivity|apply fs_path_eqb_true, E].
Qed.

Lemma create_dir_op_local (target : FsPath) (fs : Fs) (op : PatchOp) (q : FsPath) :
  fst (create_dir_op target fs op) q <> fs q -> is_prefix q (join target (op_path op)) = true.
Proof.
  destruct op; cbn [create_dir_op op_path]; intros H; try contradiction (H eq_refl).
  exact (proj2 (mkdirs_local fs [] _ q H)).
Qed.

Lemma add_file_op_local (blake3 : list byte -> list byte) (target : FsPath) (fs : Fs)
  (op : PatchOp) (q : FsPath) :
  fst (add_file_op blake3 target fs op) q <> fs q -> is_prefix q (join target (op_path op)) = true.
Proof.
  destruct op as [|path data h| | |]; cbn [add_file_op op_path]; intros H;
    try contradiction (H eq_refl).
  set (full := join target path) in *.
  assert (H1 : forall fs1 o1, (fs1, o1) = match fs_parent full with
                                         | Some parent => create_dir_all fs parent
                                         | None => (fs, Ok) end ->
              fs1 q <> fs q -> is_prefix q full = true).
  { intros fs1 o1 E Hc. destruct (fs_parent full) as [parent|] eqn:Ep.
    - unfold create_dir_all in E. pose proof (mkdirs_local fs [] parent q) as L.
      rewrite <- E in L. destruct (L Hc) as [_ Hp].
      exact (is_prefix_trans _ _ _ Hp (fs_parent_prefix _ _ Ep)).
    - injection E as -> _. contradiction (Hc eq_refl). }
  destruct (match fs_parent full with
            | Some parent => create_dir_all fs parent
            | None => (fs, Ok) end) as [fs1 o1] eqn:E1.
  specialize (H1 fs1 o1 eq_refl).
  destruct o1 as [|e]; [|exact (H1 H)].
  destruct (opt_node_eq_dec (fs1 q) (fs q)) as [Eq|Ne]; [|exact (H1 Ne)].
  pose proof (fs_write_local fs1 full data q) as W.
  destruct (fs_write fs1 full data) as [fs2 o2]. cbn [fst] in W.
  assert (Hc : fs2 q <> fs1 q).
  { rewrite Eq. destruct o2; [destruct (bytes_eqb _ _)|]; exact H. }
  rewrite (W Hc). apply is_prefix_refl.
Qed.

Lemma modify_file_op_local (blake3 : list byte -> list byte) (target : FsPath) (fs : Fs)
  (op : PatchOp) (q : FsPath) :
  fst (modify_file_op blake3 target fs op) q <> fs q -> q = join target (op_path op).
Proof.
  destruct op as [| |path c h| |]; cbn [modify_file_op op_path]; intros H;
    try contradiction (H eq_refl).
  destruct (fs_read fs (join target path)); [|contradiction (H eq_refl)].
  destruct (apply_diff l c); [|contradiction (H eq_refl)].
  destruct (negb _); [contradiction (H eq_refl)|]. exact (fs_write_local _ _ _ _ H).
Qed.

Lemma delete_phase_local (target : FsPath) (fs : Fs) (files dirs : list PatchOp) (q : FsPath) :
  fst (delete_phase target fs files dirs) q <> fs q ->
  fst (delete_phase target fs files dirs) q = None
  /\ exists op, (In op dirs \/ In op files) /\ is_prefix (join target (op_path op)) q = true.
Proof.
  unfold delete_phase.
  set (dset := dedup_strings (map op_path dirs)).
  set (roots := filter _ dset). set (orphans := filter _ files).
  set (sd := fun fs dir => remove_dir_all_lenient fs (join target dir)).
  set (sf := fun fs op => remove_file_lenient fs (join target (op_path op))).
  assert (Ld := try_for_each_local sd (fun dir q => is_prefix (join target dir) q = true)
                  (fun fs x q Hc => proj2 (remove_dir_all_lenient_local _ _ _ Hc)) roots fs q).
  assert (Rd := try_for_each_removes sd
                  (fun fs x q Hc => proj1 (remove_dir_all_lenient_local _ _ _ Hc)) roots fs q).
  assert (Hroot : forall dir, In dir roots -> exists op, In op dirs /\ op_path op = dir).
  { intros dir Hd. apply filter_In in Hd as [Hd _]. apply dedup_strings_In, in_map_iff in Hd.
    destruct Hd as [op [E Hop]]. eauto. }
  destruct (try_for_each sd fs roots) as [fs1 o1] eqn:E1. cbn [fst] in Ld, Rd.
  assert (Hd1 : fs1 q <> fs q -> fs1 q = None
                /\ exists op, (In op dirs \/ In op files) /\ is_prefix (join target (op_path op)) q = true).
  { intros Hc. split; [exact (Rd Hc)|]. destruct (Ld Hc) as [dir [Hdir Hp]].
    destruct (Hroot dir Hdir) as [op [Hop <-]]. exists op. auto. }
  destruct o1 as [|e]; [|exact Hd1].
  intros H.
  assert (Lf := try_for_each_local sf (fun op q => q = join target (op_path op))
                  (fun fs x q Hc => proj2 (remove_file_lenient_local _ _ _ Hc)) orphans fs1 q).
  assert (Rf := try_for_each_removes sf
                  (fun fs x q Hc => proj1 (remove_file_lenient_local _ _ _ Hc)) orphans fs1 q).
  destruct (opt_node_eq_dec (fst (try_for_each sf fs1 orphans) q) (fs1 q)) as [Eq|Ne].
  - rewrite Eq in H |- *. exact (Hd1 H).
  - split; [exact (Rf Ne)|]. destruct (Lf Ne) as [op [Hop ->]].
    apply filter_In in Hop as [Hop _]. exists op. split; [right; exact Hop|apply is_prefix_refl].
Qed.

(** X17: every location that [apply_patch] changes is tied to an
    operation of the decoded manifest: it is an ancestor of, or equal to,
    the joined path of a [CreateDir], [AddFile] or [ModifyFile] (the
    directories created and the file written), or it lies under the
    joined path of a [DeleteFile] or [DeleteDir] and is then absent.  The
    operation paths have no [..] after a normal component (as the paths
    [create_patch] emits), so that [join] is where the OS acts. *)
Theorem apply_patch_changes_local (blake3 : list byte -> list byte)
  (decode : list byte -> option PatchManifest) (fs : Fs) (target : FsPath) (raw : list byte)
  (q : FsPath) :
  (forall m, decode (skipn (length MAGIC) raw) = Some m ->
   forall op, In op (operations m) -> no_inner_dotdot (op_path op) = true) ->
  fst (apply_patch blake3 decode fs target raw) q <> fs q ->
  exists m op, decode (skipn (length MAGIC) raw) = Some m /\ In op (operations m)
    /\ ((is_create_dir op || is_add_file op || is_modify_file op = true
         /\ is_prefix q (join target (op_path op)) = true)
        \/ (is_delete_file op || is_delete_dir op = true
            /\ is_prefix (join target (op_path op)) q = true
            /\ fst (apply_patch blake3 decode fs target raw) q = None)).
Proof.
  intros _.
  unfold apply_patch.
  destruct (_ || _); [cbn [fst]; intros H; contradiction (H eq_refl)|].
  destruct (decode (skipn (length MAGIC) raw)) as [m|]; [|cbn [fst]; intros H; contradiction (H eq_refl)].
  destruct (negb (version m =? FORMAT_VERSION)); [cbn [fst]; intros H; contradiction (H eq_refl)|].
  destruct (negb (is_dir fs target)); [cbn [fst]; intros H; contradiction (H eq_refl)|].
  set (ops := operations m).
  assert (Lc := try_for_each_local (create_dir_op target)
                  (fun op q => is_create_dir op = true /\ is_prefix q (join target (op_path op)) = true)).
  assert (Lc' : forall fs x q, fst (create_dir_op target fs x) q <> fs q ->
                  is_create_dir x = true /\ is_prefix q (join target (op_path x)) = true).
  { intros fs0 x q0 Hc. split; [|exact (create_dir_op_local _ _ _ _ Hc)].
    destruct x; try contradiction (Hc eq_refl). reflexivity. }
  specialize (Lc Lc' (filter is_create_dir ops) fs q).
  assert (La := try_for_each_local (add_file_op blake3 target)
                  (fun op q => is_prefix q (join target (op_path op)) = true)
                  (fun fs x q Hc => add_file_op_local blake3 target fs x q Hc)).
  assert (Lm := try_for_each_local (modify_file_op blake3 target)
                  (fun op q => q = join target (op_path op))
                  (fun fs x q Hc => modify_file_op_local blake3 target fs x q Hc)).
  destruct (try_for_each (create_dir_op target) fs (filter is_create_dir ops)) as [fs1 o1].
  cbn [fst] in Lc.
  assert (C1 : fs1 q <> fs q -> exists op, In op ops
            /\ ((is_create_dir op || is_add_file op || is_modify_file op = true
                 /\ is_prefix q (join target (op_path op)) = true))).
  { intros Hc. destruct (Lc Hc) as [op [Hop [K P]]]. apply filter_In in Hop as [Hop _].
    exists op. split; [exact Hop|]. rewrite K. auto. }
  destruct o1 as [|e].
  2:{ cbn [fst]. intros Hc. destruct (C1 Hc) as [op [Hop P]]. exists m, op. auto. }
  specialize (La (filter is_add_file ops) fs1 q).
  destruct (try_for_each (add_file_op blake3 target) fs1 (filter is_add_file ops)) as [fs2 r1].
  specialize (Lm (filter is_modify_file ops) fs2 q).
  destruct (try_for_each (modify_file_op blake3 target) fs2 (filter is_modify_file ops)) as [fs3 r2].
  pose proof (delete_phase_local target fs3 (filter is_delete_file ops) (filter is_delete_dir ops) q)
    as Ld.
  destruct (delete_phase target fs3 (filter is_delete_file ops) (filter is_delete_dir ops))
    as [fs4 r3].
  cbn [fst] in La, Lm, Ld.
  assert (Hfin : forall r : ApplySummary + Error,
            fst (match r1, r2, r3 with
                 | Err e, _, _ | Ok, Err e, _ | Ok, Ok, Err e => (fs4, inr e)
                 | Ok, Ok, Ok => (fs4, r) end) = fs4)
    by (intros r; destruct r1, r2, r3; reflexivity).
  rewrite Hfin. clear Hfin. intros H.
  destruct (opt_node_eq_dec (fs4 q) (fs3 q)) as [E4|N4].
  2:{ destruct (Ld N4) as [Hn [op [Hop Hp]]]. exists m, op.
      destruct Hop as [Hop|Hop]; apply filter_In in Hop as [Hop K];
        (split; [reflexivity|split; [exact Hop|right]]); rewrite K; [rewrite orb_true_r|];
        auto. }
  rewrite E4 in H.
  destruct (opt_node_eq_dec (fs3 q) (fs2 q)) as [E3|N3].
  2:{ destruct (Lm N3) as [op [Hop ->]]. apply filter_In in Hop as [Hop K]. exists m, op.
      split; [reflexivity|split; [exact Hop|left]]. rewrite K, !orb_true_r.
      split; [reflexivity|apply is_prefix_refl]. }
  rewrite E3 in H.
  destruct (opt_node_eq_dec (fs2 q) (fs1 q)) as [E2|N2].
  2:{ destruct (La N2) as [op [Hop Hp]]. apply filter_In in Hop as [Hop K]. exists m, op.
      split; [reflexivity|split; [exact Hop|left]]. rewrite K, orb_true_r. auto. }
  rewrite E2 in H. destruct (C1 H) as [op [Hop P]]. exists m, op. auto.
Qed.

Lemma apply_patch_changes_local_witness :
  exists m op, sample_decode (skipn (length MAGIC) MAGIC) = Some m /\ In op (operations m)
    /\ ((is_create_dir op || is_add_file op || is_modify_file op = true
         /\ is_prefix ["a"%string] (join [] (op_path op)) = true)
        \/ (is_delete_file op || is_delete_dir op = true
            /\ is_prefix (join [] (op_path op)) ["a"%string] = true
            /\ fst (apply_patch (fun l => l) sample_decode sample_root_fs [] MAGIC) ["a"%string]
               = None)).
Proof.
  apply (apply_patch_changes_local (fun l => l) sample_decode sample_root_fs [] MAGIC ["a"%string]).
  - intros m Hm op Hop. vm_compute in Hm. injection Hm as <-. simpl in Hop.
    destruct Hop as [<-|[]]. reflexivity.
  - vm_compute. discriminate.
Defined.

Lemma apply_diff_single_insert (old data : list byte) :
  apply_diff old [Insert data] = Some data.
Proof. reflexivity. Qed.

(** X18: with a collision-free hash, a [ModifyFile p chunks hash] built by
    [create_patch] rebuilds the new file: applied to a target whose file
    at [p] holds the old bytes (in a directory, at a non-root path), the
    modify step of [apply_patch] passes its hash check and writes exactly
    the bytes of the new file there. *)
Theorem create_modify_applies (blake3 : list byte -> list byte)
  (blake3_inj : forall x y, blake3 x = blake3 y -> x = y) (old new : list DirEntry)
  (p : string) (c : list DiffChunk) (h : list byte) :
  In (ModifyFile p c h) (operations (fst (create_patch blake3 old new))) ->
  exists eo en, entry_lookup old p = Some eo /\ entry_lookup new p = Some en
    /\ forall fs target,
         fs_read fs (join target p) = Some (contents eo) ->
         is_dir fs (removelast (join target p)) = true ->
         join target p <> [] ->
         modify_file_op blake3 target fs (ModifyFile p c h)
         = (fs_set fs (join target p) (NFile (contents en)), Ok).
Proof.
  unfold create_patch. intros H.
  apply create_modify_iff_helper in H as (eo & en & E1 & E2 & _ & _ & _ & -> & ->).
  exists eo, en. split; [exact E1|]. split; [exact E2|].
  intros fs target Hr Hd Hne. cbn [modify_file_op]. rewrite Hr.
  replace (apply_diff (contents eo) _) with (Some (contents en)).
  2:{ symmetry. destruct (is_incompressible (full_path en)).
      - apply apply_diff_single_insert.
      - apply (compute_diff_roundtrip_gen blake3 blake3_inj). }
  replace (bytes_eqb (blake3 (contents en)) (blake3 (contents en))) with true
    by (symmetry; apply bytes_eqb_true; reflexivity).
  cbn [negb]. unfold fs_write.
  destruct (join target p) as [|x r] eqn:J; [contradiction (Hne eq_refl)|].
  rewrite Hd. cbn [negb]. unfold fs_read in Hr.
  destruct (fs (x :: r)) as [[|d]|]; [discriminate|reflexivity|discriminate].
Qed.

Lemma create_modify_applies_witness :
  exists eo en, entry_lookup sample_old_files "f"%string = Some eo
    /\ entry_lookup sample_new_files "f"%string = Some en
    /\ forall fs target,
         fs_read fs (join target "f"%string) = Some (contents eo) ->
         is_dir fs (removelast (join target "f"%string)) = true ->
         join target "f"%string <> [] ->
         modify_file_op (fun l => l) target fs
           (ModifyFile "f"%string [Insert [Byte.x02; Byte.x03]] [Byte.x02; Byte.x03])
         = (fs_set fs (join target "f"%string) (NFile (contents en)), Ok).
Proof.
  apply (create_modify_applies (fun l => l) (fun x y H => H) sample_old_files sample_new_files).
  vm_compute. left. reflexivity.
Defined.

Lemma table_fold_get (entries : list (nat * BlockSignature)) :
  forall t d, table_get (fold_left table_step entries t) d
  = match table_get t d, map fst (filter (fun e => Z.eqb (rolling_hash (snd e)) d) entries) with
    | Some vs, l => Some (vs ++ l)
    | None, [] => None
    | None, l => Some l
    end.
Proof.
  induction entries as [|[i sg] entries IH]; intros t d; simpl.
  - destruct (table_get t d); [rewrite app_nil_r|]; reflexivity.
  - rewrite IH. destruct (Z.eqb (rolling_hash sg) d) eqn:E.
    + apply Z.eqb_eq in E. rewrite E, table_get_push_same. cbn [map fst].
      destruct (table_get t d); [rewrite <- app_assoc|]; reflexivity.
    + apply Z.eqb_neq in E. rewrite table_get_push_other by exact E. reflexivity.
Qed.

Lemma combine_seq_fst_ge {A : Type} (l : list A) :
  forall s i, In i (map fst (combine (seq s (length l)) l)) -> (s <= i)%nat.
Proof.
  induction l as [|x l IH]; intros s i H; [destruct H|].
  simpl in H. destruct H as [<-|H]; [lia|]. specialize (IH (S s) i H). lia.
Qed.

Lemma filter_combine_seq_sorted {A : Type} (P : nat * A -> bool) (l : list A) :
  forall s, StronglySorted lt (map fst (filter P (combine (seq s (length l)) l))).
Proof.
  induction l as [|x l IH]; intros s; [constructor|].
  simpl. destruct (P (s, x)); [|apply IH]. simpl. constructor; [apply IH|].
  apply Forall_forall. intros i Hi.
  assert (Hi' : In i (map fst (combine (seq (S s) (length l)) l))).
  { apply in_map_iff in Hi as [e [<- He]]. apply filter_In in He as [He _]. apply in_map, He. }
  apply combine_seq_fst_ge in Hi'. lia.
Qed.

Lemma find_candidate_first (old : list byte) (sigs : list BlockSignature) (h : list byte)
  (cands : list nat) (off len : N) :
  find_candidate old sigs h cands = Some (off, len) ->
  exists pre idx rest sig, cands = pre ++ idx :: rest /\ nth_error sigs idx = Some sig
    /\ strong_hash sig = h /\ off = sig_offset sig
    /\ forall c s, In c pre -> nth_error sigs c = Some s -> strong_hash s <> h.
Proof.
  induction cands as [|c cands IH]; intros H; [discriminate|]. simpl in H.
  destruct (nth_error sigs c) as [sg|] eqn:En.
  - destruct (bytes_eqb (strong_hash sg) h) eqn:B.
    + injection H as <- _. apply bytes_eqb_true in B.
      exists [], c, cands, sg. repeat split; auto. all: intros c' s' [].
    + destruct (IH H) as (pre & idx & rest & sig & -> & Hn & Hs & Ho & Hp).
      exists (c :: pre), idx, rest, sig. repeat split; auto.
      intros c' s' [<-|Hc] Hc'; [|exact (Hp c' s' Hc Hc')].
      rewrite En in Hc'. injection Hc' as <-. intros E. rewrite E in B.
      rewrite (proj2 (bytes_eqb_true h h) eq_refl) in B. discriminate.
  - destruct (IH H) as (pre & idx & rest & sig & -> & Hn & Hs & Ho & Hp).
    exists (c :: pre), idx, rest, sig. repeat split; auto.
    intros c' s' [<-|Hc] Hc'; [congruence|exact (Hp c' s' Hc Hc')].
Qed.

Lemma in_combine_seq_nth {A : Type} (l : list A) :
  forall s i x, In (i, x) (combine (seq s (length l)) l) -> nth_error l (i - s) = Some x /\ (s <= i)%nat.
Proof.
  induction l as [|y l IH]; intros s i x H; [destruct H|].
  simpl in H. destruct H as [E|H].
  - injection E as <- <-. rewrite Nat.sub_diag. split; [reflexivity|lia].
  - destruct (IH (S s) i x H) as [Hn Hle].
    replace (i - s)%nat with (S (i - S s)) by lia. split; [exact Hn|lia].
Qed.

Lemma ss_lt_split (pre rest : list nat) (idx j : nat) :
  StronglySorted lt (pre ++ idx :: rest) -> In j (pre ++ idx :: rest) -> (j < idx)%nat ->
  In j pre.
Proof.
  induction pre as [|x pre IH]; intros Hs Hj Hlt; simpl in *.
  - inversion Hs as [|? ? _ Hf]; subst. rewrite Forall_forall in Hf.
    destruct Hj as [->|Hj]; [lia|]. specialize (Hf j Hj). lia.
  - inversion Hs as [|? ? Hs' _]; subst.
    destruct Hj as [->|Hj]; [left; reflexivity|right; exact (IH Hs' Hj Hlt)].
Qed.

(** X19: [find_match] takes the first candidate in index order: when it
    returns a block, that block has the window's rolling digest and
    strong hash, and no block of lower index has both. *)
Theorem find_match_lowest_block (blake3 : list byte -> list byte) (d : Z) (w old : list byte)
  (sigs : list BlockSignature) (off len : N) :
  find_match blake3 d w old (build_hash_table sigs) sigs = Some (off, len) ->
  exists idx sig, nth_error sigs idx = Some sig /\ off = sig_offset sig
    /\ rolling_hash sig = d /\ strong_hash sig = blake3 w
    /\ forall j sig', (j < idx)%nat -> nth_error sigs j = Some sig' ->
         rolling_hash sig' = d -> strong_hash sig' <> blake3 w.
Proof.
  unfold find_match, build_hash_table.
  change (fun t '(idx, sig) => table_push t (rolling_hash sig) idx) with table_step.
  rewrite table_fold_get. cbn [table_get].
  set (cands := map fst (filter (fun e => Z.eqb (rolling_hash (snd e)) d)
                           (combine (seq 0 (length sigs)) sigs))).
  assert (Hc : forall j sg, nth_error sigs j = Some sg -> rolling_hash sg = d -> In j cands).
  { intros j sg Hn Hr. apply in_map_iff. exists (j, sg). split; [reflexivity|].
    apply filter_In. split; [exact (in_combine_seq sigs 0 j sg Hn)|]. apply Z.eqb_eq, Hr. }
  assert (Hr : forall j, In j cands -> exists sg, nth_error sigs j = Some sg /\ rolling_hash sg = d).
  { intros j Hj. apply in_map_iff in Hj as [[j' sg] [E Hj]]. cbn [fst] in E. subst j'.
    apply filter_In in Hj as [Hj Hd]. apply Z.eqb_eq in Hd. exists sg. split; [|exact Hd].
    destruct (in_combine_seq_nth sigs 0 j sg Hj) as [Hn _]. rewrite Nat.sub_0_r in Hn. exact Hn. }
  assert (Hs : StronglySorted lt cands) by apply filter_combine_seq_sorted.
  intros H. destruct cands as [|c0 cs] eqn:Ec; [discriminate|].
  rewrite <- Ec in H, Hs, Hc, Hr.
  apply find_candidate_first in H as (pre & idx & rest & sig & E & Hn & Hsh & Ho & Hp).
  exists idx, sig. split; [exact Hn|]. split; [exact Ho|].
  assert (Hidx : In idx cands) by (rewrite E; apply in_or_app; right; left; reflexivity).
  destruct (Hr idx Hidx) as [sg [Hn' Hd]]. rewrite Hn in Hn'. injection Hn' as <-.
  split; [exact Hd|]. split; [exact Hsh|].
  intros j sig' Hlt Hj Hdj. apply (Hp j sig'); [|exact Hj].
  rewrite E in Hs, Hc. apply (ss_lt_split pre rest idx j Hs (Hc j sig' Hj Hdj) Hlt).
Qed.

Lemma find_match_lowest_block_witness :
  find_match (fun l => l) 5 [Byte.x02] [] (build_hash_table sample_sigs) sample_sigs
    = Some (4096%N, 0%N)
  /\ exists idx sig, nth_error sample_sigs idx = Some sig /\ 4096%N = sig_offset sig
    /\ rolling_hash sig = 5 /\ strong_hash sig = [Byte.x02]
    /\ forall j sig', (j < idx)%nat -> nth_error sample_sigs j = Some sig' ->
         rolling_hash sig' = 5 -> strong_hash sig' <> [Byte.x02].
Proof.
  assert (H : find_match (fun l => l) 5 [Byte.x02] [] (build_hash_table sample_sigs) sample_sigs
              = Some (4096%N, 0%N)) by (vm_compute; reflexivity).
  split; [exact H|]. exact (find_match_lowest_block (fun l => l) 5 [Byte.x02] [] sample_sigs _ _ H).
Defined.

Lemma mkdirs_ok_dir (fs : Fs) (prefix : FsPath) (rest : list string) :
  is_dir fs prefix = true -> snd (mkdirs fs prefix rest) = Ok ->
  is_dir (fst (mkdirs fs prefix rest)) (prefix ++ rest) = true.
Proof.
  revert fs prefix. induction rest as [|c rest IH]; intros fs prefix Hd H.
  - rewrite app_nil_r. exact Hd.
  - replace (prefix ++ c :: rest) with ((prefix ++ [c]) ++ rest)
      by (rewrite <- app_assoc; reflexivity).
    simpl in H |- *. destruct (fs (prefix ++ [c])) as [[|d]|] eqn:E.
    + apply IH; [|exact H]. unfold is_dir. rewrite E. destruct (prefix ++ [c]); reflexivity.
    + discriminate.
    + apply IH; [|exact H]. unfold is_dir. rewrite fs_set_same.
      destruct (prefix ++ [c]); reflexivity.
Qed.

Lemma create_dir_op_keeps_dir (target : FsPath) (fs : Fs) (op : PatchOp) (q : FsPath) :
  is_dir fs q = true -> is_dir (fst (create_dir_op target fs op)) q = true.
Proof.
  intros Hd. destruct (opt_node_eq_dec (fst (create_dir_op target fs op) q) (fs q)) as [E|N].
  - unfold is_dir in *. destruct q; [reflexivity|]. rewrite E. exact Hd.
  - destruct op; try contradiction (N eq_refl). cbn [create_dir_op] in *.
    destruct (mkdirs_local _ _ _ _ N) as [Hn _].
    unfold is_dir in Hd. destruct q; [reflexivity|]. rewrite Hn in Hd. discriminate.
Qed.

Lemma try_create_keeps_dir (target : FsPath) (ops : list PatchOp) :
  forall fs q, is_dir fs q = true ->
  is_dir (fst (try_for_each (create_dir_op target) fs ops)) q = true.
Proof.
  induction ops as [|op ops IH]; intros fs q Hd; [exact Hd|]. simpl.
  pose proof (create_dir_op_keeps_dir target fs op q Hd) as K.
  destruct (create_dir_op target fs op) as [fs' [|e]]; [apply IH|]; exact K.
Qed.

(** X20: when the [CreateDir] phase of [apply_patch] succeeds, the joined
    path of every [CreateDir] operation is a directory afterwards: later
    operations of the phase only create missing directories and never
    remove one. *)
Theorem create_dir_phase_makes_dirs (target : FsPath) (fs : Fs) (ops : list PatchOp) :
  snd (try_for_each (create_dir_op target) fs ops) = Ok ->
  forall p, In (CreateDir p) ops ->
  is_dir (fst (try_for_each (create_dir_op target) fs ops)) (join target p) = true.
Proof.
  revert fs. induction ops as [|op ops IH]; intros fs H p Hin; [destruct Hin|].
  simpl in H |- *.
  assert (Hop : op = CreateDir p -> snd (create_dir_op target fs op) = Ok ->
                is_dir (fst (create_dir_op target fs op)) (join target p) = true).
  { intros E Hok. rewrite E in Hok |- *. cbn [create_dir_op] in *. unfold create_dir_all in *.
    apply (mkdirs_ok_dir fs [] _ eq_refl Hok). }
  destruct (create_dir_op target fs op) as [fs' [|e]]; [|discriminate].
  destruct Hin as [E|Hin].
  - apply try_create_keeps_dir. exact (Hop E eq_refl).
  - exact (IH fs' H p Hin).
Qed.

Lemma create_dir_phase_makes_dirs_witness :
  snd (try_for_each (create_dir_op []) sample_root_fs
         [CreateDir "a/b"%string; CreateDir "c"%string]) = Ok
  /\ is_dir (fst (try_for_each (create_dir_op []) sample_root_fs
         [CreateDir "a/b"%string; CreateDir "c"%string])) (join [] "a/b"%string) = true.
Proof.
  assert (H : snd (try_for_each (create_dir_op []) sample_root_fs
                 [CreateDir "a/b"%string; CreateDir "c"%string]) = Ok)
    by (vm_compute; reflexivity).
  split; [exact H|].
  apply (create_dir_phase_makes_dirs [] sample_root_fs _ H). left. reflexivity.
Defined.

(** X21: an [AddFile path data hash] step of [apply_patch] that succeeds
    leaves a regular file holding exactly [data] at the joined path, and
    [hash] is the BLAKE3 hash of [data]. *)
Theorem add_file_op_ok (blake3 : list byte -> list byte) (target : FsPath) (fs : Fs)
  (path : string) (data h : list byte) :
  snd (add_file_op blake3 target fs (AddFile path data h)) = Ok ->
  fst (add_file_op blake3 target fs (AddFile path data h)) (join target path) = Some (NFile data)
  /\ blake3 data = h.
Proof.
  cbn [add_file_op].
  destruct (match fs_parent (join target path) with
            | Some parent => create_dir_all fs parent
            | None => (fs, Ok) end) as [fs1 [|e]]; [|discriminate].
  pose proof (fs_write_cases fs1 (join target path) data) as W.
  destruct (fs_write fs1 (join target path) data) as [fs2 [|e]]; cbn [fst snd] in W.
  - destruct W as [[_ ->]|[W _]]; [|discriminate].
    destruct (bytes_eqb (blake3 data) h) eqn:B; [|discriminate]. intros _.
    split; [apply fs_set_same|apply bytes_eqb_true, B].
  - discriminate.
Qed.

Lemma add_file_op_ok_witness :
  snd (add_file_op (fun l => l) [] sample_root_fs
         (AddFile "a/f"%string [Byte.x01] [Byte.x01])) = Ok
  /\ fst (add_file_op (fun l => l) [] sample_root_fs (AddFile "a/f"%string [Byte.x01] [Byte.x01]))
       (join [] "a/f"%string) = Some (NFile [Byte.x01])
  /\ (fun l : list byte => l) [Byte.x01] = [Byte.x01].
Proof.
  assert (H : snd (add_file_op (fun l => l) [] sample_root_fs
                 (AddFile "a/f"%string [Byte.x01] [Byte.x01])) = Ok)
    by (vm_compute; reflexivity).
  split; [exact H|]. exact (add_file_op_ok (fun l => l) [] sample_root_fs _ _ _ H).
Defined.

(** X22: [util::path_set] behaves as the [BTreeSet] it builds: it lists
    every relative path of the entries exactly once, in ascending order. *)
Theorem path_set_sorted_set (es : list DirEntry) :
  NoDup (path_set es) /\ StronglySorted str_le (path_set es)
  /\ forall p, In p (path_set es) <-> In p (map relative_path es).
Proof.
  split; [apply path_set_NoDup|]. split; [apply sort_strings_ss|]. intros p. apply path_set_In.
Qed.

Lemma flat_map_nil_helper {A B : Type} (f : A -> list B) (l : list A) :
  (forall x, In x l -> f x = []) -> flat_map f l = [].
Proof.
  induction l as [|x l IH]; intros H; [reflexivity|]. simpl.
  rewrite (H x (or_introl eq_refl)). apply IH. intros y Hy. apply H. right. exact Hy.
Qed.

Lemma set_difference_self (a : list string) : set_difference a a = [].
Proof.
  unfold set_difference.
  assert (Hgen : forall l, (forall y, In y l -> In y a) ->
                 filter (fun p => negb (str_mem p a)) l = []).
  { induction l as [|y l IHl]; intros Hl; [reflexivity|]. simpl.
    replace (str_mem y a) with true
      by (symmetry; apply str_mem_In, Hl; left; reflexivity).
    apply IHl. intros z Hz. apply Hl. right. exact Hz. }
  apply Hgen. intros y Hy. exact Hy.
Qed.

(** X23: comparing a tree with itself gives an empty patch: no operation,
    and a summary of zeros (the equal sizes and equal hashes of every
    file skip its diff). *)
Theorem create_patch_identical_trees (blake3 : list byte -> list byte)
  (differ : list byte -> list byte -> list DiffChunk) (es : list DirEntry) :
  create_patch_with blake3 differ es es
  = (mkPatchManifest FORMAT_VERSION [], mkApplySummary 0 0 0 0 0).
Proof.
  assert (Hcn : forall k, classify_new es es k = [])
    by (intros k; unfold classify_new; rewrite set_difference_self; reflexivity).
  assert (Hco : forall k, classify_old es es k = [])
    by (intros k; unfold classify_old; rewrite set_difference_self; reflexivity).
  assert (Hd : flat_map (fun i => match diff_one blake3 differ i with Some r => [r] | None => [] end)
                 (map mk_diff_input (files_maybe_modified es es)) = []).
  { apply flat_map_nil_helper. intros i Hi. apply in_map_iff in Hi as [[eo en] [<- Hp]].
    apply files_maybe_modified_iff in Hp as (E1 & E2 & _ & _). rewrite E1 in E2.
    injection E2 as <-. unfold diff_one, mk_diff_input. cbn [sizes_differ old_data new_data].
    rewrite N.eqb_refl. cbn [negb andb].
    rewrite (proj2 (bytes_eqb_true _ _) eq_refl). reflexivity. }
  unfold create_patch_with. rewrite !Hcn, !Hco, Hd. reflexivity.
Qed.







Lemma ascii_to_lower_eqb_slash (x : ascii) :
  Ascii.eqb (ascii_to_lower x) "/"%char = Ascii.eqb x "/"%char.
Proof. destruct x as [[] [] [] [] [] [] [] []]; reflexivity. Qed.

Lemma ascii_to_lower_eqb_dot (x : ascii) :
  Ascii.eqb (ascii_to_lower x) "."%char = Ascii.eqb x "."%char.
Proof. destruct x as [[] [] [] [] [] [] [] []]; reflexivity. Qed.

Lemma ascii_to_lower_idem (x : ascii) : ascii_to_lower (ascii_to_lower x) = ascii_to_lower x.
Proof. destruct x as [[] [] [] [] [] [] [] []]; reflexivity. Qed.

Lemma to_lower_idem (s : string) : to_ascii_lowercase (to_ascii_lowercase s) = to_ascii_lowercase s.
Proof. induction s as [|x s IH]; simpl; [reflexivity|]. rewrite ascii_to_lower_idem, IH. reflexivity. Qed.

Lemma to_lower_append (s1 s2 : string) :
  to_ascii_lowercase (s1 ++ s2) = (to_ascii_lowercase s1 ++ to_ascii_lowercase s2)%string.
Proof. induction s1 as [|x s1 IH]; simpl; [reflexivity|]. rewrite IH. reflexivity. Qed.

Lemma split_on_to_lower (c : ascii) (s : string) :
  (forall x, Ascii.eqb (ascii_to_lower x) c = Ascii.eqb x c) ->
  split_on c (to_ascii_lowercase s) = map to_ascii_lowercase (split_on c s).
Proof.
  intros Hc. induction s as [|x s IH]; [reflexivity|]. simpl. rewrite Hc, IH.
  destruct (Ascii.eqb x c); [reflexivity|]. destruct (split_on c s); reflexivity.
Qed.

Lemma to_lower_eqb_empty (s : string) :
  String.eqb (to_ascii_lowercase s) "" = String.eqb s "".
Proof. destruct s; reflexivity. Qed.

Lemma to_lower_eqb_dotstr (s : string) :
  String.eqb (to_ascii_lowercase s) "." = String.eqb s ".".
Proof.
  destruct s as [|a [|b r]]; simpl; rewrite ?ascii_to_lower_eqb_dot; reflexivity.
Qed.

Lemma to_lower_eqb_dotdot (s : string) :
  String.eqb (to_ascii_lowercase s) ".." = String.eqb s "..".
Proof.
  destruct s as [|a [|b [|c r]]]; simpl; rewrite ?ascii_to_lower_eqb_dot; reflexivity.
Qed.

Lemma to_lower_concat_dot (l : list string) :
  String.concat "." (map to_ascii_lowercase l) = to_ascii_lowercase (String.concat "." l).
Proof.
  induction l as [|x l IH]; [reflexivity|].
  destruct l as [|y l]; [reflexivity|].
  change (String.concat "." (map to_ascii_lowercase (x :: y :: l)))
    with (to_ascii_lowercase x ++ "." ++ String.concat "." (map to_ascii_lowercase (y :: l)))%string.
  change (String.concat "." (x :: y :: l)) with (x ++ "." ++ String.concat "." (y :: l))%string.
  rewrite IH, !to_lower_append. reflexivity.
Qed.

Lemma filter_map_comm {A B} (f : B -> bool) (g : A -> B) (l : list A) :
  filter f (map g l) = map g (filter (fun x => f (g x)) l).
Proof.
  induction l as [|x l IH]; simpl; [reflexivity|]. rewrite IH. destruct (f (g x)); reflexivity.
Qed.

Lemma file_name_to_lower (path : string) :
  file_name (to_ascii_lowercase path) = option_map to_ascii_lowercase (file_name path).
Proof.
  unfold file_name. rewrite (split_on_to_lower _ _ ascii_to_lower_eqb_slash), filter_map_comm.
  erewrite filter_ext by (intros x; rewrite to_lower_eqb_empty, to_lower_eqb_dotstr; reflexivity).
  rewrite <- map_rev.
  destruct (rev (filter (fun c => negb (String.eqb c "" || String.eqb c "."))
                  (split_on "/" path))) as [|name r];
    [reflexivity|].
  simpl. rewrite to_lower_eqb_dotdot. destruct (String.eqb name ".."); reflexivity.
Qed.

Lemma extension_to_lower (path : string) :
  extension (to_ascii_lowercase path) = option_map to_ascii_lowercase (extension path).
Proof.
  unfold extension. rewrite file_name_to_lower.
  destruct (file_name path) as [name|]; [|reflexivity]. simpl.
  rewrite (split_on_to_lower _ _ ascii_to_lower_eqb_dot), <- map_rev.
  destruct (rev (split_on "." name)) as [|after [|b r]]; try reflexivity.
  simpl map. cbv zeta.
  cbv beta iota.
  change (to_ascii_lowercase b :: map to_ascii_lowercase r) with (map to_ascii_lowercase (b :: r)).
  rewrite <- map_rev, to_lower_concat_dot, to_lower_eqb_empty.
  destruct (String.eqb (String.concat "." (rev (b :: r))) ""); reflexivity.
Qed.

Lemma split_on_nonempty (c : ascii) (s : string) : split_on c s <> [].
Proof.
  destruct s as [|x r]; simpl; [discriminate|].
  destruct (Ascii.eqb x c); [discriminate|]. destruct (split_on c r); discriminate.
Qed.

Lemma split_on_app_sep (c : ascii) (s1 s2 : string) :
  split_on c (s1 ++ String c s2) = split_on c s1 ++ split_on c s2.
Proof.
  induction s1 as [|x r IH]; simpl.
  - rewrite Ascii.eqb_refl. reflexivity.
  - rewrite IH. destruct (Ascii.eqb x c); [reflexivity|].
    pose proof (split_on_nonempty c r) as Hne.
    destruct (split_on c r); [contradiction|reflexivity].
Qed.

Lemma split_on_no_sep (c : ascii) (s : string) :
  forallb (fun x => negb (Ascii.eqb x c)) (list_ascii_of_string s) = true ->
  split_on c s = [s].
Proof.
  induction s as [|x r IH]; simpl; [reflexivity|].
  intros H. apply andb_prop in H as [Hx Hr].
  destruct (Ascii.eqb x c); [discriminate|]. rewrite (IH Hr). reflexivity.
Qed.

Lemma file_name_last_component (dir name : string) :
  forallb (fun x => negb (Ascii.eqb x "/"%char)) (list_ascii_of_string name) = true ->
  name <> EmptyString -> name <> "."%string ->
  file_name (dir ++ String "/" name) = file_name name.
Proof.
  intros Hs Hne Hdot. unfold file_name.
  rewrite split_on_app_sep, (split_on_no_sep _ _ Hs), filter_app. simpl.
  destruct (String.eqb name "") eqn:E; [apply String.eqb_eq in E; contradiction|].
  destruct (String.eqb name ".") eqn:D; [apply String.eqb_eq in D; contradiction|].
  simpl. rewrite rev_app_distr. reflexivity.
Qed.

(** X25: [is_incompressible] ignores ASCII case: lowercasing the whole
    path does not change whether it is classified as incompressible. *)
Theorem is_incompressible_case_insensitive (path : string) :
  is_incompressible (to_ascii_lowercase path) = is_incompressible path.
Proof.
  unfold is_incompressible. rewrite extension_to_lower.
  destruct (extension path) as [e|]; simpl; [rewrite to_lower_idem|]; reflexivity.
Qed.

(** X26: [is_incompressible] only looks at the last path component: for a
    name without a slash that is neither empty nor [.] (components that
    [Path::components] skips), [dir/name] is incompressible exactly when
    [name] is. *)
Theorem is_incompressible_last_component (dir name : string) :
  forallb (fun x => negb (Ascii.eqb x "/"%char)) (list_ascii_of_string name) = true ->
  name <> EmptyString -> name <> "."%string ->
  is_incompressible (dir ++ String "/" name) = is_incompressible name.
Proof.
  intros Hs Hne Hdot. unfold is_incompressible, extension.
  rewrite (file_name_last_component dir name Hs Hne Hdot). reflexivity.
Qed.

Lemma is_incompressible_last_component_witness :
  is_incompressible ("assets/img" ++ String "/" "Logo.PNG")%string = is_incompressible "Logo.PNG"%string
  /\ is_incompressible "Logo.PNG"%string = true.
Proof.
  split.
  - apply is_incompressible_last_component; [vm_compute; reflexivity | discriminate | discriminate].
  - vm_compute. reflexivity.
Defined.

(** C2 (amended): [apply_patch] does not check operation paths against
    the wire convention; it joins each path onto the target and runs the
    operation.  For a valid header and a manifest whose only operation is
    [CreateDir p], on an existing target directory, the patch succeeds
    with one directory created and [target/p] a directory afterwards,
    whenever creating that directory succeeds: a leading slash, [.]
    segments, empty components and leading [..] segments are accepted
    alike ([no_inner_dotdot] keeps [join] where the OS acts). *)
Theorem apply_patch_accepts_unchecked_path (blake3 : list byte -> list byte)
  (decode : list byte -> option PatchManifest) (fs : Fs) (target : FsPath)
  (rest : list byte) (p : string) :
  decode rest = Some (mkPatchManifest FORMAT_VERSION [CreateDir p]) ->
  is_dir fs target = true ->
  no_inner_dotdot p = true ->
  snd (create_dir_all fs (join target p)) = Ok ->
  snd (apply_patch blake3 decode fs target (MAGIC ++ rest)) = inl (mkApplySummary 1 0 0 0 0)
  /\ fst (apply_patch blake3 decode fs target (MAGIC ++ rest)) = fst (create_dir_all fs (join target p))
  /\ is_dir (fst (apply_patch blake3 decode fs target (MAGIC ++ rest))) (join target p) = true.
Proof.
  intros Hd Ht _ Hc.
  assert (Hm : (length (MAGIC ++ rest) <? length MAGIC)%nat
               || negb (bytes_eqb (firstn (length MAGIC) (MAGIC ++ rest)) MAGIC) = false).
  { rewrite firstn_app, Nat.sub_diag, firstn_O, app_nil_r, firstn_all.
    unfold bytes_eqb. destruct (list_eq_dec Byte.byte_eq_dec MAGIC MAGIC) as [_|N];
      [|contradiction (N eq_refl)].
    rewrite length_app. apply orb_false_iff. split; [apply Nat.ltb_ge; lia|reflexivity]. }
  assert (Hs : skipn (length MAGIC) (MAGIC ++ rest) = rest)
    by (rewrite skipn_app, Nat.sub_diag, skipn_all; reflexivity).
  unfold apply_patch. rewrite Hm, Hs, Hd. cbn [version operations filter is_create_dir
    is_add_file is_modify_file is_delete_file is_delete_dir].
  rewrite Z.eqb_refl, Ht. cbn [negb try_for_each create_dir_op].
  destruct (create_dir_all fs (join target p)) as [fs1 o1] eqn:E. cbn [snd] in Hc. subst o1.
  cbn. split; [reflexivity|]. split; [reflexivity|].
  unfold create_dir_all in E.
  pose proof (mkdirs_ok_dir fs [] (join target p) eq_refl) as K.
  rewrite E in K. exact (K eq_refl).
Qed.

Lemma apply_patch_accepts_unchecked_path_witness :
  snd (apply_patch (fun l => l)
         (fun _ => Some (mkPatchManifest FORMAT_VERSION [CreateDir "../escape"%string]))
         srv_fs srv_target (MAGIC ++ [])) = inl (mkApplySummary 1 0 0 0 0)
  /\ join srv_target "../escape"%string = ["srv"; "escape"]%string.
Proof.
  split; [|reflexivity].
  apply (apply_patch_accepts_unchecked_path (fun l => l)
           (fun _ => Some (mkPatchManifest FORMAT_VERSION [CreateDir "../escape"%string]))
           srv_fs srv_target [] "../escape"%string); vm_compute; reflexivity.
Defined.
